(** * bokehgraph: the attribute-to-visual-encoding pipeline of [BokehGraph]

    A shallow embedding of [src/bokehgraph/bokehgraph.py].  The class keeps
    mutable fields and its methods raise, so methods are computations in a
    state-and-exception monad over a record of the instance's fields.  The
    graph library (networkx), the colour map of the sibling module
    [colormap] and the plotting surface (bokeh) are collaborators: the first
    two are a record of functions the methods call, the last is a record the
    methods fill in. *)

From Stdlib Require Import ZArith Floats.PrimFloat Numbers.Cyclic.Int63.Uint63.
From stdpp Require Import gmap strings list sorting.

Set Warnings "-register-all".
Set Warnings "-clear-no-such-hyp".
Set Warnings "-inexact-float".
Open Scope Z_scope.
Open Scope string_scope.
Open Scope list_scope.

(** ** Python values and exceptions *)

(** Attribute values, identifiers and table cells.  Node and edge attributes
    are numbers, strings or booleans; a cell of the edge table's [xs] and
    [ys] columns is a two-element list. *)
Inductive value :=
| VInt (z : Z)
| VFloat (f : float)
| VStr (s : string)
| VBool (b : bool)
| VList (l : list value).

(** The exceptions the methods can let escape. *)
Inductive exn :=
| KeyError
| ValueError
| ZeroDivisionError
| TypeError
| AttributeError
| NetworkXError
| ColorMapError.

Inductive result (A : Type) :=
| Ok (a : A)
| Raise (e : exn).
Arguments Ok {A} a.
Arguments Raise {A} e.

Definition rbind {A B} (r : result A) (k : A -> result B) : result B :=
  match r with
  | Ok a => k a
  | Raise e => Raise e
  end.

Notation "x <- c ;; k" := (rbind c (fun x => k))
  (at level 100, c at next level, right associativity).

(** A list comprehension whose element expression can raise: the first
    exception, in iteration order, escapes. *)
Fixpoint comprehension {A B} (f : A -> result B) (l : list A) : result (list B) :=
  match l with
  | [] => Ok []
  | a :: l' => b <- f a ;; bs <- comprehension f l' ;; Ok (b :: bs)
  end.

(** A [for] loop that updates one variable and whose body can raise. *)
Fixpoint for_each {A S} (body : A -> S -> result S) (l : list A) (s : S) : result S :=
  match l with
  | [] => Ok s
  | a :: l' => s' <- body a s ;; for_each body l' s'
  end.

(** [v == k] for an integer literal [k]: Python compares numbers by value
    across [int], [bool] and [float]; a string is never equal to a number. *)
Definition py_eq_int (v : value) (k : Z) : bool :=
  match v with
  | VInt z => Z.eqb z k
  | VBool b => Z.eqb (Z.b2z b) k
  | VFloat f => PrimFloat.eqb f (PrimFloat.of_uint63 (Uint63.of_Z k))
  | VStr _ => false
  | VList _ => false
  end.

(** [math.sqrt]: a negative argument is a domain error. *)
Definition py_sqrt (x : float) : result float :=
  if PrimFloat.ltb x 0%float then Raise ValueError else Ok (PrimFloat.sqrt x).

(** [a / b] on floats. *)
Definition py_truediv (a b : float) : result float :=
  if PrimFloat.eqb b 0%float then Raise ZeroDivisionError else Ok (PrimFloat.div a b).

(** [int * float]: the integer is converted first. *)
Definition py_int_mul_float (n : Z) (x : float) : float :=
  PrimFloat.mul (PrimFloat.of_uint63 (Uint63.of_Z n)) x.

(** [a, b = zip( *rows)] where every row is a pair: with no row, [zip()]
    yields nothing and the unpacking raises [ValueError]; with at least one
    row it yields the tuple of first components and the tuple of second
    components. *)
Definition unpack_zip_star {A B} (rows : list (A * B)) : result (list A * list B) :=
  match rows with
  | [] => Raise ValueError
  | _ :: _ => Ok (rows.*1, rows.*2)
  end.

(** ** The graph *)

(** Node identifiers are integers, as in the class docstring's example. *)
Definition node := Z.

(** A [networkx.Graph] as the class reads it: [nodes(data=True)] and
    [edges(data=True)] in iteration order, every entry with its attribute
    dictionary. *)
Record Graph := {
  nodes_data : list (node * gmap string value);
  edges_data : list (node * node * gmap string value);
}.

(** [graph.edges()] *)
Definition edges (g : Graph) : list (node * node) := (edges_data g).*1.

(** [graph.number_of_nodes()] and [nx.number_of_edges(graph)] *)
Definition number_of_nodes (g : Graph) : Z := Z.of_nat (length (nodes_data g)).
Definition number_of_edges (g : Graph) : Z := Z.of_nat (length (edges_data g)).

(** [d[k]] on a dictionary kept in insertion order. *)
Fixpoint getitem {V} (d : list (node * V)) (n : node) : result V :=
  match d with
  | [] => Raise KeyError
  | (m, v) :: d' => if decide (m = n) then Ok v else getitem d' n
  end.

(** [data[attr]] *)
Definition getattr (data : gmap string value) (attr : string) : result value :=
  match data !! attr with
  | Some v => Ok v
  | None => Raise KeyError
  end.

(** [graph.nodes[n][attr]] *)
Definition node_attr (g : Graph) (n : node) (attr : string) : result value :=
  data <- getitem (nodes_data g) n ;; getattr data attr.

(** [sorted(s)] on a set of strings: increasing in the order of [str],
    which compares code points from the left. *)
Definition str_le (s1 s2 : string) : Prop := String.leb s1 s2 = true.
Global Instance str_le_dec : RelDecision str_le.
Proof. intros s1 s2. unfold str_le. apply _. Defined.

Definition sorted (s : gset string) : list string := merge_sort str_le (elements s).

(** [{attr for data in datas for attr in data}] *)
Definition attr_keys (datas : list (gmap string value)) : gset string :=
  ⋃ (dom <$> datas).

(** The attribute dictionaries of the nodes with [data["bipartite"] == k], in
    node order; a node without the key makes the comprehension raise. *)
Fixpoint side_data (k : Z) (nd : list (node * gmap string value))
  : result (list (node * gmap string value)) :=
  match nd with
  | [] => Ok []
  | (n, data) :: nd' =>
      v <- getattr data "bipartite" ;;
      rest <- side_data k nd' ;;
      Ok (if py_eq_int v k then (n, data) :: rest else rest)
  end.

(** ** Layouts, tables and the figure *)

(** A layout: node identifier to position, a dictionary in insertion order. *)
Definition Layout := list (node * (float * float)).

(** The named tuple [node(name, x, y)] of [gen_node_coordinates]. *)
Record node_coord := {
  name : node;
  x : float;
  y : float;
}.

(** The named tuple [edges(xs, ys)] of [gen_edge_coordinates]: one
    two-element list per edge in each. *)
Record edges_coord := {
  xs : list value;
  ys : list value;
}.

(** [target_dict[key].append(v)] *)
Definition append_to (key : string) (v : value) (t : gmap string (list value))
  : gmap string (list value) :=
  alter (λ col, col ++ [v]) key t.

Inductive marker := Circle | Square.

(** What [figure.multi_line] and [figure.scatter] are called with. *)
Inductive renderer :=
| MultiLine (line_color : string) (source : gmap string (list value))
    (alpha : value) (line_width : value)
| Scatter (mk : marker) (fill_color line_color : string)
    (source : gmap string (list value)) (alpha : value) (size : value).

Record HoverTool := {
  tooltips : list (string * string);
  formatters : gmap string string;
  hover_renderers : list renderer;
  placement : string * string;
}.

Record Figure := {
  fig_width : Z;
  fig_height : Z;
  fig_tools : list string;
  renderers : list renderer;
  hover_tools : list HoverTool;
}.

Definition add_renderer (r : renderer) (fig : Figure) : Figure :=
  {| fig_width := fig_width fig; fig_height := fig_height fig;
     fig_tools := fig_tools fig;
     renderers := renderers fig ++ [r];
     hover_tools := hover_tools fig |}.

Definition add_tools (h : HoverTool) (fig : Figure) : Figure :=
  {| fig_width := fig_width fig; fig_height := fig_height fig;
     fig_tools := fig_tools fig;
     renderers := renderers fig;
     hover_tools := hover_tools fig ++ [h] |}.

(** [{tip: "printf" for tip, _ in tooltips}] *)
Definition printf_formatter (tips : list (string * string)) : gmap string string :=
  list_to_map ((λ t, (t.1, "printf")) <$> tips).

(** ** Collaborators *)

(** The calls that leave this module.  The two sets of [nx.bipartite.sets]
    are given by their iteration order; [colormap_map palette max_colors
    values] is [BokehGraphColorMap(palette, max_colors).map(values)] of the
    sibling module [colormap]. *)
Record Collaborators := {
  nx_is_bipartite : Graph -> bool;
  nx_bipartite_sets : Graph -> result (list node * list node);
  nx_spring_layout : Graph -> float -> Z -> value -> option Z -> result Layout;
  nx_bipartite_layout : Graph -> list node -> result Layout;
  colormap_map : string -> Z -> list value -> result (list value);
}.

(** ** The instance *)

Record BokehGraph := {
  graph : Graph;
  width : Z;
  height : Z;
  hover_nodes : bool;
  hover_edges : bool;
  inline : bool;
  bipartite : Z;
  node_attributes_lv0 : list string;
  node_attributes_lv1 : option (list string);
  _node_tooltips_lv0 : option (list (string * string));
  _node_tooltips_lv1 : option (list (string * string));
  edge_attributes : list string;
  _edge_tooltips : option (list (string * string));
  _layout : option Layout;
  _nodes : option (list node_coord);
  _edges : option edges_coord;
  node_properties_lv0 : option (gmap string (list value));
  node_properties_lv1 : option (gmap string (list value));
  edge_properties : option (gmap string (list value));
}.

(** Assignments to the fields the methods write. *)
Definition set_layout (v : option Layout) (s : BokehGraph) : BokehGraph :=
  {| graph := graph s; width := width s; height := height s;
     hover_nodes := hover_nodes s; hover_edges := hover_edges s;
     inline := inline s; bipartite := bipartite s;
     node_attributes_lv0 := node_attributes_lv0 s;
     node_attributes_lv1 := node_attributes_lv1 s;
     _node_tooltips_lv0 := _node_tooltips_lv0 s;
     _node_tooltips_lv1 := _node_tooltips_lv1 s;
     edge_attributes := edge_attributes s;
     _edge_tooltips := _edge_tooltips s;
     _layout := v; _nodes := _nodes s; _edges := _edges s;
     node_properties_lv0 := node_properties_lv0 s;
     node_properties_lv1 := node_properties_lv1 s;
     edge_properties := edge_properties s |}.

Definition set_nodes (v : option (list node_coord)) (s : BokehGraph) : BokehGraph :=
  {| graph := graph s; width := width s; height := height s;
     hover_nodes := hover_nodes s; hover_edges := hover_edges s;
     inline := inline s; bipartite := bipartite s;
     node_attributes_lv0 := node_attributes_lv0 s;
     node_attributes_lv1 := node_attributes_lv1 s;
     _node_tooltips_lv0 := _node_tooltips_lv0 s;
     _node_tooltips_lv1 := _node_tooltips_lv1 s;
     edge_attributes := edge_attributes s;
     _edge_tooltips := _edge_tooltips s;
     _layout := _layout s; _nodes := v; _edges := _edges s;
     node_properties_lv0 := node_properties_lv0 s;
     node_properties_lv1 := node_properties_lv1 s;
     edge_properties := edge_properties s |}.

Definition set_edges (v : option edges_coord) (s : BokehGraph) : BokehGraph :=
  {| graph := graph s; width := width s; height := height s;
     hover_nodes := hover_nodes s; hover_edges := hover_edges s;
     inline := inline s; bipartite := bipartite s;
     node_attributes_lv0 := node_attributes_lv0 s;
     node_attributes_lv1 := node_attributes_lv1 s;
     _node_tooltips_lv0 := _node_tooltips_lv0 s;
     _node_tooltips_lv1 := _node_tooltips_lv1 s;
     edge_attributes := edge_attributes s;
     _edge_tooltips := _edge_tooltips s;
     _layout := _layout s; _nodes := _nodes s; _edges := v;
     node_properties_lv0 := node_properties_lv0 s;
     node_properties_lv1 := node_properties_lv1 s;
     edge_properties := edge_properties s |}.

Definition set_node_properties_lv0 (v : option (gmap string (list value)))
  (s : BokehGraph) : BokehGraph :=
  {| graph := graph s; width := width s; height := height s;
     hover_nodes := hover_nodes s; hover_edges := hover_edges s;
     inline := inline s; bipartite := bipartite s;
     node_attributes_lv0 := node_attributes_lv0 s;
     node_attributes_lv1 := node_attributes_lv1 s;
     _node_tooltips_lv0 := _node_tooltips_lv0 s;
     _node_tooltips_lv1 := _node_tooltips_lv1 s;
     edge_attributes := edge_attributes s;
     _edge_tooltips := _edge_tooltips s;
     _layout := _layout s; _nodes := _nodes s; _edges := _edges s;
     node_properties_lv0 := v;
     node_properties_lv1 := node_properties_lv1 s;
     edge_properties := edge_properties s |}.

Definition set_node_properties_lv1 (v : option (gmap string (list value)))
  (s : BokehGraph) : BokehGraph :=
  {| graph := graph s; width := width s; height := height s;
     hover_nodes := hover_nodes s; hover_edges := hover_edges s;
     inline := inline s; bipartite := bipartite s;
     node_attributes_lv0 := node_attributes_lv0 s;
     node_attributes_lv1 := node_attributes_lv1 s;
     _node_tooltips_lv0 := _node_tooltips_lv0 s;
     _node_tooltips_lv1 := _node_tooltips_lv1 s;
     edge_attributes := edge_attributes s;
     _edge_tooltips := _edge_tooltips s;
     _layout := _layout s; _nodes := _nodes s; _edges := _edges s;
     node_properties_lv0 := node_properties_lv0 s;
     node_properties_lv1 := v;
     edge_properties := edge_properties s |}.

Definition set_edge_properties (v : option (gmap string (list value)))
  (s : BokehGraph) : BokehGraph :=
  {| graph := graph s; width := width s; height := height s;
     hover_nodes := hover_nodes s; hover_edges := hover_edges s;
     inline := inline s; bipartite := bipartite s;
     node_attributes_lv0 := node_attributes_lv0 s;
     node_attributes_lv1 := node_attributes_lv1 s;
     _node_tooltips_lv0 := _node_tooltips_lv0 s;
     _node_tooltips_lv1 := _node_tooltips_lv1 s;
     edge_attributes := edge_attributes s;
     _edge_tooltips := _edge_tooltips s;
     _layout := _layout s; _nodes := _nodes s; _edges := _edges s;
     node_properties_lv0 := node_properties_lv0 s;
     node_properties_lv1 := node_properties_lv1 s;
     edge_properties := v |}.

(** Truth value of the integer flag [self.bipartite]. *)
Definition truthy (z : Z) : bool := negb (Z.eqb z 0).

(** [not d] for an optional dictionary or list: [None] and the empty
    container are both false. *)
Definition falsy {A} (o : option (list A)) : bool :=
  match o with
  | None | Some [] => true
  | Some (_ :: _) => false
  end.

(** The tooltip descriptors of lines 73-75 (and 82-84, 91-93, 101-103). *)
Definition attr_tooltips (attrs : list string) : list (string * string) :=
  (λ attr, (attr, "@" +:+ attr)) <$> attrs.
Definition node_tooltips (attrs : list string) : list (string * string) :=
  [("type", "node"); ("node", "@_node")] ++ attr_tooltips attrs.
Definition edge_tooltips (attrs : list string) : list (string * string) :=
  [("type", "edge"); ("u", "@_u"); ("v", "@_v")] ++ attr_tooltips attrs.

(** [d[key]] on a table. *)
Definition table_getitem (t : gmap string (list value)) (key : string)
  : result (list value) :=
  match t !! key with
  | Some col => Ok col
  | None => Raise KeyError
  end.

(** ** The methods of [BokehGraph] *)

Section Methods.

Variable E : Collaborators.

(** Lines 58-61. *)
Definition bipartite_flag (g : Graph) : Z :=
  if nx_is_bipartite E g && Z.gtb (number_of_edges g) 0 then 1 else 0.

(** [__init__], lines 35-110.  The notebook set-up and the choice of [show]
    act on the display only; [inline] is kept as a field. *)
Definition init (g : Graph) (width height : Z)
    (inline hover_nodes hover_edges : bool) : result BokehGraph :=
  let bip := bipartite_flag g in
  cats <- (if truthy bip then
             d0 <- side_data 0 (nodes_data g) ;;
             d1 <- side_data 1 (nodes_data g) ;;
             Ok (sorted (attr_keys d0.*2), Some (sorted (attr_keys d1.*2)))
           else
             Ok (sorted (attr_keys (nodes_data g).*2), None)) ;;
  let lv0 := cats.1 in
  let lv1 := cats.2 in
  let edge_attrs := sorted (attr_keys (edges_data g).*2) in
  Ok {| graph := g; width := width; height := height;
        hover_nodes := hover_nodes; hover_edges := hover_edges;
        inline := inline; bipartite := bip;
        node_attributes_lv0 := lv0;
        node_attributes_lv1 := lv1;
        _node_tooltips_lv0 :=
          if hover_nodes then Some (node_tooltips lv0) else None;
        _node_tooltips_lv1 :=
          if hover_nodes then node_tooltips <$> lv1 else None;
        edge_attributes := edge_attrs;
        _edge_tooltips :=
          if hover_edges then Some (edge_tooltips edge_attrs) else None;
        _layout := None; _nodes := None; _edges := None;
        node_properties_lv0 := None;
        node_properties_lv1 := None;
        edge_properties := None |}.

(** [k = 1 / sqrt(number_of_nodes * shrink_factor)], line 143. *)
Definition spring_k (g : Graph) (shrink_factor : float) : result float :=
  d <- py_sqrt (py_int_mul_float (number_of_nodes g) shrink_factor) ;;
  py_truediv 1%float d.

(** [layout], lines 137-156. *)
Definition layout (layout : option Layout) (shrink_factor : float)
    (iterations : Z) (scale : value) (seed : option Z) (self : BokehGraph)
  : result BokehGraph :=
  let self := set_edges None (set_nodes None self) in
  if falsy layout && negb (truthy (bipartite self)) then
    k <- spring_k (graph self) shrink_factor ;;
    pos <- nx_spring_layout E (graph self) k iterations scale seed ;;
    Ok (set_layout (Some pos) self)
  else if falsy layout && truthy (bipartite self) then
    top <- side_data 1 (nodes_data (graph self)) ;;
    pos <- nx_bipartite_layout E (graph self) top.*1 ;;
    Ok (set_layout (Some pos) self)
  else
    Ok (set_layout layout self).

(** [self.layout()] with the defaults of its signature. *)
Definition layout_default (self : BokehGraph) : result BokehGraph :=
  layout None 0.8%float 50 (VInt 1) None self.

(** [if not self._layout: self.layout()], then the dictionary itself. *)
Definition ensure_layout (self : BokehGraph) : result (Layout * BokehGraph) :=
  self <- (if falsy (_layout self) then layout_default self else Ok self) ;;
  match _layout self with
  | Some pos => Ok (pos, self)
  | None => Raise TypeError
  end.

(** [gen_edge_coordinates], lines 112-126. *)
Definition gen_edge_coordinates (self : BokehGraph)
  : result (edges_coord * BokehGraph) :=
  p <- ensure_layout self ;;
  let pos := p.1 in
  let self := p.2 in
  segs <- comprehension
            (λ edge : node * node,
               from_node <- getitem pos edge.1 ;;
               to_node <- getitem pos edge.2 ;;
               Ok (from_node, to_node))
            (edges (graph self)) ;;
  Ok ({| xs := (λ s : (float * float) * (float * float),
                  VList [VFloat s.1.1; VFloat s.2.1]) <$> segs;
         ys := (λ s : (float * float) * (float * float),
                  VList [VFloat s.1.2; VFloat s.2.2]) <$> segs |},
      self).

(** [gen_node_coordinates], lines 128-135. *)
Definition gen_node_coordinates (self : BokehGraph)
  : result (list node_coord * BokehGraph) :=
  p <- ensure_layout self ;;
  let pos := p.1 in
  let self := p.2 in
  nc <- unpack_zip_star pos ;;
  Ok ((λ z : node * (float * float),
         {| name := z.1; x := z.2.1; y := z.2.2 |}) <$> zip nc.1 nc.2,
      self).

(** [prepare_figure], lines 158-169. *)
Definition prepare_figure (self : BokehGraph) : Figure :=
  {| fig_width := width self; fig_height := height self;
     fig_tools := ["box_zoom"; "reset"; "wheel_zoom"; "pan"];
     renderers := []; hover_tools := [] |}.

(** The loop of lines 196-199: one column per catalog attribute, every
    edge's [data[attr]] in edge order. *)
Definition edge_attr_columns (g : Graph) (attrs : list string)
    (t : gmap string (list value)) : result (gmap string (list value)) :=
  for_each
    (λ attr t,
       col <- comprehension
                (λ e : node * node * gmap string value, getattr e.2 attr)
                (edges_data g) ;;
       Ok (<[attr := col]> t))
    attrs t.

(** Lines 188-194: the identity columns, skipped when unpacking the empty
    [zip] raises [ValueError]. *)
Definition edge_identity_columns (g : Graph) (t : gmap string (list value))
  : result (gmap string (list value)) :=
  match unpack_zip_star (edges g) with
  | Ok uv => Ok (<["_v" := VInt <$> uv.2]> (<["_u" := VInt <$> uv.1]> t))
  | Raise ValueError => Ok t
  | Raise e => Raise e
  end.

(** Lines 297-304 (and 306-313, 202-209): the table and the colour key. *)
Definition resolve_color (color palette : string) (max_colors : Z)
    (attrs : list string) (t : gmap string (list value))
  : result (gmap string (list value) * string) :=
  if bool_decide (color ∈ attrs) then
    vals <- table_getitem t color ;;
    cm <- colormap_map E palette max_colors vals ;;
    Ok (<["_colormap" := cm]> t, "_colormap")
  else Ok (t, color).

(** Lines 211-219: the alpha key, always through the ["numeric"] map. *)
Definition resolve_alpha (edge_alpha : value) (max_colors : Z)
    (attrs : list string) (t : gmap string (list value))
  : result (gmap string (list value) * value) :=
  match edge_alpha with
  | VStr a =>
      if bool_decide (a ∈ attrs) then
        vals <- table_getitem t a ;;
        cm <- colormap_map E "numeric" max_colors vals ;;
        Ok (<["_edge_alpha" := cm]> t, VStr "_edge_alpha")
      else Ok (t, edge_alpha)
  | _ => Ok (t, edge_alpha)
  end.

(** Lines 233-241. *)
Definition edge_hover_tool (self : BokehGraph) (edges_r : renderer)
    (figure : Figure) : result Figure :=
  if hover_edges self then
    match _edge_tooltips self with
    | Some tips =>
        Ok (add_tools {| tooltips := tips;
                         formatters := printf_formatter tips;
                         hover_renderers := [edges_r];
                         placement := ("line_policy", "interp") |} figure)
    | None => Raise AttributeError
    end
  else Ok figure.

(** [_render_edges], lines 171-243.  [self.edge_properties] is stored once
    the table is complete; a raise in between leaves no state to observe
    here. *)
Definition _render_edges (figure : Figure) (edge_color edge_palette : string)
    (edge_size edge_alpha : value) (max_colors : Z) (self : BokehGraph)
  : result (Figure * BokehGraph) :=
  p <- match _edges self with
       | Some e => Ok (e, self)
       | None =>
           r <- gen_edge_coordinates self ;;
           Ok (r.1, set_edges (Some r.1) r.2)
       end ;;
  let e := p.1 in
  let self := p.2 in
  let props : gmap string (list value) := <["ys" := ys e]> (<["xs" := xs e]> ∅) in
  props <- edge_identity_columns (graph self) props ;;
  props <- edge_attr_columns (graph self) (edge_attributes self) props ;;
  pc <- resolve_color edge_color edge_palette max_colors
          (edge_attributes self) props ;;
  let props := pc.1 in
  let color := pc.2 in
  pa <- resolve_alpha edge_alpha max_colors (edge_attributes self) props ;;
  let props := pa.1 in
  let alpha := pa.2 in
  let self := set_edge_properties (Some props) self in
  let edges_r := MultiLine color props alpha edge_size in
  let figure := add_renderer edges_r figure in
  figure <- edge_hover_tool self edges_r figure ;;
  Ok (figure, self).

(** [dict(xs=[], ys=[], names=[])] and the three appends of lines 267-269. *)
Definition empty_partition : gmap string (list value) :=
  <["names" := []]> (<["ys" := []]> (<["xs" := []]> ∅)).

Definition append_node (nd : node_coord) (t : gmap string (list value))
  : gmap string (list value) :=
  append_to "names" (VInt (name nd))
    (append_to "ys" (VFloat (y nd)) (append_to "xs" (VFloat (x nd)) t)).

(** The loop of lines 262-269: a node goes to the side-0 table when its name
    is in [nodes_lv0], to the side-1 table otherwise. *)
Definition partition_nodes (nodes_lv0 : list node) (coords : list node_coord)
  : gmap string (list value) * gmap string (list value) :=
  foldl
    (λ (acc : gmap string (list value) * gmap string (list value)) nd,
       if bool_decide (name nd ∈ nodes_lv0)
       then (append_node nd acc.1, acc.2)
       else (acc.1, append_node nd acc.2))
    (empty_partition, empty_partition) coords.

(** Lines 271-278: the single table of a graph that is not bipartite. *)
Definition single_table (coords : list node_coord) : gmap string (list value) :=
  <["_node" := VInt <$> (name <$> coords)]>
    (<["ys" := VFloat <$> (y <$> coords)]>
       (<["xs" := VFloat <$> (x <$> coords)]> ∅)).

(** The loop of lines 283-288 (and 290-295): with hover disabled only the
    attribute named by [node_color] gets a column; a column is
    [nodes[n][attr]] for [n] in iteration order of [members]. *)
Definition node_attr_columns (g : Graph) (hover_nodes : bool)
    (node_color : string) (attrs : list string) (members : list node)
    (t : gmap string (list value)) : result (gmap string (list value)) :=
  for_each
    (λ attr t,
       if negb hover_nodes && negb (bool_decide (attr = node_color)) then Ok t
       else
         col <- comprehension (λ n, node_attr g n attr) members ;;
         Ok (<[attr := col]> t))
    attrs t.

(** Lines 254-255: [if not self._nodes: self._nodes = self.gen_node_coordinates()]. *)
Definition node_coordinates (self : BokehGraph)
  : result (list node_coord * BokehGraph) :=
  if falsy (_nodes self) then
    r <- gen_node_coordinates self ;;
    Ok (r.1, set_nodes (Some r.1) r.2)
  else Ok (default [] (_nodes self), self).

(** Lines 257-278: the members and the coordinate columns of the side-0
    table and, in a bipartite graph, of the side-1 table.  The first set of
    [nx.bipartite.sets] is taken as side 1, the second as side 0. *)
Definition node_tables (self : BokehGraph) (coords : list node_coord)
  : result (list node * gmap string (list value)
            * option (list node * gmap string (list value))) :=
  if truthy (bipartite self) then
    sets <- nx_bipartite_sets E (graph self) ;;
    let nodes_lv1 := sets.1 in
    let nodes_lv0 := sets.2 in
    let tables := partition_nodes nodes_lv0 coords in
    Ok (nodes_lv0, tables.1, Some (nodes_lv1, tables.2))
  else
    Ok (name <$> coords, single_table coords, None).

(** Lines 289-295: the attribute columns of the side-1 table. *)
Definition side1_attr_columns (self : BokehGraph) (node_color : string)
    (side1 : option (list node * gmap string (list value)))
  : result (option (gmap string (list value))) :=
  match side1 with
  | Some (nodes_lv1, lv1) =>
      match node_attributes_lv1 self with
      | Some attrs1 =>
          t <- node_attr_columns (graph self) (hover_nodes self) node_color
                 attrs1 nodes_lv1 lv1 ;;
          Ok (Some t)
      | None => Raise AttributeError
      end
  | None => Ok None
  end.

(** Lines 305-313: in a bipartite graph the side-1 block assigns the local
    [color] again, whatever the side-0 block had assigned. *)
Definition side1_color (self : BokehGraph) (node_color node_palette : string)
    (max_colors : Z) (color : string) (lv1 : option (gmap string (list value)))
  : result (option (gmap string (list value)) * string) :=
  match lv1 with
  | Some t =>
      match node_attributes_lv1 self with
      | Some attrs1 =>
          r <- resolve_color node_color node_palette max_colors attrs1 t ;;
          Ok (Some r.1, r.2)
      | None => Raise AttributeError
      end
  | None => Ok (None, color)
  end.

(** Lines 316-338: both glyphs are drawn with the final value of [color]. *)
Definition node_glyphs (color : string) (node_alpha node_size : value)
    (lv0 : gmap string (list value)) (lv1 : option (gmap string (list value)))
  : renderer * option renderer :=
  (Scatter Circle color color lv0 node_alpha node_size,
   (λ t, Scatter Square color color t node_alpha node_size) <$> lv1).

(** Lines 340-357. *)
Definition node_hover_tools (self : BokehGraph) (glyph_lv0 : renderer)
    (glyph_lv1 : option renderer) (figure : Figure) : result Figure :=
  if hover_nodes self then
    match _node_tooltips_lv0 self with
    | Some tips0 =>
        let figure :=
          add_tools {| tooltips := tips0;
                       formatters := printf_formatter tips0;
                       hover_renderers := [glyph_lv0];
                       placement := ("attachment", "vertical") |} figure in
        match glyph_lv1 with
        | Some r =>
            match _node_tooltips_lv1 self with
            | Some tips1 =>
                Ok (add_tools {| tooltips := tips1;
                                 formatters := printf_formatter tips1;
                                 hover_renderers := [r];
                                 placement := ("attachment", "vertical") |}
                      figure)
            | None => Raise AttributeError
            end
        | None => Ok figure
        end
    | None => Raise AttributeError
    end
  else Ok figure.

(** [_render_nodes], lines 245-359.  The tables are stored in the instance
    once complete; a raise in between leaves no state to observe here. *)
Definition _render_nodes (figure : Figure) (node_alpha node_size : value)
    (node_color node_palette : string) (max_colors : Z) (self : BokehGraph)
  : result (Figure * BokehGraph) :=
  p <- node_coordinates self ;;
  let coords := p.1 in
  let self := p.2 in
  parts <- node_tables self coords ;;
  let nodes_lv0 := parts.1.1 in
  (* 283-288 *)
  lv0 <- node_attr_columns (graph self) (hover_nodes self) node_color
           (node_attributes_lv0 self) nodes_lv0 parts.1.2 ;;
  lv1 <- side1_attr_columns self node_color parts.2 ;;
  (* 297-304 *)
  r0 <- resolve_color node_color node_palette max_colors
          (node_attributes_lv0 self) lv0 ;;
  r1 <- side1_color self node_color node_palette max_colors r0.2 lv1 ;;
  let lv0 := r0.1 in
  let lv1 := r1.1 in
  let color := r1.2 in
  let self := set_node_properties_lv0 (Some lv0) self in
  let self := match lv1 with
              | Some t => set_node_properties_lv1 (Some t) self
              | None => self
              end in
  let glyphs := node_glyphs color node_alpha node_size lv0 lv1 in
  let figure := add_renderer glyphs.1 figure in
  let figure := match glyphs.2 with
                | Some r => add_renderer r figure
                | None => figure
                end in
  figure <- node_hover_tools self glyphs.1 glyphs.2 figure ;;
  Ok (figure, self).

(** [render], lines 361-393. *)
Definition render (node_color node_palette : string) (node_size node_alpha : value)
    (edge_color edge_palette : string) (edge_size edge_alpha : value)
    (max_colors : Z) (self : BokehGraph) : result (Figure * BokehGraph) :=
  let figure := prepare_figure self in
  r <- _render_edges figure edge_color edge_palette edge_size edge_alpha
         max_colors self ;;
  _render_nodes r.1 node_alpha node_size node_color node_palette max_colors r.2.

(** [draw], lines 395-418; the figure handed to [show] is the result. *)
Definition draw (node_color node_palette : string) (node_size node_alpha : value)
    (edge_color edge_palette : string) (edge_alpha edge_size : value)
    (max_colors : Z) (self : BokehGraph) : result (Figure * BokehGraph) :=
  render node_color node_palette node_size node_alpha
    edge_color edge_palette edge_size edge_alpha max_colors self.

(** [draw()] with the defaults of its signature. *)
Definition draw_default (self : BokehGraph) : result (Figure * BokehGraph) :=
  draw "firebrick" "Category20" (VInt 9) (VFloat 0.7)
    "navy" "viridis" (VFloat 0.3) (VInt 1) (-1) self.

End Methods.

(** ** Two-colourings *)

(** A graph is two-colourable when its nodes can be given one of two colours
    so that no edge joins two nodes of the same colour. *)
Definition two_colorable (g : Graph) : Prop :=
  ∃ c : node → bool, ∀ u v, (u, v) ∈ edges g → c u ≠ c v.

(** ** Reference collaborators

    Executable stand-ins used to run the methods on concrete graphs. *)
Module Ref.

(** Every assignment of a colour to the listed nodes. *)
Fixpoint colorings (ns : list node) : list (list (node * bool)) :=
  match ns with
  | [] => [[]]
  | n :: ns' => c ← colorings ns'; [(n, true) :: c; (n, false) :: c]
  end.

Definition color_of (c : list (node * bool)) (n : node) : bool :=
  match getitem c n with
  | Ok b => b
  | Raise _ => false
  end.

Definition proper (es : list (node * node)) (c : node → bool) : bool :=
  forallb (λ e : node * node, negb (eqb (c e.1) (c e.2))) es.

(** [nx.is_bipartite]: whether a proper two-colouring exists, by trying all
    colourings of the edge endpoints. *)
Definition is_bipartite (g : Graph) : bool :=
  existsb (λ c, proper (edges g) (color_of c))
    (colorings ((edges g).*1 ++ (edges g).*2)).

(** The neighbours of [v]. *)
Definition neighbors (g : Graph) (v : node) : list node :=
  omap (λ e : node * node,
          if decide (e.1 = v) then Some e.2
          else if decide (e.2 = v) then Some e.1 else None)
       (edges g).

(** The colouring loop of [nx.bipartite.color] from one start node: the
    stack [queue] is popped at its end, an uncoloured neighbour takes the
    opposite colour, a neighbour of the same colour is an error. *)
Fixpoint color_loop (fuel : nat) (g : Graph) (queue : list node)
    (color : list (node * Z)) : result (list (node * Z)) :=
  match fuel with
  | O => Raise NetworkXError
  | S fuel' =>
      match reverse queue with
      | [] => Ok color
      | v :: rest =>
          cv <- getitem color v ;;
          st <- for_each
                  (λ w (st : list node * list (node * Z)),
                     match getitem st.2 w with
                     | Ok cw =>
                         if Z.eqb cw cv then Raise NetworkXError else Ok st
                     | Raise _ => Ok (st.1 ++ [w], st.2 ++ [(w, 1 - cv)])
                     end)
                  (neighbors g v) (reverse rest, color) ;;
          color_loop fuel' g st.1 st.2
      end
  end.

Definition has_color (color : list (node * Z)) (c : Z) (m : node) : bool :=
  match getitem color m with
  | Ok c' => Z.eqb c' c
  | Raise _ => false
  end.

(** Increasing order: the iteration order of a small CPython [set] of small
    non-negative integers. *)
Definition set_order (ns : list node) : list node := merge_sort Z.le ns.

(** [nx.bipartite.sets]: an error on a graph that is not connected,
    otherwise the nodes coloured 1 (the first node's colour) and the nodes
    coloured 0. *)
Definition bipartite_sets (g : Graph) : result (list node * list node) :=
  match (nodes_data g).*1 with
  | [] => Raise NetworkXError
  | n :: _ =>
      color <- color_loop (S (length (nodes_data g))) g [n] [(n, 1)] ;;
      if forallb (λ m, bool_decide (m ∈ color.*1)) (nodes_data g).*1 then
        Ok (set_order (filter (λ m, has_color color 1 m) (nodes_data g).*1),
            set_order (filter (λ m, has_color color 0 m) (nodes_data g).*1))
      else Raise NetworkXError
  end.

Definition float_of_nat (i : nat) : float :=
  PrimFloat.of_uint63 (Uint63.of_Z (Z.of_nat i)).

(** [nx.spring_layout]: one position per node, in node order; a single node
    sits at the centre.  The positions of larger graphs stand in for the
    solver's. *)
Definition spring_layout (g : Graph) (k : float) (iterations : Z)
    (scale : value) (seed : option Z) : result Layout :=
  Ok (imap (λ i n, (n, (float_of_nat i, 0%float))) (nodes_data g).*1).

(** [nx.bipartite_layout]: the [top] nodes first, then the other nodes in
    node order, each group in a column of its own. *)
Definition bipartite_layout (g : Graph) (top : list node) : result Layout :=
  let bottom := filter (λ n, n ∉ top) (nodes_data g).*1 in
  Ok (imap (λ i n, (n, (0%float, float_of_nat i))) top
      ++ imap (λ i n, (n, (1%float, float_of_nat i))) bottom).

(** Modelled from the spec: the module [colormap] with
    [BokehGraphColorMap.map] is not among the sources.  Section 4.1 gives it
    one colour per input value, equal values getting equal colours, and a
    failure on an empty value sequence; every value gets the same colour
    token here. *)
Definition colormap (palette : string) (max_colors : Z) (values : list value)
  : result (list value) :=
  match values with
  | [] => Raise ColorMapError
  | _ :: _ => Ok ((λ _, VStr "#1f77b4") <$> values)
  end.

Definition collaborators : Collaborators :=
  {| nx_is_bipartite := is_bipartite;
     nx_bipartite_sets := bipartite_sets;
     nx_spring_layout := spring_layout;
     nx_bipartite_layout := bipartite_layout;
     colormap_map := colormap |}.

End Ref.

(** ** Example graphs *)

Definition attrs_of (l : list (string * value)) : gmap string value :=
  list_to_map l.

(** One edge; only the side-0 node carries the attribute ["a"]. *)
Definition graph_one_sided_attr : Graph :=
  {| nodes_data := [(0, attrs_of [("bipartite", VInt 1)]);
                    (1, attrs_of [("bipartite", VInt 0); ("a", VInt 5)])];
     edges_data := [(0, 1, ∅)] |}.

(** A star: node 0 on side 1, nodes 1 and 2 on side 0, each with a weight. *)
Definition graph_star : Graph :=
  {| nodes_data := [(0, attrs_of [("bipartite", VInt 1); ("w", VInt 10)]);
                    (1, attrs_of [("bipartite", VInt 0); ("w", VInt 20)]);
                    (2, attrs_of [("bipartite", VInt 0); ("w", VInt 30)])];
     edges_data := [(0, 1, ∅); (0, 2, ∅)] |}.

(** The graph without nodes. *)
Definition empty_graph : Graph := {| nodes_data := []; edges_data := [] |}.

(** One node, no edge; the node carries an attribute named like the
    synthetic colour column. *)
Definition graph_colormap_attr : Graph :=
  {| nodes_data := [(0, attrs_of [("_colormap", VInt 3)])];
     edges_data := [] |}.

(** One edge; both nodes carry an attribute named like the identity column
    of the single-table case. *)
Definition graph_node_attr : Graph :=
  {| nodes_data := [(0, attrs_of [("bipartite", VInt 1); ("_node", VInt 7)]);
                    (1, attrs_of [("bipartite", VInt 0); ("_node", VInt 8)])];
     edges_data := [(0, 1, ∅)] |}.

(** A triangle with the same attributes on every node and on every edge. *)
Definition graph_triangle : Graph :=
  {| nodes_data := [(0, attrs_of [("a", VInt 1)]);
                    (1, attrs_of [("a", VInt 2)]);
                    (2, attrs_of [("a", VInt 3)])];
     edges_data := [(0, 1, attrs_of [("w", VInt 1)]);
                    (1, 2, attrs_of [("w", VInt 2)]);
                    (0, 2, attrs_of [("w", VInt 3)])] |}.

(** Two nodes, no edge, the same attribute on both. *)
Definition graph_isolated : Graph :=
  {| nodes_data := [(0, attrs_of [("a", VInt 1)]);
                    (1, attrs_of [("a", VInt 2)])];
     edges_data := [] |}.

(** Two nodes, no edge; only node 0 carries the attribute. *)
Definition graph_isolated_uneven : Graph :=
  {| nodes_data := [(0, attrs_of [("a", VInt 1)]); (1, ∅)];
     edges_data := [] |}.

(** A triangle whose attributes differ from node to node and from edge to
    edge: only node 0 has ["a"], only the edge (0, 1) has ["w"]. *)
Definition graph_uneven : Graph :=
  {| nodes_data := [(0, attrs_of [("a", VInt 1)]); (1, ∅); (2, ∅)];
     edges_data := [(0, 1, attrs_of [("w", VInt 1)]); (1, 2, ∅); (0, 2, ∅)] |}.

(** ** Notions used in the statements *)

(** Both attribute loops have one shape: skip the attribute, or compute its
    column and store it under the attribute's name. *)
Definition loop_body (skip : string → bool) (mk : string → result (list value))
    (attr : string) (t : gmap string (list value))
  : result (gmap string (list value)) :=
  if skip attr then Ok t else col <- mk attr ;; Ok (<[attr := col]> t).

(** Whether the loop of lines 283-288 gives [attr] a column. *)
Definition materialised (hover : bool) (color attr : string) : Prop :=
  hover = true ∨ attr = color.

(** The fields fixed by [__init__]. *)
Definition config (s : BokehGraph) :=
  (graph s, bipartite s, hover_nodes s, hover_edges s,
   node_attributes_lv0 s, node_attributes_lv1 s,
   _node_tooltips_lv0 s, _node_tooltips_lv1 s,
   edge_attributes s, _edge_tooltips s,
   (width s, height s, inline s)).

(** The attributes a loop gives a column to. *)
Definition kept (skip : string → bool) (attrs : list string) : gset string :=
  list_to_set (filter (λ a, skip a = false) attrs).

(** The columns a node table starts with. *)
Definition base_columns (bip : Z) : gset string :=
  if truthy bip then {["xs"; "ys"; "names"]} else {["xs"; "ys"; "_node"]}.

(** The columns of a table after the attribute loop and the colour block. *)
Definition node_columns (base : gset string) (hover : bool) (color : string)
    (attrs : list string) : gset string :=
  base
  ∪ kept (λ attr, negb hover && negb (bool_decide (attr = color))) attrs
  ∪ (if decide (color ∈ attrs) then {["_colormap"]} else ∅).

(** The colour key both glyphs are drawn with. *)
Definition final_color (s : BokehGraph) (color : string) : string :=
  if decide (color ∈ (if truthy (bipartite s)
                      then default [] (node_attributes_lv1 s)
                      else node_attributes_lv0 s))
  then "_colormap" else color.

(** The hover tools of lines 340-357. *)
Definition hover_tool_for (tips : list (string * string)) (r : renderer)
  : HoverTool :=
  {| tooltips := tips; formatters := printf_formatter tips;
     hover_renderers := [r]; placement := ("attachment", "vertical") |}.

Definition node_tools (s : BokehGraph) (g0 : renderer) (g1 : option renderer)
  : list HoverTool :=
  if hover_nodes s then
    match _node_tooltips_lv0 s, g1, _node_tooltips_lv1 s with
    | Some tips0, Some r, Some tips1 =>
        [hover_tool_for tips0 g0; hover_tool_for tips1 r]
    | Some tips0, _, _ => [hover_tool_for tips0 g0]
    | None, _, _ => []
    end
  else [].

Definition rmap {A B} (f : A → B) (r : result A) : result B :=
  a <- r ;; Ok (f a).

(** The instance [__init__] would have built with another [hover_edges]. *)
Definition with_hover_edges (he : bool) (s : BokehGraph) : BokehGraph :=
  {| graph := graph s; width := width s; height := height s;
     hover_nodes := hover_nodes s; hover_edges := he;
     inline := inline s; bipartite := bipartite s;
     node_attributes_lv0 := node_attributes_lv0 s;
     node_attributes_lv1 := node_attributes_lv1 s;
     _node_tooltips_lv0 := _node_tooltips_lv0 s;
     _node_tooltips_lv1 := _node_tooltips_lv1 s;
     edge_attributes := edge_attributes s;
     _edge_tooltips :=
       if he then Some (edge_tooltips (edge_attributes s)) else None;
     _layout := _layout s; _nodes := _nodes s; _edges := _edges s;
     node_properties_lv0 := node_properties_lv0 s;
     node_properties_lv1 := node_properties_lv1 s;
     edge_properties := edge_properties s |}.

(** The table a glyph reads its columns from. *)
Definition source_of (r : renderer) : gmap string (list value) :=
  match r with
  | MultiLine _ source _ _ => source
  | Scatter _ _ _ source _ _ => source
  end.

(** The positions passed to [layout] in the example below: node 2 is listed
    before node 1. *)
Definition star_positions : Layout :=
  [(0, (0%float, 0%float)); (2, (1%float, 0%float)); (1, (1%float, 1%float))].

(** The fields the render methods write. *)
Definition tables (s : BokehGraph) :=
  (node_properties_lv0 s, node_properties_lv1 s, edge_properties s).

(** Every column other than the two colour map outputs has [n] rows. *)
Definition own_rows (n : nat) (t : gmap string (list value)) : Prop :=
  ∀ key col, t !! key = Some col → key ≠ "_colormap" → key ≠ "_edge_alpha" →
             length col = n.

(** Every column other than the colour map output has [n] rows. *)
Definition node_rows (n : nat) (t : gmap string (list value)) : Prop :=
  ∀ key col, t !! key = Some col → key ≠ "_colormap" → length col = n.

(** The three coordinate and identity columns of a partition table for the
    listed entries. *)
Definition partition_table (l : list node_coord) : gmap string (list value) :=
  <["names" := VInt <$> (name <$> l)]>
    (<["ys" := VFloat <$> (y <$> l)]> (<["xs" := VFloat <$> (x <$> l)]> ∅)).

(** The part of the figure [prepare_figure] sets. *)
Definition chrome (fig : Figure) := (fig_width fig, fig_height fig, fig_tools fig).

(** The state once the node tables are stored (lines 259-260, 274, and the
    columns added to them). *)
Definition with_node_tables (t0 : gmap string (list value))
    (lv1 : option (gmap string (list value))) (s : BokehGraph) : BokehGraph :=
  match lv1 with
  | Some t => set_node_properties_lv1 (Some t) (set_node_properties_lv0 (Some t0) s)
  | None => set_node_properties_lv0 (Some t0) s
  end.

(** The value of a computation that returned. *)
Definition value_of {A} `{Inhabited A} (r : result A) : A :=
  match r with
  | Ok a => a
  | Raise _ => inhabitant
  end.

Global Instance float_inhabited : Inhabited float := populate 0%float.

Global Instance Figure_inhabited : Inhabited Figure :=
  populate {| fig_width := 0; fig_height := 0; fig_tools := [];
              renderers := []; hover_tools := [] |}.

Global Instance BokehGraph_inhabited : Inhabited BokehGraph :=
  populate {| graph := empty_graph; width := 0; height := 0;
              hover_nodes := false; hover_edges := false; inline := false;
              bipartite := 0;
              node_attributes_lv0 := []; node_attributes_lv1 := None;
              _node_tooltips_lv0 := None; _node_tooltips_lv1 := None;
              edge_attributes := []; _edge_tooltips := None;
              _layout := None; _nodes := None; _edges := None;
              node_properties_lv0 := None; node_properties_lv1 := None;
              edge_properties := None |}.

(** Whether a computation returned. *)
Definition is_ok {A} (r : result A) : bool :=
  match r with
  | Ok _ => true
  | Raise _ => false
  end.

Lemma Ok_value_of {A} `{Inhabited A} (r : result A) :
  is_ok r = true → r = Ok (value_of r).
Proof. destruct r; [reflexivity | discriminate]. Qed.

Lemma Ok_value_of_pair {A B} `{Inhabited A, Inhabited B} (r : result (A * B)) :
  is_ok r = true → r = Ok ((value_of r).1, (value_of r).2).
Proof. destruct r as [[a b]|]; [reflexivity | discriminate]. Qed.

(** Closes an equation between closed terms: the kernel evaluates both sides
    when the proof is closed. *)
Ltac run :=
  match goal with
  | |- _ = ?r => vm_cast_no_check (@eq_refl _ r)
  end.

(** Closes [r = Ok (value_of r)], with the value as a pair or not, by
    evaluating whether [r] returned. *)
Ltac returned :=
  lazymatch goal with
  | |- ?r = Ok (_, _) =>
      refine (Ok_value_of_pair r _); vm_cast_no_check (@eq_refl bool true)
  | |- ?r = Ok _ =>
      refine (Ok_value_of r _); vm_cast_no_check (@eq_refl bool true)
  end.

(** Closes a decidable closed proposition the same way. *)
Ltac decide_it := apply (bool_decide_unpack _); vm_cast_no_check I.

(** ** The reference two-colourability test is correct *)

Module RefFacts.
Import Ref.

Lemma colorings_complete (c : node → bool) (ns : list node) :
  ((λ n, (n, c n)) <$> ns) ∈ colorings ns.
Proof.
  induction ns as [|n ns IH]; simpl.
  - apply list_elem_of_singleton. reflexivity.
  - apply list_elem_of_bind. exists ((λ n, (n, c n)) <$> ns). split; [|exact IH].
    destruct (c n); [left | right; left].
Qed.

Lemma color_of_tabulated (c : node → bool) (ns : list node) (n : node) :
  n ∈ ns → color_of ((λ n, (n, c n)) <$> ns) n = c n.
Proof.
  unfold color_of. induction ns as [|m ns IH]; intros Hin.
  - inversion Hin.
  - simpl. destruct (decide (m = n)) as [->|Hne]; [reflexivity|].
    apply IH. apply elem_of_cons in Hin as [->|Hin]; [congruence | exact Hin].
Qed.

Lemma proper_spec (es : list (node * node)) (c : node → bool) :
  proper es c = true ↔ ∀ u v, (u, v) ∈ es → c u ≠ c v.
Proof.
  unfold proper. rewrite forallb_forall. split.
  - intros H u v Huv Heq. apply list_elem_of_In, H in Huv. simpl in Huv.
    rewrite Heq in Huv. destruct (c v); discriminate.
  - intros H [u v] Hin. apply list_elem_of_In, H in Hin. simpl.
    destruct (c u), (c v); try reflexivity; congruence.
Qed.

Lemma proper_ext (es : list (node * node)) (c c' : node → bool) :
  (∀ n, n ∈ es.*1 ++ es.*2 → c n = c' n) → proper es c = proper es c'.
Proof.
  unfold proper. induction es as [|[u v] es IH]; intros H; [reflexivity|].
  assert (Hin : ∀ n, n = u ∨ n = v ∨ n ∈ es.*1 ++ es.*2 → c n = c' n).
  { intros n Hn. apply H. rewrite !fmap_cons. cbn [fst snd].
    rewrite elem_of_app, !elem_of_cons. rewrite elem_of_app in Hn. tauto. }
  simpl. rewrite (Hin u), (Hin v), IH; auto.
Qed.

Lemma is_bipartite_spec (g : Graph) :
  is_bipartite g = true ↔ two_colorable g.
Proof.
  unfold is_bipartite, two_colorable. rewrite existsb_exists. split.
  - intros (c & _ & Hc). exists (color_of c). apply proper_spec, Hc.
  - intros (c & Hc).
    exists ((λ n, (n, c n)) <$> ((edges g).*1 ++ (edges g).*2)). split.
    + apply list_elem_of_In, colorings_complete.
    + rewrite (proper_ext _ _ c); [apply proper_spec, Hc|].
      intros n Hn. apply color_of_tabulated, Hn.
Qed.

End RefFacts.

(** ** Facts about the exception monad, comprehensions and loops *)

Lemma rbind_Ok {A B} (r : result A) (k : A → result B) (b : B) :
  rbind r k = Ok b → ∃ a, r = Ok a ∧ k a = Ok b.
Proof. destruct r as [a|e]; simpl; [eauto | discriminate]. Qed.

(** Splits a successful sequence of binds into its steps. *)
Ltac ok_inv H :=
  repeat match type of H with
         | rbind ?r ?k = Ok ?b =>
             let a := fresh "a" in
             let Ha := fresh "Hstep" in
             apply rbind_Ok in H as (a & Ha & H)
         end.

Lemma comprehension_Ok {A B} (f : A → result B) (l : list A) (bs : list B) :
  comprehension f l = Ok bs → Forall2 (λ a b, f a = Ok b) l bs.
Proof.
  revert bs. induction l as [|a l IH]; intros bs H; simpl in H.
  - injection H as <-. constructor.
  - ok_inv H. injection H as <-. constructor; auto.
Qed.

Lemma comprehension_length {A B} (f : A → result B) (l : list A) (bs : list B) :
  comprehension f l = Ok bs → length bs = length l.
Proof. intros H. symmetry. eapply Forall2_length, comprehension_Ok, H. Qed.

Lemma comprehension_total {A B} (f : A → result B) (l : list A) :
  (∀ a, a ∈ l → ∃ b, f a = Ok b) → ∃ bs, comprehension f l = Ok bs.
Proof.
  induction l as [|a l IH]; intros H; simpl; [eauto|].
  destruct (H a) as [b ->]; [left|]. simpl.
  destruct IH as [bs ->]; [intros; apply H; right; assumption|].
  simpl. eauto.
Qed.

(** When every element either succeeds or raises [e], and one raises, the
    comprehension raises [e]. *)
Lemma comprehension_Raise {A B} (f : A → result B) (l : list A) (e : exn) :
  (∀ a, a ∈ l → f a = Raise e ∨ ∃ b, f a = Ok b) →
  (∃ a, a ∈ l ∧ f a = Raise e) →
  comprehension f l = Raise e.
Proof.
  induction l as [|a l IH]; intros Hall (a0 & Hin & Hr); [inversion Hin|].
  simpl. destruct (Hall a) as [->|[b Hb]]; [left|reflexivity|].
  rewrite Hb. simpl.
  apply elem_of_cons in Hin as [->|Hin]; [congruence|].
  rewrite IH; [reflexivity| |eauto].
  intros a' Ha'. apply Hall. right. exact Ha'.
Qed.

Lemma comprehension_fmap {A B} (f : A → B) (l : list A) :
  comprehension (λ a, Ok (f a)) l = Ok (f <$> l).
Proof. induction l as [|a l IH]; simpl; [|rewrite IH]; reflexivity. Qed.

Lemma comprehension_ext {A B} (f f' : A → result B) (l : list A) :
  (∀ a, a ∈ l → f a = f' a) → comprehension f l = comprehension f' l.
Proof.
  induction l as [|a l IH]; intros H; simpl; [reflexivity|].
  rewrite H, IH; [reflexivity| |left]. intros; apply H; right; assumption.
Qed.

Lemma unpack_zip_star_nil {A B} : @unpack_zip_star A B [] = Raise ValueError.
Proof. reflexivity. Qed.

Lemma unpack_zip_star_Ok {A B} (rows : list (A * B)) (p : list A * list B) :
  unpack_zip_star rows = Ok p → rows ≠ [] ∧ p = (rows.*1, rows.*2).
Proof. destruct rows; simpl; intros H; [discriminate|]. injection H as <-. auto. Qed.

(** ** Facts about catalogs *)

Lemma elem_of_sorted (s : gset string) (a : string) : a ∈ sorted s ↔ a ∈ s.
Proof.
  unfold sorted. rewrite (merge_sort_Permutation str_le (elements s)).
  apply elem_of_elements.
Qed.

Lemma elem_of_attr_keys (datas : list (gmap string value)) (a : string) :
  a ∈ attr_keys datas ↔ ∃ d, d ∈ datas ∧ is_Some (d !! a).
Proof.
  unfold attr_keys. rewrite elem_of_union_list. split.
  - intros (X & HX & Ha). apply list_elem_of_fmap in HX as (d & -> & Hd).
    exists d. split; [exact Hd|]. apply elem_of_dom, Ha.
  - intros (d & Hd & Ha). exists (dom d). split.
    + apply list_elem_of_fmap. eauto.
    + apply elem_of_dom, Ha.
Qed.

(** ** Facts about the attribute loops *)

Lemma getattr_cases (data : gmap string value) (attr : string) :
  getattr data attr = Raise KeyError ∨ ∃ v, getattr data attr = Ok v.
Proof. unfold getattr. destruct (data !! attr); eauto. Qed.

Lemma getattr_Ok (data : gmap string value) (attr : string) (v : value) :
  getattr data attr = Ok v ↔ data !! attr = Some v.
Proof.
  unfold getattr. destruct (data !! attr); split; intros H;
    try discriminate; congruence.
Qed.

Lemma getattr_Raise (data : gmap string value) (attr : string) :
  data !! attr = None → getattr data attr = Raise KeyError.
Proof. unfold getattr. intros ->. reflexivity. Qed.

Section Column_loop.

Variable skip : string → bool.
Variable mk : string → result (list value).

Lemma column_loop_Ok (attrs : list string) (t t' : gmap string (list value)) :
  for_each (loop_body skip mk) attrs t = Ok t' →
  (∀ attr, attr ∈ attrs → skip attr = false →
           ∃ col, mk attr = Ok col ∧ t' !! attr = Some col) ∧
  (∀ k, k ∉ attrs ∨ skip k = true → t' !! k = t !! k).
Proof.
  revert t. induction attrs as [|a attrs IH]; intros t H; simpl in H.
  - injection H as <-. split; [intros attr Hin; inversion Hin | reflexivity].
  - ok_inv H. destruct (IH _ H) as [IH1 IH2]. clear IH.
    unfold loop_body in Hstep. split.
    + intros attr Hin Hs. destruct (decide (attr ∈ attrs)) as [Hin'|Hnin].
      { apply IH1; assumption. }
      apply elem_of_cons in Hin as [->|Hin]; [|contradiction].
      rewrite Hs in Hstep. ok_inv Hstep. injection Hstep as <-.
      exists a1. split; [assumption|].
      rewrite IH2; [apply lookup_insert_eq | left; assumption].
    + intros k Hk. destruct (skip a) eqn:Hsa.
      * injection Hstep as <-. apply IH2.
        destruct Hk as [Hk|Hk]; [left|right; assumption].
        intros Hin. apply Hk. right. assumption.
      * ok_inv Hstep. injection Hstep as <-.
        assert (k ≠ a) as Hne.
        { intros ->. destruct Hk as [Hk|Hk]; [apply Hk; left | congruence]. }
        rewrite IH2.
        -- apply lookup_insert_ne. congruence.
        -- destruct Hk as [Hk|Hk]; [left|right; assumption].
           intros Hin. apply Hk. right. assumption.
Qed.

Lemma column_loop_total (attrs : list string) (t : gmap string (list value)) :
  (∀ attr, attr ∈ attrs → skip attr = false → ∃ col, mk attr = Ok col) →
  ∃ t', for_each (loop_body skip mk) attrs t = Ok t'.
Proof.
  revert t. induction attrs as [|a attrs IH]; intros t H; simpl; [eauto|].
  unfold loop_body at 1. destruct (skip a) eqn:Hs; simpl.
  - apply IH. intros attr Hin. apply H. right. assumption.
  - destruct (H a) as [col ->]; [left|assumption|]. simpl.
    apply IH. intros attr Hin. apply H. right. assumption.
Qed.

Lemma column_loop_Raise (attrs : list string) (t : gmap string (list value))
    (e : exn) :
  (∀ attr, attr ∈ attrs → skip attr = false →
           mk attr = Raise e ∨ ∃ col, mk attr = Ok col) →
  (∃ attr, attr ∈ attrs ∧ skip attr = false ∧ mk attr = Raise e) →
  for_each (loop_body skip mk) attrs t = Raise e.
Proof.
  revert t. induction attrs as [|a attrs IH]; intros t Hall (a0 & Hin & Hs & Hr).
  - inversion Hin.
  - assert (Htail : ∀ attr, attr ∈ attrs → skip attr = false →
                            mk attr = Raise e ∨ ∃ col, mk attr = Ok col).
    { intros attr Ha. apply Hall. right. assumption. }
    simpl. unfold loop_body at 1. destruct (skip a) eqn:Hsa; simpl.
    + apply IH; [assumption|]. exists a0. split; [|auto].
      apply elem_of_cons in Hin as [->|Hin]; [congruence | assumption].
    + destruct (Hall a) as [->|[col Hcol]]; [left|assumption|reflexivity|].
      rewrite Hcol. simpl. apply IH; [assumption|]. exists a0. split; [|auto].
      apply elem_of_cons in Hin as [->|Hin]; [congruence | assumption].
Qed.

End Column_loop.

Lemma edge_attr_columns_loop (g : Graph) (attrs : list string)
    (t : gmap string (list value)) :
  edge_attr_columns g attrs t =
  for_each
    (loop_body (λ _, false)
       (λ attr, comprehension
                  (λ e : node * node * gmap string value, getattr e.2 attr)
                  (edges_data g)))
    attrs t.
Proof. reflexivity. Qed.

Lemma node_attr_columns_loop (g : Graph) (hover : bool) (color : string)
    (attrs : list string) (members : list node) (t : gmap string (list value)) :
  node_attr_columns g hover color attrs members t =
  for_each
    (loop_body (λ attr, negb hover && negb (bool_decide (attr = color)))
       (λ attr, comprehension (λ n, node_attr g n attr) members))
    attrs t.
Proof. reflexivity. Qed.

Lemma getitem_cases {V} (d : list (node * V)) (n : node) :
  getitem d n = Raise KeyError ∨ ∃ v, getitem d n = Ok v.
Proof.
  induction d as [|[m v] d IH]; simpl; [auto|].
  destruct (decide (m = n)); eauto.
Qed.

Lemma node_attr_cases (g : Graph) (n : node) (attr : string) :
  node_attr g n attr = Raise KeyError ∨ ∃ v, node_attr g n attr = Ok v.
Proof.
  unfold node_attr. destruct (getitem_cases (nodes_data g) n) as [->|[d ->]]; simpl.
  - auto.
  - apply getattr_cases.
Qed.

Lemma edge_column_cases (g : Graph) (attr : string) :
  comprehension (λ e : node * node * gmap string value, getattr e.2 attr)
    (edges_data g) = Raise KeyError
  ∨ ∃ col, comprehension (λ e : node * node * gmap string value, getattr e.2 attr)
             (edges_data g) = Ok col.
Proof.
  induction (edges_data g) as [|e l IH]; simpl; [eauto|].
  destruct (getattr_cases e.2 attr) as [->|[v ->]]; simpl; [auto|].
  destruct IH as [->|[col ->]]; simpl; eauto.
Qed.

Lemma node_column_cases (g : Graph) (attr : string) (members : list node) :
  comprehension (λ n, node_attr g n attr) members = Raise KeyError
  ∨ ∃ col, comprehension (λ n, node_attr g n attr) members = Ok col.
Proof.
  induction members as [|n l IH]; simpl; [eauto|].
  destruct (node_attr_cases g n attr) as [->|[v ->]]; simpl; [auto|].
  destruct IH as [->|[col ->]]; simpl; eauto.
Qed.

Lemma materialised_skip (hover : bool) (color attr : string) :
  negb hover && negb (bool_decide (attr = color)) = false ↔
  materialised hover color attr.
Proof.
  unfold materialised. destruct hover; simpl; [tauto|].
  rewrite negb_false_iff, bool_decide_eq_true. split; [auto | intros [?|?]; [discriminate|assumption]].
Qed.

(** ** C3: attribute columns and absent keys *)

(** C3, as stated, fails: on the triangle [graph_uneven] the catalogs are
    [["a"]] and [["w"]], node 1 has no ["a"] and the edge (1, 2) has no
    ["w"]; both attribute loops raise [KeyError], and so does [draw]. *)
Lemma absent_key_raises_KeyError :
  (∃ s, init Ref.collaborators graph_uneven 800 600 true true false = Ok s
        ∧ node_attributes_lv0 s = ["a"]
        ∧ edge_attributes s = ["w"]
        ∧ draw_default Ref.collaborators s = Raise KeyError)
  ∧ edge_attr_columns graph_uneven ["w"] ∅ = Raise KeyError
  ∧ node_attr_columns graph_uneven true "firebrick" ["a"] [0; 1; 2] ∅
    = Raise KeyError.
Proof.
  split; [|split; run].
  exists (value_of (init Ref.collaborators graph_uneven 800 600 true true false)).
  split; [returned|]. repeat (split; [run|]). run.
Qed.

(** C3, amended: the attribute loops need every key and never store a
    "not present" value.  The edge loop returns when every edge carries
    every catalog attribute, and the column of an attribute then holds
    every edge's own value, in edge order; it raises [KeyError] when some
    edge lacks a catalog attribute.  The node loop, on whatever list of
    members it is run, returns when every member is a node of the graph
    that carries every attribute the loop materialises, and the column of
    such an attribute then holds [nodes[n][attr]] for the members [n], in
    the order of that list; it raises [KeyError] when some member that is a
    node of the graph lacks an attribute the loop materialises. *)
Theorem attr_columns_need_every_key (g : Graph) (t : gmap string (list value)) :
  (∀ attrs,
     (∀ attr e, attr ∈ attrs → e ∈ edges_data g → is_Some (e.2 !! attr)) →
     ∃ t', edge_attr_columns g attrs t = Ok t'
           ∧ ∀ attr, attr ∈ attrs →
               ∃ col, t' !! attr = Some col
                      ∧ Forall2 (λ e v, e.2 !! attr = Some v) (edges_data g) col)
  ∧ (∀ attrs attr e,
       attr ∈ attrs → e ∈ edges_data g → e.2 !! attr = None →
       edge_attr_columns g attrs t = Raise KeyError)
  ∧ (∀ hover color attrs members,
       (∀ attr n, attr ∈ attrs → materialised hover color attr → n ∈ members →
                  ∃ data, getitem (nodes_data g) n = Ok data
                          ∧ is_Some (data !! attr)) →
       ∃ t', node_attr_columns g hover color attrs members t = Ok t'
             ∧ ∀ attr, attr ∈ attrs → materialised hover color attr →
                 ∃ col, t' !! attr = Some col
                        ∧ Forall2 (λ n v, node_attr g n attr = Ok v) members col)
  ∧ (∀ hover color attrs members attr n data,
       attr ∈ attrs → materialised hover color attr → n ∈ members →
       getitem (nodes_data g) n = Ok data → data !! attr = None →
       node_attr_columns g hover color attrs members t = Raise KeyError).
Proof.
  split; [|split; [|split]].
  - intros attrs Hall. rewrite edge_attr_columns_loop.
    destruct (column_loop_total (λ _, false)
                (λ attr, comprehension
                           (λ e : node * node * gmap string value, getattr e.2 attr)
                           (edges_data g)) attrs t) as [t' Ht'].
    { intros attr Hin _. apply comprehension_total. intros e He.
      destruct (Hall attr e Hin He) as [v Hv]. exists v. apply getattr_Ok, Hv. }
    exists t'. split; [exact Ht'|]. intros attr Hin.
    destruct (column_loop_Ok _ _ _ _ _ Ht') as [H1 _].
    destruct (H1 attr Hin eq_refl) as (col & Hcol & Hlook).
    exists col. split; [exact Hlook|].
    apply comprehension_Ok in Hcol.
    eapply Forall2_impl; [exact Hcol|]. intros e v. apply getattr_Ok.
  - intros attrs attr e Hin He Hnone. rewrite edge_attr_columns_loop.
    apply column_loop_Raise.
    + intros a _ _. apply edge_column_cases.
    + exists attr. split; [exact Hin|]. split; [reflexivity|].
      apply comprehension_Raise.
      * intros e' _. apply getattr_cases.
      * exists e. split; [exact He|]. apply getattr_Raise, Hnone.
  - intros hover color attrs members Hall. rewrite node_attr_columns_loop.
    destruct (column_loop_total
                (λ attr, negb hover && negb (bool_decide (attr = color)))
                (λ attr, comprehension (λ n, node_attr g n attr) members)
                attrs t) as [t' Ht'].
    { intros attr Hin Hs. apply materialised_skip in Hs.
      apply comprehension_total. intros n Hn.
      destruct (Hall attr n Hin Hs Hn) as (data & Hd & [v Hv]).
      exists v. unfold node_attr. rewrite Hd. simpl. apply getattr_Ok, Hv. }
    exists t'. split; [exact Ht'|]. intros attr Hin Hm.
    destruct (column_loop_Ok _ _ _ _ _ Ht') as [H1 _].
    destruct (H1 attr Hin) as (col & Hcol & Hlook).
    { apply materialised_skip, Hm. }
    exists col. split; [exact Hlook|]. apply comprehension_Ok, Hcol.
  - intros hover color attrs members attr n data Hin Hm Hn Hd Hnone.
    rewrite node_attr_columns_loop. apply column_loop_Raise.
    + intros a _ _. apply node_column_cases.
    + exists attr. split; [exact Hin|]. split; [apply materialised_skip, Hm|].
      apply comprehension_Raise.
      * intros n' _. apply node_attr_cases.
      * exists n. split; [exact Hn|]. unfold node_attr. rewrite Hd. simpl.
        apply getattr_Raise, Hnone.
Qed.

(** C3 at [graph_triangle], whose edges all carry ["w"]. *)
Lemma attr_columns_need_every_key_witness :
  (∀ attr e, attr ∈ ["w"] → e ∈ edges_data graph_triangle →
             is_Some (e.2 !! attr))
  ∧ ∃ t', edge_attr_columns graph_triangle ["w"] ∅ = Ok t'
          ∧ ∀ attr, attr ∈ ["w"] →
              ∃ col, t' !! attr = Some col
                     ∧ Forall2 (λ e v, e.2 !! attr = Some v)
                         (edges_data graph_triangle) col.
Proof.
  assert (H : ∀ attr e, attr ∈ ["w"] → e ∈ edges_data graph_triangle →
                        is_Some (e.2 !! attr)).
  { intros attr e Ha He. apply list_elem_of_singleton in Ha as ->.
    cbn [graph_triangle edges_data] in He.
    repeat (apply elem_of_cons in He as [->|He]);
      [eexists; vm_compute; reflexivity..|].
    apply elem_of_nil in He. destruct He. }
  split; [exact H|].
  exact (proj1 (attr_columns_need_every_key graph_triangle ∅) ["w"] H).
Defined.


(** ** What the methods leave unchanged *)

Lemma layout_config E l sf it sc sd s s' :
  layout E l sf it sc sd s = Ok s' → config s' = config s.
Proof.
  unfold layout. intros H.
  destruct (falsy l && negb (truthy (bipartite (set_edges None (set_nodes None s))))).
  { ok_inv H. injection H as <-. reflexivity. }
  destruct (falsy l && truthy (bipartite (set_edges None (set_nodes None s)))).
  { ok_inv H. injection H as <-. reflexivity. }
  injection H as <-. reflexivity.
Qed.

Lemma ensure_layout_config E s pos s' :
  ensure_layout E s = Ok (pos, s') → config s' = config s ∧ _layout s' = Some pos.
Proof.
  unfold ensure_layout. intros H. ok_inv H.
  destruct (_layout a) as [pos'|] eqn:Hl; [|discriminate].
  injection H as <- <-. split; [|exact Hl].
  destruct (falsy (_layout s)).
  - eapply layout_config, Hstep.
  - injection Hstep as <-. reflexivity.
Qed.

Lemma gen_edge_coordinates_config E s e s' :
  gen_edge_coordinates E s = Ok (e, s') → config s' = config s.
Proof.
  unfold gen_edge_coordinates. intros H. ok_inv H. injection H as _ <-.
  destruct a as [pos s1]. eapply ensure_layout_config, Hstep.
Qed.

Lemma gen_node_coordinates_config E s c s' :
  gen_node_coordinates E s = Ok (c, s') → config s' = config s.
Proof.
  unfold gen_node_coordinates. intros H. ok_inv H. injection H as _ <-.
  destruct a as [pos s1]. eapply ensure_layout_config, Hstep.
Qed.

(** Reads the equalities between fields out of an equality of [config]s. *)
Ltac config_fields H :=
  unfold config in H; simplify_eq H; intros.

Tactic Notation "ok_step" hyp(H) "as" ident(x) ident(Hx) :=
  apply rbind_Ok in H as (x & Hx & H).

Lemma node_coordinates_config E s c s' :
  node_coordinates E s = Ok (c, s') → config s' = config s.
Proof.
  unfold node_coordinates. intros H. destruct (falsy (_nodes s)).
  - ok_step H as r Hr. injection H as _ <-. destruct r as [c' s1].
    apply gen_node_coordinates_config in Hr. exact Hr.
  - injection H as _ <-. reflexivity.
Qed.

(** ** The columns of the assembled tables *)

Lemma elem_of_kept (skip : string → bool) (attrs : list string) (a : string) :
  a ∈ kept skip attrs ↔ a ∈ attrs ∧ skip a = false.
Proof.
  unfold kept. rewrite elem_of_list_to_set, list_elem_of_filter. tauto.
Qed.

Lemma column_loop_dom (skip : string → bool) (mk : string → result (list value))
    (attrs : list string) (t t' : gmap string (list value)) :
  for_each (loop_body skip mk) attrs t = Ok t' →
  dom t' = dom t ∪ kept skip attrs.
Proof.
  intros H. destruct (column_loop_Ok _ _ _ _ _ H) as [H1 H2].
  apply set_eq. intros k. rewrite elem_of_union, elem_of_kept, !elem_of_dom.
  destruct (decide (k ∈ attrs)) as [Hin|Hnin].
  - destruct (skip k) eqn:Hs.
    + rewrite H2 by auto. split; [auto | intros [?|[_ ?]]; [assumption|discriminate]].
    + destruct (H1 k Hin Hs) as (col & _ & ->). split; [auto | eauto].
  - rewrite H2 by auto. split; [auto | intros [?|[? _]]; [assumption|contradiction]].
Qed.

Lemma resolve_color_Ok E color palette mc attrs t t' c :
  resolve_color E color palette mc attrs t = Ok (t', c) →
  (color ∈ attrs →
     c = "_colormap"
     ∧ ∃ vals cm, t !! color = Some vals
                  ∧ colormap_map E palette mc vals = Ok cm
                  ∧ t' = <["_colormap" := cm]> t)
  ∧ (color ∉ attrs → c = color ∧ t' = t).
Proof.
  unfold resolve_color. intros H. case_bool_decide as Hin.
  - split; [intros _ | contradiction].
    ok_step H as vals Hv. ok_step H as cm Hcm. injection H as <- <-.
    split; [reflexivity|]. exists vals, cm. repeat split; [|assumption].
    unfold table_getitem in Hv. destruct (t !! color); congruence.
  - split; [contradiction | intros _]. injection H as <- <-. auto.
Qed.

Lemma resolve_color_dom E color palette mc attrs t t' c :
  resolve_color E color palette mc attrs t = Ok (t', c) →
  dom t' = dom t ∪ (if decide (color ∈ attrs) then {["_colormap"]} else ∅).
Proof.
  intros H. apply resolve_color_Ok in H as [H1 H2]. case_decide as Hin.
  - destruct (H1 Hin) as (_ & vals & cm & _ & _ & ->).
    rewrite dom_insert_L. set_solver.
  - destruct (H2 Hin) as [_ ->]. set_solver.
Qed.

Lemma append_to_dom key v (t : gmap string (list value)) :
  dom (append_to key v t) = dom t.
Proof. unfold append_to. apply dom_alter_L. Qed.

Lemma append_node_dom nd (t : gmap string (list value)) :
  dom (append_node nd t) = dom t.
Proof. unfold append_node. rewrite !append_to_dom. reflexivity. Qed.

Lemma partition_nodes_dom (nodes_lv0 : list node) (coords : list node_coord) :
  dom (partition_nodes nodes_lv0 coords).1 = {["xs"; "ys"; "names"]}
  ∧ dom (partition_nodes nodes_lv0 coords).2 = {["xs"; "ys"; "names"]}.
Proof.
  unfold partition_nodes.
  assert (Hgen : ∀ acc : gmap string (list value) * gmap string (list value),
            let r := foldl
              (λ (acc : gmap string (list value) * gmap string (list value)) nd,
                 if bool_decide (name nd ∈ nodes_lv0)
                 then (append_node nd acc.1, acc.2)
                 else (acc.1, append_node nd acc.2)) acc coords in
            dom r.1 = dom acc.1 ∧ dom r.2 = dom acc.2).
  { induction coords as [|nd coords IH]; intros acc; simpl; [auto|].
    destruct (IH (if bool_decide (name nd ∈ nodes_lv0)
                  then (append_node nd acc.1, acc.2)
                  else (acc.1, append_node nd acc.2))) as [IH1 IH2].
    rewrite IH1, IH2. case_bool_decide; simpl; rewrite ?append_node_dom; auto. }
  destruct (Hgen (empty_partition, empty_partition)) as [-> ->]. simpl.
  unfold empty_partition. rewrite !dom_insert_L, dom_empty_L. set_solver.
Qed.

Lemma single_table_dom (coords : list node_coord) :
  dom (single_table coords) = {["xs"; "ys"; "_node"]}.
Proof.
  unfold single_table. rewrite !dom_insert_L, dom_empty_L. set_solver.
Qed.

Lemma config_eq (s1 s : BokehGraph) :
  config s1 = config s →
  graph s1 = graph s ∧ bipartite s1 = bipartite s
  ∧ hover_nodes s1 = hover_nodes s ∧ hover_edges s1 = hover_edges s
  ∧ node_attributes_lv0 s1 = node_attributes_lv0 s
  ∧ node_attributes_lv1 s1 = node_attributes_lv1 s
  ∧ _node_tooltips_lv0 s1 = _node_tooltips_lv0 s
  ∧ _node_tooltips_lv1 s1 = _node_tooltips_lv1 s
  ∧ edge_attributes s1 = edge_attributes s
  ∧ _edge_tooltips s1 = _edge_tooltips s.
Proof. unfold config. intros H. injection H. intros. repeat split; assumption. Qed.

Lemma node_hover_tools_renderers (s : BokehGraph) (g0 : renderer)
    (g1 : option renderer) (fig fig' : Figure) :
  node_hover_tools s g0 g1 fig = Ok fig' → renderers fig' = renderers fig.
Proof.
  unfold node_hover_tools. intros H.
  destruct (hover_nodes s); [|injection H as <-; reflexivity].
  destruct (_node_tooltips_lv0 s); [|discriminate].
  destruct g1; [|injection H as <-; reflexivity].
  destruct (_node_tooltips_lv1 s); [|discriminate].
  injection H as <-. reflexivity.
Qed.

Lemma resolve_color_key E color palette mc attrs t t' c :
  resolve_color E color palette mc attrs t = Ok (t', c) →
  c = if decide (color ∈ attrs) then "_colormap" else color.
Proof.
  intros H. apply resolve_color_Ok in H as [H1 H2]. case_decide as Hin.
  - apply H1, Hin.
  - apply H2, Hin.
Qed.

Lemma node_hover_tools_Ok (s : BokehGraph) (g0 : renderer)
    (g1 : option renderer) (fig fig' : Figure) :
  node_hover_tools s g0 g1 fig = Ok fig' →
  hover_tools fig' = hover_tools fig ++ node_tools s g0 g1
  ∧ (hover_nodes s = true → is_Some (_node_tooltips_lv0 s))
  ∧ (hover_nodes s = true → is_Some g1 → is_Some (_node_tooltips_lv1 s)).
Proof.
  unfold node_hover_tools, node_tools. intros H.
  destruct (hover_nodes s).
  2:{ injection H as <-. rewrite app_nil_r. repeat split; discriminate. }
  destruct (_node_tooltips_lv0 s) as [tips0|]; [|discriminate].
  destruct g1 as [r|].
  2:{ injection H as <-. repeat split; eauto. intros _ [? ?]. discriminate. }
  destruct (_node_tooltips_lv1 s) as [tips1|]; [|discriminate].
  injection H as <-. cbn. rewrite <- app_assoc. repeat split; eauto.
Qed.

(** What a successful [_render_nodes] has built: the columns of either
    table, the colour map column, the glyphs and the hover tools. *)
Lemma render_nodes_spec E fig na ns nc np mc self fig' self' :
  _render_nodes E fig na ns nc np mc self = Ok (fig', self') →
  ∃ t0 lv1,
    node_properties_lv0 self' = Some t0
    ∧ dom t0 = node_columns (base_columns (bipartite self)) (hover_nodes self)
                 nc (node_attributes_lv0 self)
    ∧ (nc ∈ node_attributes_lv0 self →
         ∃ vals cm, colormap_map E np mc vals = Ok cm
                    ∧ t0 !! "_colormap" = Some cm)
    ∧ config self' = config self
    ∧ renderers fig' =
        renderers fig
        ++ (node_glyphs (final_color self nc) na ns t0 lv1).1
           :: option_list (node_glyphs (final_color self nc) na ns t0 lv1).2
    ∧ hover_tools fig' =
        hover_tools fig
        ++ node_tools self (node_glyphs (final_color self nc) na ns t0 lv1).1
             (node_glyphs (final_color self nc) na ns t0 lv1).2
    ∧ if truthy (bipartite self) then
        ∃ attrs1 t1,
          lv1 = Some t1
          ∧ node_attributes_lv1 self = Some attrs1
          ∧ node_properties_lv1 self' = Some t1
          ∧ dom t1 = node_columns (base_columns (bipartite self))
                       (hover_nodes self) nc attrs1
      else lv1 = None.
Proof.
  unfold _render_nodes. intros H.
  ok_step H as p Hp. destruct p as [coords self1].
  pose proof (node_coordinates_config _ _ _ _ Hp) as Hc. clear Hp.
  cbn [fst snd] in H.
  ok_step H as parts Hparts. ok_step H as lv0a Hlv0.
  ok_step H as lv1a Hlv1. ok_step H as r0 Hr0. ok_step H as r1 Hr1.
  ok_step H as fig1 Hfig. injection H as <- <-.
  destruct r0 as [t0 c0], r1 as [lv1 c1]. cbn [fst snd] in *.
  pose proof (node_hover_tools_renderers _ _ _ _ _ Hfig) as Hrend.
  apply node_hover_tools_Ok in Hfig as (Htools & _).
  pose proof Hc as Hc'.
  apply config_eq in Hc as (Hg & Hb & Hhn & _ & Ha0 & Ha1 & Ht0 & Ht1 & _).
  assert (Hnt : ∀ v g0 g1,
            node_tools match lv1 with
                       | Some t => set_node_properties_lv1 (Some t)
                                     (set_node_properties_lv0 v self1)
                       | None => set_node_properties_lv0 v self1
                       end g0 g1 = node_tools self g0 g1).
  { intros v g0 g1. unfold node_tools. destruct lv1; cbn; rewrite Hhn, Ht0, Ht1;
      reflexivity. }
  rewrite Hnt in Htools. clear Hnt Ht0 Ht1.
  unfold node_tables in Hparts. unfold side1_attr_columns in Hlv1.
  unfold side1_color in Hr1.
  rewrite ?Hg, ?Hb, ?Hhn, ?Ha0, ?Ha1 in *. clear Hg Hb Hhn Ha0 Ha1.
  pose proof (resolve_color_dom _ _ _ _ _ _ _ _ Hr0) as Hd0.
  pose proof (resolve_color_key _ _ _ _ _ _ _ _ Hr0) as Hk0.
  rewrite node_attr_columns_loop in Hlv0.
  pose proof (column_loop_dom _ _ _ _ _ Hlv0) as Hd0a.
  assert (Hcm : nc ∈ node_attributes_lv0 self →
                ∃ vals cm, colormap_map E np mc vals = Ok cm
                           ∧ t0 !! "_colormap" = Some cm).
  { intros Hin. apply resolve_color_Ok in Hr0 as [Hr0 _].
    destruct (Hr0 Hin) as (_ & vals & cm & _ & Hmap & ->).
    exists vals, cm. split; [exact Hmap | apply lookup_insert_eq]. }
  exists t0, lv1. split.
  { destruct lv1; reflexivity. }
  unfold final_color, base_columns.
  destruct (truthy (bipartite self)) eqn:Hbip.
  - ok_step Hparts as sets Hsets. injection Hparts as <-. cbn [fst snd] in *.
    destruct (node_attributes_lv1 self) as [attrs1|]; [|discriminate].
    ok_step Hlv1 as t1a Ht1a. injection Hlv1 as <-.
    ok_step Hr1 as r Hr. injection Hr1 as <- <-. destruct r as [t1 c1].
    cbn [fst snd from_option id] in *.
    pose proof (resolve_color_dom _ _ _ _ _ _ _ _ Hr) as Hd1.
    pose proof (resolve_color_key _ _ _ _ _ _ _ _ Hr) as Hk1.
    rewrite node_attr_columns_loop in Ht1a.
    pose proof (column_loop_dom _ _ _ _ _ Ht1a) as Hd1a.
    destruct (partition_nodes_dom sets.2 coords) as [Hp0 Hp1].
    rewrite <- Hk1. split.
    { unfold node_columns. rewrite Hd0, Hd0a, Hp0. reflexivity. }
    split; [exact Hcm|]. split; [exact Hc'|]. split.
    { rewrite Hrend. cbn. rewrite <- app_assoc. reflexivity. }
    split; [exact Htools|].
    exists attrs1, t1. repeat split.
    unfold node_columns. rewrite Hd1, Hd1a, Hp1. reflexivity.
  - injection Hparts as <-. cbn [fst snd] in *. injection Hlv1 as <-.
    injection Hr1 as <- <-. rewrite <- Hk0. split.
    { unfold node_columns. rewrite Hd0, Hd0a, single_table_dom. reflexivity. }
    split; [exact Hcm|]. split; [exact Hc'|]. split.
    { rewrite Hrend. reflexivity. }
    split; [exact Htools | reflexivity].
Qed.

Lemma edge_hover_tool_renderers (s : BokehGraph) (r : renderer)
    (fig fig' : Figure) :
  edge_hover_tool s r fig = Ok fig' → renderers fig' = renderers fig.
Proof.
  unfold edge_hover_tool. intros H.
  destruct (hover_edges s); [|injection H as <-; reflexivity].
  destruct (_edge_tooltips s); [|discriminate].
  injection H as <-. reflexivity.
Qed.

Lemma resolve_alpha_Ok E ea mc attrs t t' alpha :
  resolve_alpha E ea mc attrs t = Ok (t', alpha) →
  t' = t ∨ ∃ cm, t' = <["_edge_alpha" := cm]> t.
Proof.
  unfold resolve_alpha. intros H.
  destruct ea; try (injection H as <- <-; auto).
  case_bool_decide; [|injection H as <- <-; auto].
  ok_step H as vals Hv. ok_step H as cm Hcm. injection H as <- <-. eauto.
Qed.

Lemma edge_identity_columns_Ok (g : Graph) (t t' : gmap string (list value)) :
  edge_identity_columns g t = Ok t' →
  (edges g = [] ∧ t' = t)
  ∨ (edges g ≠ []
     ∧ t' = <["_v" := VInt <$> (edges g).*2]> (<["_u" := VInt <$> (edges g).*1]> t)).
Proof.
  unfold edge_identity_columns. intros H.
  destruct (edges g) as [|e es] eqn:He; simpl in H.
  - injection H as <-. auto.
  - injection H as <-. right. split; [discriminate | reflexivity].
Qed.

(** Every catalog attribute has a column in the edge table that
    [_render_edges] stores, and the column of an attribute not named like
    one of the two synthetic columns holds every edge's own value. *)
Lemma render_edges_spec E fig ec ep es ea mc self fig' self' :
  _render_edges E fig ec ep es ea mc self = Ok (fig', self') →
  ∃ t,
    edge_properties self' = Some t
    ∧ config self' = config self
    ∧ (∀ attr, attr ∈ edge_attributes self →
         ∃ col, t !! attr = Some col
                ∧ (attr ≠ "_colormap" → attr ≠ "_edge_alpha" →
                   Forall2 (λ e v, e.2 !! attr = Some v)
                     (edges_data (graph self)) col))
    ∧ ∃ color alpha,
        renderers fig' = renderers fig ++ [MultiLine color t alpha es]
        ∧ color = if decide (ec ∈ edge_attributes self) then "_colormap" else ec.
Proof.
  unfold _render_edges. intros H.
  ok_step H as p Hp. destruct p as [e self1]. cbn [fst snd] in H.
  assert (Hc : config self1 = config self).
  { destruct (_edges self).
    - injection Hp as _ <-. reflexivity.
    - ok_step Hp as r Hr. injection Hp as _ <-. destruct r as [e' s1].
      apply gen_edge_coordinates_config in Hr. exact Hr. }
  clear Hp.
  ok_step H as t1 Hid. ok_step H as t2 Hattrs. ok_step H as pc Hpc.
  ok_step H as pa Hpa. ok_step H as fig1 Hfig. injection H as <- <-.
  destruct pc as [t3 color], pa as [t4 alpha]. cbn [fst snd] in *.
  apply edge_hover_tool_renderers in Hfig.
  pose proof Hc as Hc'.
  apply config_eq in Hc as (Hg & _ & _ & _ & _ & _ & _ & _ & Hea & _).
  rewrite ?Hg, ?Hea in *. clear Hg Hea.
  exists t4. split; [reflexivity|]. split; [exact Hc'|]. split.
  - intros attr Hin. rewrite edge_attr_columns_loop in Hattrs.
    destruct (column_loop_Ok _ _ _ _ _ Hattrs) as [Hcols _].
    destruct (Hcols attr Hin eq_refl) as (col & Hcol & Hlook).
    apply comprehension_Ok in Hcol.
    assert (Hcol' : Forall2 (λ e v, e.2 !! attr = Some v)
                      (edges_data (graph self)) col).
    { eapply Forall2_impl; [exact Hcol|]. intros e0 v. apply getattr_Ok. }
    assert (H3 : ∃ col3, t3 !! attr = Some col3
                         ∧ (attr ≠ "_colormap" → col3 = col)).
    { apply resolve_color_Ok in Hpc as [Hpc1 Hpc2].
      destruct (decide (ec ∈ edge_attributes self)) as [Hec|Hec].
      - destruct (Hpc1 Hec) as (_ & vals & cm & _ & _ & ->).
        destruct (decide (attr = "_colormap")) as [->|Hne].
        + rewrite lookup_insert_eq. eexists. split; [reflexivity|congruence].
        + rewrite lookup_insert_ne by congruence. eauto.
      - destruct (Hpc2 Hec) as [_ ->]. eauto. }
    destruct H3 as (col3 & Hl3 & Hc3).
    apply resolve_alpha_Ok in Hpa as [->|[cm ->]].
    + exists col3. split; [exact Hl3|]. intros Hn1 _. rewrite Hc3 by exact Hn1.
      exact Hcol'.
    + destruct (decide (attr = "_edge_alpha")) as [->|Hne].
      * rewrite lookup_insert_eq. eexists. split; [reflexivity|congruence].
      * rewrite lookup_insert_ne by congruence. exists col3.
        split; [exact Hl3|]. intros Hn1 _. rewrite Hc3 by exact Hn1. exact Hcol'.
  - exists color, alpha. split.
    + rewrite Hfig. reflexivity.
    + eapply resolve_color_key, Hpc.
Qed.

(** ** The edge table does not depend on [hover_edges] *)

Lemma init_hover_edges E g w h inl hn he :
  init E g w h inl hn he = rmap (with_hover_edges he) (init E g w h inl hn false).
Proof.
  unfold init, rmap.
  destruct (if truthy (bipartite_flag E g)
            then d0 <- side_data 0 (nodes_data g) ;;
                 d1 <- side_data 1 (nodes_data g) ;;
                 Ok (sorted (attr_keys d0.*2), Some (sorted (attr_keys d1.*2)))
            else Ok (sorted (attr_keys (nodes_data g).*2), None));
    reflexivity.
Qed.

Lemma layout_hover_edges E he l sf it sc sd s :
  layout E l sf it sc sd (with_hover_edges he s)
  = rmap (with_hover_edges he) (layout E l sf it sc sd s).
Proof.
  unfold layout, rmap. cbn [bipartite graph with_hover_edges set_edges set_nodes].
  destruct (falsy l && negb (truthy (bipartite s))).
  { destruct (spring_k (graph s) sf); [|reflexivity]. simpl.
    destruct (nx_spring_layout E (graph s) a it sc sd); reflexivity. }
  destruct (falsy l && truthy (bipartite s)).
  { destruct (side_data 1 (nodes_data (graph s))); [|reflexivity]. simpl.
    destruct (nx_bipartite_layout E (graph s) a.*1); reflexivity. }
  reflexivity.
Qed.

Lemma ensure_layout_hover_edges E he s :
  ensure_layout E (with_hover_edges he s)
  = rmap (λ p, (p.1, with_hover_edges he p.2)) (ensure_layout E s).
Proof.
  unfold ensure_layout, layout_default, rmap.
  cbn [_layout with_hover_edges].
  destruct (falsy (_layout s)).
  - rewrite layout_hover_edges. unfold rmap.
    destruct (layout E None 0.8 50 (VInt 1) None s) as [s1|]; [|reflexivity].
    simpl. destruct (_layout s1); reflexivity.
  - simpl. destruct (_layout s); reflexivity.
Qed.

Lemma gen_edge_coordinates_hover_edges E he s :
  gen_edge_coordinates E (with_hover_edges he s)
  = rmap (λ p, (p.1, with_hover_edges he p.2)) (gen_edge_coordinates E s).
Proof.
  unfold gen_edge_coordinates. rewrite ensure_layout_hover_edges. unfold rmap.
  destruct (ensure_layout E s) as [[pos s1]|]; [|reflexivity]. simpl.
  destruct (comprehension _ _); reflexivity.
Qed.

(** The part of [_render_edges] after the coordinates, up to the table it
    stores. *)
Lemma edge_table_hover_edges E he fig ec ep es ea mc e s :
  hover_edges s = false →
  rmap (λ r : Figure * BokehGraph, edge_properties r.2)
    (props <- edge_identity_columns (graph (with_hover_edges he s))
                (<["ys" := ys e]> (<["xs" := xs e]> ∅)) ;;
     props0 <- edge_attr_columns (graph (with_hover_edges he s))
                 (edge_attributes (with_hover_edges he s)) props ;;
     pc <- resolve_color E ec ep mc (edge_attributes (with_hover_edges he s)) props0 ;;
     pa <- resolve_alpha E ea mc (edge_attributes (with_hover_edges he s)) pc.1 ;;
     figure <- edge_hover_tool
                 (set_edge_properties (Some pa.1) (with_hover_edges he s))
                 (MultiLine pc.2 pa.1 pa.2 es)
                 (add_renderer (MultiLine pc.2 pa.1 pa.2 es) fig) ;;
     Ok (figure, set_edge_properties (Some pa.1) (with_hover_edges he s)))
  = rmap (λ r : Figure * BokehGraph, edge_properties r.2)
      (props <- edge_identity_columns (graph s)
                  (<["ys" := ys e]> (<["xs" := xs e]> ∅)) ;;
       props0 <- edge_attr_columns (graph s) (edge_attributes s) props ;;
       pc <- resolve_color E ec ep mc (edge_attributes s) props0 ;;
       pa <- resolve_alpha E ea mc (edge_attributes s) pc.1 ;;
       figure <- edge_hover_tool (set_edge_properties (Some pa.1) s)
                   (MultiLine pc.2 pa.1 pa.2 es)
                   (add_renderer (MultiLine pc.2 pa.1 pa.2 es) fig) ;;
       Ok (figure, set_edge_properties (Some pa.1) s)).
Proof.
  intros Hhe. unfold rmap. cbn [graph edge_attributes with_hover_edges].
  destruct (edge_identity_columns _ _) as [t1|]; [|reflexivity]. cbn [rbind].
  destruct (edge_attr_columns _ _ _) as [t2|]; [|reflexivity]. cbn [rbind].
  destruct (resolve_color _ _ _ _ _ _) as [[t3 c]|]; [|reflexivity]. cbn [rbind fst snd].
  destruct (resolve_alpha _ _ _ _ _) as [[t4 a]|]; [|reflexivity]. cbn [rbind fst snd].
  unfold edge_hover_tool. cbn [hover_edges _edge_tooltips set_edge_properties].
  rewrite Hhe. destruct he; reflexivity.
Qed.

Lemma render_edges_hover_edges E he fig ec ep es ea mc s :
  hover_edges s = false →
  rmap (λ r, edge_properties r.2)
    (_render_edges E fig ec ep es ea mc (with_hover_edges he s))
  = rmap (λ r, edge_properties r.2) (_render_edges E fig ec ep es ea mc s).
Proof.
  intros Hhe. unfold _render_edges.
  cbn [_edges with_hover_edges].
  destruct (_edges s) as [e|]; cbn [rbind fst snd].
  - apply (edge_table_hover_edges E he fig ec ep es ea mc e s Hhe).
  - rewrite gen_edge_coordinates_hover_edges. unfold rmap at 1.
    destruct (gen_edge_coordinates E s) as [[e s1]|] eqn:Hgen; [|reflexivity].
    cbn [rbind fst snd].
    apply gen_edge_coordinates_config, config_eq in Hgen as (_ & _ & _ & Hhe1 & _).
    rewrite Hhe in Hhe1.
    apply (edge_table_hover_edges E he fig ec ep es ea mc e
             (set_edges (Some e) s1) Hhe1).
Qed.

(** What [__init__] fixes. *)
Lemma init_Ok E g w h inl hn he self :
  init E g w h inl hn he = Ok self →
  graph self = g
  ∧ bipartite self = bipartite_flag E g
  ∧ hover_nodes self = hn
  ∧ hover_edges self = he
  ∧ _node_tooltips_lv0 self
    = (if hn then Some (node_tooltips (node_attributes_lv0 self)) else None)
  ∧ _node_tooltips_lv1 self
    = (if hn then node_tooltips <$> node_attributes_lv1 self else None)
  ∧ edge_attributes self = sorted (attr_keys (edges_data g).*2)
  ∧ _layout self = None ∧ _nodes self = None ∧ _edges self = None
  ∧ (truthy (bipartite self) = false →
     node_attributes_lv0 self = sorted (attr_keys (nodes_data g).*2)).
Proof.
  unfold init. intros H. ok_step H as cats Hcats. injection H as <-. cbn.
  repeat split. intros Hb. rewrite Hb in Hcats. injection Hcats as <-.
  reflexivity.
Qed.

Lemma elem_of_node_columns base hover color attrs k :
  k ∈ node_columns base hover color attrs ↔
  k ∈ base
  ∨ (k ∈ attrs ∧ materialised hover color k)
  ∨ (k = "_colormap" ∧ color ∈ attrs).
Proof.
  unfold node_columns. rewrite !elem_of_union, elem_of_kept, materialised_skip.
  case_decide as Hin.
  - rewrite elem_of_singleton. tauto.
  - rewrite elem_of_empty. tauto.
Qed.

(** ** What the node stage went through *)

Lemma append_node_partition_table (nd : node_coord) (l : list node_coord) :
  append_node nd (partition_table l) = partition_table (l ++ [nd]).
Proof.
  unfold append_node, append_to, partition_table.
  rewrite !fmap_app. cbn [fmap list_fmap].
  apply map_eq. intros k.
  destruct (decide (k = "names")) as [->|Hn];
    [repeat (rewrite ?lookup_alter_eq, ?lookup_alter_ne, ?lookup_insert_eq,
               ?lookup_insert_ne by discriminate); reflexivity|].
  destruct (decide (k = "ys")) as [->|Hy];
    [repeat (rewrite ?lookup_alter_eq, ?lookup_alter_ne, ?lookup_insert_eq,
               ?lookup_insert_ne by discriminate); reflexivity|].
  destruct (decide (k = "xs")) as [->|Hx];
    [repeat (rewrite ?lookup_alter_eq, ?lookup_alter_ne, ?lookup_insert_eq,
               ?lookup_insert_ne by discriminate); reflexivity|].
  repeat (rewrite ?lookup_alter_ne, ?lookup_insert_ne by congruence).
  reflexivity.
Qed.

Lemma partition_nodes_tables (nodes_lv0 : list node) (coords : list node_coord) :
  partition_nodes nodes_lv0 coords
  = (partition_table (filter (λ nd, name nd ∈ nodes_lv0) coords),
     partition_table (filter (λ nd, name nd ∉ nodes_lv0) coords)).
Proof.
  unfold partition_nodes.
  change (empty_partition, empty_partition)
    with (partition_table [], partition_table []).
  change (filter (λ nd, name nd ∈ nodes_lv0) coords)
    with ([] ++ filter (λ nd, name nd ∈ nodes_lv0) coords).
  change (filter (λ nd, name nd ∉ nodes_lv0) coords)
    with ([] ++ filter (λ nd, name nd ∉ nodes_lv0) coords).
  generalize (@nil node_coord) at 1 3 as l0.
  generalize (@nil node_coord) as l1.
  induction coords as [|nd coords IH]; intros l1 l0.
  - cbn. rewrite !app_nil_r. reflexivity.
  - cbn [foldl]. rewrite !filter_cons. case_bool_decide as Hin; cbn [fst snd].
    + rewrite decide_True by exact Hin.
      rewrite decide_False by (intros Hn; exact (Hn Hin)).
      rewrite append_node_partition_table, IH, <- app_assoc. reflexivity.
    + rewrite decide_False by exact Hin. rewrite decide_True by exact Hin.
      rewrite append_node_partition_table, IH, <- app_assoc. reflexivity.
Qed.

(** What a successful [_render_nodes] went through. *)
Lemma render_nodes_inv E fig na ns nc np mc self fig' self' :
  _render_nodes E fig na ns nc np mc self = Ok (fig', self') →
  ∃ coords members0 base0 side1 t0a t0 c0,
    _nodes self' = Some coords
    ∧ (if truthy (bipartite self) then
         ∃ sets, nx_bipartite_sets E (graph self) = Ok sets
                 ∧ members0 = sets.2
                 ∧ base0 = (partition_nodes sets.2 coords).1
                 ∧ side1 = Some (sets.1, (partition_nodes sets.2 coords).2)
       else members0 = name <$> coords ∧ base0 = single_table coords
            ∧ side1 = None)
    ∧ node_attr_columns (graph self) (hover_nodes self) nc
        (node_attributes_lv0 self) members0 base0 = Ok t0a
    ∧ resolve_color E nc np mc (node_attributes_lv0 self) t0a = Ok (t0, c0)
    ∧ node_properties_lv0 self' = Some t0
    ∧ match side1 with
      | Some (members1, base1) =>
          ∃ attrs1 t1a t1 c1,
            node_attributes_lv1 self = Some attrs1
            ∧ node_attr_columns (graph self) (hover_nodes self) nc attrs1
                members1 base1 = Ok t1a
            ∧ resolve_color E nc np mc attrs1 t1a = Ok (t1, c1)
            ∧ node_properties_lv1 self' = Some t1
      | None => True
      end.
Proof.
  unfold _render_nodes. intros H.
  ok_step H as p Hp. destruct p as [coords self1].
  pose proof (node_coordinates_config _ _ _ _ Hp) as Hc.
  assert (Hn : _nodes self1 = Some coords).
  { unfold node_coordinates in Hp. destruct (_nodes self) as [[|c cs]|] eqn:Hns;
      cbn [falsy] in Hp.
    - ok_step Hp as r Hr. injection Hp as <- <-. reflexivity.
    - injection Hp as <- <-. exact Hns.
    - ok_step Hp as r Hr. injection Hp as <- <-. reflexivity. }
  clear Hp. cbn [fst snd] in H.
  ok_step H as parts Hparts. ok_step H as lv0a Hlv0.
  ok_step H as lv1a Hlv1. ok_step H as r0 Hr0. ok_step H as r1 Hr1.
  ok_step H as fig1 Hfig. injection H as <- <-.
  destruct r0 as [t0 c0], r1 as [lv1 c1]. cbn [fst snd] in *.
  apply config_eq in Hc as (Hg & Hb & Hhn & _ & Ha0 & Ha1 & _).
  unfold node_tables in Hparts. unfold side1_attr_columns in Hlv1.
  unfold side1_color in Hr1.
  rewrite ?Hg, ?Hb, ?Hhn, ?Ha0, ?Ha1 in *. clear Hg Hb Hhn Ha0 Ha1.
  exists coords, parts.1.1, parts.1.2, parts.2, lv0a, t0, c0.
  split; [destruct lv1; exact Hn|].
  destruct (truthy (bipartite self)).
  - ok_step Hparts as sets Hsets. injection Hparts as <-. cbn [fst snd] in *.
    split; [eauto|]. split; [exact Hlv0|]. split; [exact Hr0|].
    destruct (node_attributes_lv1 self) as [attrs1|]; [|discriminate].
    ok_step Hlv1 as t1a Ht1a. injection Hlv1 as <-.
    ok_step Hr1 as r Hr. injection Hr1 as <- <-. destruct r as [t1 c1].
    split; [reflexivity|]. exists attrs1, t1a, t1, c1. auto.
  - injection Hparts as <-. cbn [fst snd] in *. injection Hlv1 as <-.
    injection Hr1 as <- <-. auto 10.
Qed.

(** The columns of a node table after the attribute loop and the colour
    block. *)
Lemma node_table_lookup E g hover nc np mc attrs members base t0a t0 c0 :
  node_attr_columns g hover nc attrs members base = Ok t0a →
  resolve_color E nc np mc attrs t0a = Ok (t0, c0) →
  (∀ attr, attr ∈ attrs → materialised hover nc attr → attr ≠ "_colormap" →
     ∃ col, t0 !! attr = Some col
            ∧ Forall2 (λ n v, node_attr g n attr = Ok v) members col)
  ∧ (∀ key, ¬ (key ∈ attrs ∧ materialised hover nc key) → key ≠ "_colormap" →
       t0 !! key = base !! key).
Proof.
  intros Hloop Hres. rewrite node_attr_columns_loop in Hloop.
  destruct (column_loop_Ok _ _ _ _ _ Hloop) as [H1 H2].
  assert (Hsame : ∀ key, key ≠ "_colormap" → t0 !! key = t0a !! key).
  { intros key Hne. apply resolve_color_Ok in Hres as [Hr1 Hr2].
    destruct (decide (nc ∈ attrs)) as [Hin|Hnin].
    - destruct (Hr1 Hin) as (_ & vals & cm & _ & _ & ->).
      apply lookup_insert_ne. congruence.
    - destruct (Hr2 Hnin) as [_ ->]. reflexivity. }
  split.
  - intros attr Hin Hm Hne. apply materialised_skip in Hm.
    destruct (H1 attr Hin Hm) as (col & Hcol & Hlook).
    exists col. split; [rewrite Hsame by exact Hne; exact Hlook|].
    apply comprehension_Ok, Hcol.
  - intros key Hnot Hne. rewrite Hsame by exact Hne. apply H2.
    destruct (decide (key ∈ attrs)) as [Hin|Hnin]; [|auto].
    right. destruct (negb hover && negb (bool_decide (key = nc))) eqn:Hs;
      [reflexivity|]. exfalso. apply Hnot. split; [exact Hin|].
    apply materialised_skip, Hs.
Qed.

(** ** C6: the colour key of a graph that is not bipartite *)

(** C6, as stated, fails in its second half: [graph_colormap_attr] has a
    node attribute named ["_colormap"]; with hover enabled and the literal
    colour ["firebrick"], which names no attribute, the node table still has
    a ["_colormap"] column, the attribute's own. *)
Lemma literal_color_table_has_colormap_column :
  ∃ s fig s' t,
    init Ref.collaborators graph_colormap_attr 800 600 true true false = Ok s
    ∧ truthy (bipartite s) = false
    ∧ ("firebrick" ∉ node_attributes_lv0 s)
    ∧ draw_default Ref.collaborators s = Ok (fig, s')
    ∧ node_properties_lv0 s' = Some t
    ∧ t !! "_colormap" = Some [VInt 3].
Proof.
  pose (s := value_of (init Ref.collaborators graph_colormap_attr
                         800 600 true true false)).
  pose (r := value_of (draw_default Ref.collaborators s)).
  exists s, r.1, r.2, (default ∅ (node_properties_lv0 r.2)).
  split; [returned|]. split; [run|]. split; [decide_it|].
  split; [returned|]. split; [run|]. run.
Qed.

(** C6, amended: in a graph that is not bipartite, when [node_color] names
    a catalog attribute the node table has a ["_colormap"] column, which is
    the colour map of the attribute's column, that is, of the value
    [nodes[n][node_color]] of each coordinate entry's node [n] in the order
    of the entries (the column stays in the table under the attribute's
    name unless that name is ["_colormap"]), and the glyph's fill and line
    colour key is ["_colormap"]; when [node_color] names no catalog
    attribute the glyph's colour key is [node_color] itself and the colour
    block adds no column: the table has a ["_colormap"] column exactly when
    hover is enabled and ["_colormap"] is itself a catalog attribute, and
    the column then holds that attribute's values. *)
Theorem node_color_key_single E fig na ns nc np mc self fig' self' :
  truthy (bipartite self) = false →
  _render_nodes E fig na ns nc np mc self = Ok (fig', self') →
  ∃ t0 coords,
    node_properties_lv0 self' = Some t0
    ∧ _nodes self' = Some coords
    ∧ (nc ∈ node_attributes_lv0 self →
         (∃ vals cm,
            Forall2 (λ c v, node_attr (graph self) (name c) nc = Ok v) coords vals
            ∧ (nc ≠ "_colormap" → t0 !! nc = Some vals)
            ∧ colormap_map E np mc vals = Ok cm
            ∧ t0 !! "_colormap" = Some cm)
         ∧ renderers fig' =
             renderers fig ++ [Scatter Circle "_colormap" "_colormap" t0 na ns])
    ∧ (nc ∉ node_attributes_lv0 self →
         (is_Some (t0 !! "_colormap") ↔
            hover_nodes self = true ∧ "_colormap" ∈ node_attributes_lv0 self)
         ∧ (∀ col, t0 !! "_colormap" = Some col →
                   Forall2 (λ c v, node_attr (graph self) (name c) "_colormap" = Ok v)
                     coords col)
         ∧ renderers fig' = renderers fig ++ [Scatter Circle nc nc t0 na ns]).
Proof.
  intros Hbip H. pose proof H as Hinv.
  apply render_nodes_spec in H
    as (t0 & lv1 & Ht0 & Hdom & _ & _ & Hrend & _ & Hlv1).
  rewrite Hbip in Hlv1. subst lv1.
  unfold final_color in Hrend. rewrite Hbip in Hrend. cbn in Hrend.
  apply render_nodes_inv in Hinv
    as (coords & members0 & base0 & side1 & t0a & t0' & c0
        & Hn & Hparts & Hloop & Hres & Ht0' & _).
  rewrite Hbip in Hparts. destruct Hparts as (-> & -> & _).
  assert (t0' = t0) as -> by congruence. clear Ht0'.
  rewrite node_attr_columns_loop in Hloop.
  destruct (column_loop_Ok _ _ _ _ _ Hloop) as [Hcols _].
  apply resolve_color_Ok in Hres as [Hres_in Hres_out].
  exists t0, coords. split; [exact Ht0|]. split; [exact Hn|]. split.
  - intros Hin. split.
    + destruct (Hres_in Hin) as (_ & vals & cm & Hvals & Hcm & ->).
      destruct (Hcols nc Hin) as (col & Hcol & Hlook).
      { apply materialised_skip. right. reflexivity. }
      assert (col = vals) as -> by congruence.
      apply comprehension_Ok, Forall2_fmap_l in Hcol.
      exists vals, cm. split; [exact Hcol|]. split.
      * intros Hne. rewrite lookup_insert_ne by congruence. exact Hvals.
      * split; [exact Hcm | apply lookup_insert_eq].
    + rewrite Hrend. rewrite decide_True by exact Hin. reflexivity.
  - intros Hnin. destruct (Hres_out Hnin) as [_ ->]. split; [|split].
    + rewrite <- elem_of_dom, Hdom, elem_of_node_columns.
      unfold base_columns. rewrite Hbip. unfold materialised. split.
      * intros [Hb|[[Hk [Hh|Heq]]|[_ Hc]]].
        -- set_solver.
        -- auto.
        -- subst nc. contradiction.
        -- contradiction.
      * intros [Hh Hk]. right. left. auto.
    + intros col Hlook.
      destruct (decide ("_colormap" ∈ node_attributes_lv0 self
                        ∧ materialised (hover_nodes self) nc "_colormap"))
        as [[Hk Hm]|Hnot].
      * destruct (Hcols "_colormap" Hk) as (col' & Hcol & Hlook').
        { apply materialised_skip, Hm. }
        assert (col' = col) as -> by congruence.
        apply comprehension_Ok, Forall2_fmap_l in Hcol. exact Hcol.
      * exfalso.
        assert (Hd : "_colormap" ∈ dom t0a) by (apply elem_of_dom; eauto).
        rewrite Hdom, elem_of_node_columns in Hd.
        unfold base_columns in Hd. rewrite Hbip in Hd.
        destruct Hd as [Hb|[Hk|[_ Hc]]]; [set_solver | tauto | contradiction].
    + rewrite Hrend. rewrite decide_False by exact Hnin. reflexivity.
Qed.

(** C6 at [graph_triangle] with [node_color="a"]. *)
Lemma node_color_key_single_witness :
  ∃ self fig' self',
    truthy (bipartite self) = false
    ∧ _render_nodes Ref.collaborators (prepare_figure self) (VFloat 0.7)
        (VInt 9) "a" "Category20" (-1) self = Ok (fig', self')
    ∧ "a" ∈ node_attributes_lv0 self
    ∧ ∃ t0 coords,
        node_properties_lv0 self' = Some t0
        ∧ _nodes self' = Some coords
        ∧ (∃ vals cm,
             Forall2 (λ c v, node_attr (graph self) (name c) "a" = Ok v)
               coords vals
             ∧ ("a" ≠ "_colormap" → t0 !! "a" = Some vals)
             ∧ colormap_map Ref.collaborators "Category20" (-1) vals = Ok cm
             ∧ t0 !! "_colormap" = Some cm)
        ∧ renderers fig' =
            renderers (prepare_figure self)
            ++ [Scatter Circle "_colormap" "_colormap" t0 (VFloat 0.7) (VInt 9)].
Proof.
  pose (self := value_of (init Ref.collaborators graph_triangle
                            800 600 true true false)).
  pose (r := value_of (_render_nodes Ref.collaborators (prepare_figure self)
                         (VFloat 0.7) (VInt 9) "a" "Category20" (-1) self)).
  exists self, r.1, r.2.
  assert (H1 : truthy (bipartite self) = false) by run.
  assert (H2 : _render_nodes Ref.collaborators (prepare_figure self) (VFloat 0.7)
                 (VInt 9) "a" "Category20" (-1) self = Ok (r.1, r.2)) by returned.
  assert (H3 : "a" ∈ node_attributes_lv0 self) by decide_it.
  repeat (split; [assumption|]).
  destruct (node_color_key_single Ref.collaborators _ _ _ _ _ _ _ _ _ H1 H2)
    as (t0 & coords & Ht0 & Hn & Hin & _).
  exists t0, coords. split; [exact Ht0|]. split; [exact Hn|]. exact (Hin H3).
Defined.


(** ** C1: the colour key of the two glyphs of a bipartite graph *)

(** C1 fails on the code.  In a bipartite graph the side-1 block assigns
    [color] after the side-0 block, and both glyphs are drawn afterwards:
    when [node_color] names a side-0 attribute that is not a side-1
    attribute, the side-0 table gets its ["_colormap"] column, yet the
    side-0 glyph is drawn with [node_color] as its colour key. *)
Theorem side1_color_overwrites_side0 E fig na ns nc np mc self fig' self' attrs1 :
  truthy (bipartite self) = true →
  node_attributes_lv1 self = Some attrs1 →
  nc ∈ node_attributes_lv0 self →
  nc ∉ attrs1 →
  _render_nodes E fig na ns nc np mc self = Ok (fig', self') →
  ∃ t0 t1,
    node_properties_lv0 self' = Some t0
    ∧ is_Some (t0 !! "_colormap")
    ∧ renderers fig' =
        renderers fig ++ [Scatter Circle nc nc t0 na ns;
                          Scatter Square nc nc t1 na ns].
Proof.
  intros Hbip Ha1 Hin Hnin H.
  apply render_nodes_spec in H
    as (t0 & lv1 & Ht0 & _ & Hcm & _ & Hrend & _ & Hlv1).
  rewrite Hbip in Hlv1. destruct Hlv1 as (attrs1' & t1 & -> & Ha1' & _).
  unfold final_color in Hrend. rewrite Hbip, Ha1 in Hrend. cbn in Hrend.
  rewrite decide_False in Hrend by exact Hnin.
  exists t0, t1. split; [exact Ht0|]. split; [|exact Hrend].
  destruct (Hcm Hin) as (vals & cm & _ & ->). eauto.
Qed.

(** C1 at [graph_one_sided_attr] with [node_color="a"]: ["a"] is an
    attribute of side 0 only, and both glyphs are keyed by ["a"]. *)
Lemma side1_color_overwrites_side0_witness :
  ∃ self fig' self',
    truthy (bipartite self) = true
    ∧ node_attributes_lv1 self = Some ["bipartite"]
    ∧ "a" ∈ node_attributes_lv0 self
    ∧ ("a" ∉ ["bipartite"])
    ∧ _render_nodes Ref.collaborators (prepare_figure self) (VFloat 0.7)
        (VInt 9) "a" "Category20" (-1) self = Ok (fig', self')
    ∧ ∃ t0 t1,
        node_properties_lv0 self' = Some t0
        ∧ is_Some (t0 !! "_colormap")
        ∧ renderers fig' =
            renderers (prepare_figure self)
            ++ [Scatter Circle "a" "a" t0 (VFloat 0.7) (VInt 9);
                Scatter Square "a" "a" t1 (VFloat 0.7) (VInt 9)].
Proof.
  pose (self := value_of (init Ref.collaborators graph_one_sided_attr
                            800 600 true true false)).
  pose (r := value_of (_render_nodes Ref.collaborators (prepare_figure self)
                         (VFloat 0.7) (VInt 9) "a" "Category20" (-1) self)).
  exists self, r.1, r.2.
  assert (H1 : truthy (bipartite self) = true) by run.
  assert (H2 : node_attributes_lv1 self = Some ["bipartite"]) by run.
  assert (H3 : "a" ∈ node_attributes_lv0 self) by decide_it.
  assert (H4 : "a" ∉ ["bipartite"]) by decide_it.
  assert (H5 : _render_nodes Ref.collaborators (prepare_figure self) (VFloat 0.7)
                 (VInt 9) "a" "Category20" (-1) self = Ok (r.1, r.2)) by returned.
  repeat (split; [assumption|]).
  exact (side1_color_overwrites_side0 Ref.collaborators _ _ _ _ _ _ _ _ _ _
           H1 H2 H3 H4 H5).
Defined.


(** ** C9: the identity column the node hover tools refer to *)

(** C9, as stated, fails: the nodes of [graph_node_attr] carry an attribute
    named ["_node"]; with hover enabled the attribute loop stores it, so the
    side-0 table does contain a ["_node"] key (holding attribute values). *)
Lemma bipartite_table_has_node_column :
  ∃ s fig s' t,
    init Ref.collaborators graph_node_attr 800 600 true true false = Ok s
    ∧ truthy (bipartite s) = true
    ∧ draw_default Ref.collaborators s = Ok (fig, s')
    ∧ node_properties_lv0 s' = Some t
    ∧ t !! "_node" = Some [VInt 8]
    ∧ t !! "names" = Some [VInt 1].
Proof.
  pose (s := value_of (init Ref.collaborators graph_node_attr
                         800 600 true true false)).
  pose (r := value_of (draw_default Ref.collaborators s)).
  exists s, r.1, r.2, (default ∅ (node_properties_lv0 r.2)).
  split; [returned|]. split; [run|]. split; [returned|].
  repeat (split; [run|]). run.
Qed.

(** C9, amended: in a bipartite graph built with hover enabled, every
    successful [render] attaches one hover tool to each node glyph; its
    descriptors contain [("node", "@_node")].  The table the glyph reads
    has a ["names"] column, which lists the names of that side's coordinate
    entries, in their order (side 0: the entries named in the second set of
    [nx.bipartite.sets]; side 1: all the others), unless ["names"] is itself
    an attribute of that side's catalog.  The table has a ["_node"] column
    exactly when ["_node"] is itself an attribute of that side's catalog.
    A ["names"] or ["_node"] column that comes from an attribute holds the
    attribute's values for the nodes of that side's set, not identities. *)
Theorem bipartite_hover_identity_column E g w h inl he
    nc np ns na ec ep es ea mc self fig self' :
  init E g w h inl true he = Ok self →
  truthy (bipartite self) = true →
  render E nc np ns na ec ep es ea mc self = Ok (fig, self') →
  ∃ attrs1 t0 t1 g0 g1 tools sets coords,
    node_attributes_lv1 self = Some attrs1
    ∧ node_properties_lv0 self' = Some t0
    ∧ node_properties_lv1 self' = Some t1
    ∧ hover_tools fig
      = tools ++ [hover_tool_for (node_tooltips (node_attributes_lv0 self)) g0;
                  hover_tool_for (node_tooltips attrs1) g1]
    ∧ source_of g0 = t0 ∧ source_of g1 = t1
    ∧ ("node", "@_node") ∈ node_tooltips (node_attributes_lv0 self)
    ∧ ("node", "@_node") ∈ node_tooltips attrs1
    ∧ is_Some (t0 !! "names") ∧ is_Some (t1 !! "names")
    ∧ (is_Some (t0 !! "_node") ↔ "_node" ∈ node_attributes_lv0 self)
    ∧ (is_Some (t1 !! "_node") ↔ "_node" ∈ attrs1)
    ∧ nx_bipartite_sets E (graph self) = Ok sets
    ∧ _nodes self' = Some coords
    ∧ ("names" ∉ node_attributes_lv0 self →
       t0 !! "names"
       = Some (VInt <$> (name <$> filter (λ nd, name nd ∈ sets.2) coords)))
    ∧ ("names" ∉ attrs1 →
       t1 !! "names"
       = Some (VInt <$> (name <$> filter (λ nd, name nd ∉ sets.2) coords)))
    ∧ (∀ key, key = "names" ∨ key = "_node" → key ∈ node_attributes_lv0 self →
         ∃ col, t0 !! key = Some col
                ∧ Forall2 (λ n v, node_attr (graph self) n key = Ok v) sets.2 col)
    ∧ (∀ key, key = "names" ∨ key = "_node" → key ∈ attrs1 →
         ∃ col, t1 !! key = Some col
                ∧ Forall2 (λ n v, node_attr (graph self) n key = Ok v) sets.1 col).
Proof.
  intros Hinit Hbip H. unfold render in H.
  ok_step H as r Hedges. destruct r as [fig1 self1]. cbn [fst snd] in H.
  apply render_edges_spec in Hedges as (_ & _ & Hc & _).
  apply init_Ok in Hinit as (_ & _ & Hhn & _ & Ht0 & Ht1 & _).
  apply config_eq in Hc as (Hg & Hb & Hhn1 & _ & Ha0 & Ha1 & Htt0 & Htt1 & _).
  pose proof H as Hinv.
  apply render_nodes_spec in H
    as (t0 & lv1 & Hp0 & Hd0 & _ & _ & _ & Htools & Hlv1).
  rewrite Hb, Hbip in Hlv1. destruct Hlv1 as (attrs1 & t1 & -> & Hattrs1 & Hp1 & Hd1).
  unfold node_tools in Htools.
  rewrite Hhn1, Hhn, Htt0, Ht0, Htt1, Ht1, <- Ha1, Hattrs1 in Htools.
  cbn in Htools.
  rewrite ?Hb, ?Hhn1, ?Hhn, ?Ha0 in Hd0. rewrite ?Hb, ?Hhn1, ?Hhn in Hd1.
  apply render_nodes_inv in Hinv
    as (coords & members0 & base0 & side1 & t0a & t0' & c0
        & Hn & Hparts & Hloop & Hres & Hp0' & Hside).
  rewrite Hb, Hbip in Hparts. destruct Hparts as (sets & Hsets & -> & -> & ->).
  destruct Hside as (attrs1' & t1a & t1' & c1 & Hattrs1' & Hloop1 & Hres1 & Hp1').
  assert (t0' = t0) as -> by congruence.
  assert (t1' = t1) as -> by congruence.
  assert (attrs1' = attrs1) as -> by congruence.
  clear Hp0' Hp1' Hattrs1'.
  rewrite (partition_nodes_tables sets.2 coords) in Hloop, Hloop1.
  cbn [fst snd] in Hloop, Hloop1.
  rewrite Hg, Hhn1, Hhn, Ha0 in Hloop. rewrite Ha0 in Hres.
  rewrite Hg, Hhn1, Hhn in Hloop1.
  destruct (node_table_lookup _ _ _ _ _ _ _ _ _ _ _ _ Hloop Hres) as [Hattr0 Hbase0].
  destruct (node_table_lookup _ _ _ _ _ _ _ _ _ _ _ _ Hloop1 Hres1) as [Hattr1 Hbase1].
  rewrite Hg in Hsets. rewrite Ha1 in Hattrs1.
  assert (Hmat : ∀ key, materialised true nc key) by (intros key; left; reflexivity).
  exists attrs1, t0, t1. do 2 eexists. exists (hover_tools fig1), sets, coords.
  split; [exact Hattrs1|]. split; [exact Hp0|]. split; [exact Hp1|].
  split; [exact Htools|]. split; [reflexivity|]. split; [reflexivity|].
  split; [right; left|]. split; [right; left|].
  assert (Hnames : ∀ (t : gmap string (list value)) attrs,
            dom t = node_columns (base_columns (bipartite self)) true nc attrs →
            is_Some (t !! "names") ∧ (is_Some (t !! "_node") ↔ "_node" ∈ attrs)).
  { intros t attrs Hd. rewrite <- !elem_of_dom, Hd, !elem_of_node_columns.
    unfold base_columns, materialised. rewrite Hbip. split; [set_solver|].
    split.
    - intros [Hb'|[[Hk _]|[Heq _]]]; [set_solver | exact Hk | discriminate].
    - intros Hk. right. left. auto. }
  destruct (Hnames t0 _ Hd0) as [Hn0 Hi0].
  destruct (Hnames t1 _ Hd1) as [Hn1 Hi1].
  split; [exact Hn0|]. split; [exact Hn1|]. split; [exact Hi0|].
  split; [exact Hi1|]. split; [exact Hsets|]. split; [exact Hn|].
  split; [|split; [|split]].
  - intros Hnin. rewrite Hbase0; [|intros [Hin _]; contradiction | discriminate].
    unfold partition_table. apply lookup_insert_eq.
  - intros Hnin. rewrite Hbase1; [|intros [Hin _]; contradiction | discriminate].
    unfold partition_table. apply lookup_insert_eq.
  - intros key Hkey Hin. apply Hattr0; [exact Hin | apply Hmat|].
    destruct Hkey as [-> | ->]; discriminate.
  - intros key Hkey Hin. apply Hattr1; [exact Hin | apply Hmat|].
    destruct Hkey as [-> | ->]; discriminate.
Qed.

(** C9 at [graph_star], drawn with the default options. *)
Lemma bipartite_hover_identity_column_witness :
  ∃ self fig self',
    init Ref.collaborators graph_star 800 600 true true false = Ok self
    ∧ truthy (bipartite self) = true
    ∧ render Ref.collaborators "firebrick" "Category20" (VInt 9) (VFloat 0.7)
        "navy" "viridis" (VInt 1) (VFloat 0.3) (-1) self = Ok (fig, self')
    ∧ ∃ attrs1 t0 t1 g0 g1 tools sets coords,
        node_attributes_lv1 self = Some attrs1
        ∧ node_properties_lv0 self' = Some t0
        ∧ node_properties_lv1 self' = Some t1
        ∧ hover_tools fig
          = tools ++ [hover_tool_for (node_tooltips (node_attributes_lv0 self)) g0;
                      hover_tool_for (node_tooltips attrs1) g1]
        ∧ source_of g0 = t0 ∧ source_of g1 = t1
        ∧ ("node", "@_node") ∈ node_tooltips (node_attributes_lv0 self)
        ∧ ("node", "@_node") ∈ node_tooltips attrs1
        ∧ is_Some (t0 !! "names") ∧ is_Some (t1 !! "names")
        ∧ (is_Some (t0 !! "_node") ↔ "_node" ∈ node_attributes_lv0 self)
        ∧ (is_Some (t1 !! "_node") ↔ "_node" ∈ attrs1)
        ∧ nx_bipartite_sets Ref.collaborators (graph self) = Ok sets
        ∧ _nodes self' = Some coords
        ∧ ("names" ∉ node_attributes_lv0 self →
           t0 !! "names"
           = Some (VInt <$> (name <$> filter (λ nd, name nd ∈ sets.2) coords)))
        ∧ ("names" ∉ attrs1 →
           t1 !! "names"
           = Some (VInt <$> (name <$> filter (λ nd, name nd ∉ sets.2) coords)))
        ∧ (∀ key, key = "names" ∨ key = "_node" →
             key ∈ node_attributes_lv0 self →
             ∃ col, t0 !! key = Some col
                    ∧ Forall2 (λ n v, node_attr (graph self) n key = Ok v)
                        sets.2 col)
        ∧ (∀ key, key = "names" ∨ key = "_node" → key ∈ attrs1 →
             ∃ col, t1 !! key = Some col
                    ∧ Forall2 (λ n v, node_attr (graph self) n key = Ok v)
                        sets.1 col).
Proof.
  pose (self := value_of (init Ref.collaborators graph_star
                            800 600 true true false)).
  pose (r := value_of (render Ref.collaborators "firebrick" "Category20"
                         (VInt 9) (VFloat 0.7) "navy" "viridis" (VInt 1)
                         (VFloat 0.3) (-1) self)).
  exists self, r.1, r.2.
  assert (H1 : init Ref.collaborators graph_star 800 600 true true false
               = Ok self) by returned.
  assert (H2 : truthy (bipartite self) = true) by run.
  assert (H3 : render Ref.collaborators "firebrick" "Category20" (VInt 9)
                 (VFloat 0.7) "navy" "viridis" (VInt 1) (VFloat 0.3) (-1) self
               = Ok (r.1, r.2)) by returned.
  repeat (split; [assumption|]).
  exact (bipartite_hover_identity_column Ref.collaborators _ _ _ _ _ _ _ _ _
           _ _ _ _ _ _ _ _ H1 H2 H3).
Defined.


(** ** C10: the edge table and [hover_edges] *)

(** C10: the edge table [_render_edges] stores is the same whether the
    instance was built with [hover_edges] on or off; whenever the method
    returns, every catalog edge attribute has a column, holding every edge's
    own value.  The gate on hover is in the node loops only: whenever
    [_render_nodes] returns, the keys of a node table are exactly its
    coordinate and identity columns, the catalog attributes of its side
    that [hover_nodes] is on for or that [node_color] names, and the colour
    map column when [node_color] is a catalog attribute of that side.  So
    with [hover_nodes] on every catalog attribute has a column, and with
    [hover_nodes] off the only attribute column is that of [node_color]. *)
Theorem edge_columns_whatever_hover E :
  (∀ g w h inl hn fig ec ep es ea mc,
     rmap (λ r : Figure * BokehGraph, edge_properties r.2)
       (s <- init E g w h inl hn true ;; _render_edges E fig ec ep es ea mc s)
     = rmap (λ r : Figure * BokehGraph, edge_properties r.2)
         (s <- init E g w h inl hn false ;; _render_edges E fig ec ep es ea mc s))
  ∧ (∀ fig ec ep es ea mc self fig' self',
       _render_edges E fig ec ep es ea mc self = Ok (fig', self') →
       ∃ t, edge_properties self' = Some t
            ∧ ∀ attr, attr ∈ edge_attributes self →
                ∃ col, t !! attr = Some col
                       ∧ (attr ≠ "_colormap" → attr ≠ "_edge_alpha" →
                          Forall2 (λ e v, e.2 !! attr = Some v)
                            (edges_data (graph self)) col))
  ∧ (∀ fig na ns nc np mc self fig' self',
       _render_nodes E fig na ns nc np mc self = Ok (fig', self') →
       ∃ t0,
         node_properties_lv0 self' = Some t0
         ∧ (∀ k, is_Some (t0 !! k) ↔
                 k ∈ base_columns (bipartite self)
                 ∨ (k ∈ node_attributes_lv0 self
                    ∧ (hover_nodes self = true ∨ k = nc))
                 ∨ (k = "_colormap" ∧ nc ∈ node_attributes_lv0 self))
         ∧ (truthy (bipartite self) = true →
            ∃ attrs1 t1,
              node_attributes_lv1 self = Some attrs1
              ∧ node_properties_lv1 self' = Some t1
              ∧ ∀ k, is_Some (t1 !! k) ↔
                     k ∈ base_columns (bipartite self)
                     ∨ (k ∈ attrs1 ∧ (hover_nodes self = true ∨ k = nc))
                     ∨ (k = "_colormap" ∧ nc ∈ attrs1))).
Proof.
  split; [|split].
  - intros g w h inl hn fig ec ep es ea mc.
    rewrite (init_hover_edges E g w h inl hn true).
    unfold rmap at 2.
    destruct (init E g w h inl hn false) as [s|] eqn:Hinit; [|reflexivity].
    cbn [rbind]. apply render_edges_hover_edges.
    apply init_Ok in Hinit as (_ & _ & _ & Hhe & _). exact Hhe.
  - intros fig ec ep es ea mc self fig' self' H.
    apply render_edges_spec in H as (t & Ht & _ & Hcols & _).
    exists t. split; [exact Ht | exact Hcols].
  - intros fig na ns nc np mc self fig' self' H.
    apply render_nodes_spec in H as (t0 & lv1 & Ht0 & Hdom & _ & _ & _ & _ & Hlv1).
    exists t0. split; [exact Ht0|]. split.
    + intros k. rewrite <- elem_of_dom, Hdom, elem_of_node_columns.
      reflexivity.
    + intros Hbip. rewrite Hbip in Hlv1.
      destruct Hlv1 as (attrs1 & t1 & _ & Hattrs1 & Ht1 & Hdom1).
      exists attrs1, t1. split; [exact Hattrs1|]. split; [exact Ht1|].
      intros k. rewrite <- elem_of_dom, Hdom1, elem_of_node_columns.
      reflexivity.
Qed.

(** C10 at [graph_triangle], whose edge catalog is [["w"]]. *)
Lemma edge_columns_whatever_hover_witness :
  ∃ self fig' self',
    _render_edges Ref.collaborators (prepare_figure self) "navy" "viridis"
      (VInt 1) (VFloat 0.3) (-1) self = Ok (fig', self')
    ∧ edge_attributes self = ["w"]
    ∧ ∃ t, edge_properties self' = Some t
           ∧ ∀ attr, attr ∈ edge_attributes self →
               ∃ col, t !! attr = Some col
                      ∧ (attr ≠ "_colormap" → attr ≠ "_edge_alpha" →
                         Forall2 (λ e v, e.2 !! attr = Some v)
                           (edges_data (graph self)) col).
Proof.
  pose (self := value_of (init Ref.collaborators graph_triangle
                            800 600 true false false)).
  pose (r := value_of (_render_edges Ref.collaborators (prepare_figure self)
                         "navy" "viridis" (VInt 1) (VFloat 0.3) (-1) self)).
  exists self, r.1, r.2.
  assert (H1 : _render_edges Ref.collaborators (prepare_figure self) "navy"
                 "viridis" (VInt 1) (VFloat 0.3) (-1) self = Ok (r.1, r.2)) by returned.
  assert (H2 : edge_attributes self = ["w"]) by run.
  repeat (split; [assumption|]).
  exact (proj1 (proj2 (edge_columns_whatever_hover Ref.collaborators))
           _ _ _ _ _ _ _ _ _ H1).
Defined.


(** ** C5: the bipartite flag *)

Section Bipartite_flag.

Variable E : Collaborators.

(** What [nx.is_bipartite] promises. *)
Hypothesis nx_is_bipartite_spec :
  ∀ g, nx_is_bipartite E g = true ↔ two_colorable g.

(** C5: the flag [__init__] computes is true exactly when the graph is
    two-colourable and has at least one edge; it is false for every graph
    without edges, whatever its nodes; and it is the flag of every instance
    [__init__] returns. *)
Theorem bipartite_flag_iff (g : Graph) :
  (truthy (bipartite_flag E g) = true ↔
     two_colorable g ∧ (0 < number_of_edges g)%Z)
  ∧ (number_of_edges g = 0%Z → truthy (bipartite_flag E g) = false)
  ∧ (∀ w h inl hn he self,
       init E g w h inl hn he = Ok self →
       bipartite self = bipartite_flag E g).
Proof.
  unfold bipartite_flag. split; [|split].
  - rewrite <- nx_is_bipartite_spec.
    destruct (nx_is_bipartite E g); simpl.
    + destruct (Z.gtb_spec (number_of_edges g) 0) as [Hlt|Hge]; simpl.
      * split; auto.
      * split; [discriminate | intros [_ Hlt]; lia].
    + split; [discriminate | intros [Hf _]; discriminate].
  - intros Hz. rewrite Hz. rewrite andb_false_r. reflexivity.
  - intros w h inl hn he self Hinit.
    apply init_Ok in Hinit as (_ & Hb & _). exact Hb.
Qed.

End Bipartite_flag.

(** C5 with the reference test for [nx.is_bipartite], at [graph_star]. *)
Lemma bipartite_flag_iff_witness :
  (∀ g, nx_is_bipartite Ref.collaborators g = true ↔ two_colorable g)
  ∧ (truthy (bipartite_flag Ref.collaborators graph_star) = true ↔
       two_colorable graph_star ∧ (0 < number_of_edges graph_star)%Z)
  ∧ truthy (bipartite_flag Ref.collaborators graph_star) = true.
Proof.
  split; [exact RefFacts.is_bipartite_spec|]. split; [|run].
  exact (proj1 (bipartite_flag_iff Ref.collaborators RefFacts.is_bipartite_spec
                  graph_star)).
Defined.


(** ** C4: the graph without nodes *)

(** C4 fails on the code.  For the graph without nodes, whatever the
    collaborators do, [__init__] succeeds with the flag off, and [draw()]
    with default options raises [ZeroDivisionError]: the first stage that
    needs the layout calls [layout()], which divides by the square root of
    [0 * 0.8].  Passing the empty mapping as explicit layout ends in the same
    division, and the unpacking of [gen_node_coordinates] raises on an empty
    layout instead of yielding empty columns. *)
Theorem empty_graph_draw_raises E w h inl hn he :
  ∃ self,
    init E empty_graph w h inl hn he = Ok self
    ∧ bipartite self = 0%Z
    ∧ layout_default E self = Raise ZeroDivisionError
    ∧ layout E (Some []) 0.8%float 50 (VInt 1) None self = Raise ZeroDivisionError
    ∧ draw_default E self = Raise ZeroDivisionError
    ∧ @unpack_zip_star node (float * float) [] = Raise ValueError.
Proof.
  eexists. split.
  { unfold init, bipartite_flag. cbn [number_of_edges empty_graph edges_data length].
    rewrite andb_false_r. cbn. reflexivity. }
  repeat split.
Qed.

(** ** C8: an explicit layout *)

(** C8, as stated, fails for the empty mapping: [not layout] holds for it as
    for [None], so on the one-node graph [layout(layout={})] runs the spring
    solver and stores its answer. *)
Lemma empty_layout_mapping_is_recomputed :
  ∃ s s',
    init Ref.collaborators graph_colormap_attr 800 600 true true false = Ok s
    ∧ layout Ref.collaborators (Some []) 0.8%float 50 (VInt 1) None s = Ok s'
    ∧ _layout s' = Some [(0%Z, (0%float, 0%float))].
Proof.
  pose (s := value_of (init Ref.collaborators graph_colormap_attr
                         800 600 true true false)).
  exists s, (value_of (layout Ref.collaborators (Some []) 0.8%float 50 (VInt 1)
                         None s)).
  split; [returned|]. split; [returned|]. run.
Qed.

(** C8, amended: for every mapping [m] that is not empty, and whatever the
    collaborators are, [layout(layout=m)] returns with [m] itself stored as
    the layout and both coordinate caches cleared; no other field changes and
    no solver's answer enters the result.  The empty mapping is handled like
    no mapping at all. *)
Theorem explicit_layout_stored E (m : Layout) sf it sc sd (self : BokehGraph) :
  m ≠ [] →
  layout E (Some m) sf it sc sd self
  = Ok (set_layout (Some m) (set_edges None (set_nodes None self)))
  ∧ layout E (Some []) sf it sc sd self = layout E None sf it sc sd self.
Proof.
  intros Hm. unfold layout. split.
  - destruct m as [|p m]; [contradiction|]. reflexivity.
  - cbn [falsy bipartite set_edges set_nodes andb].
    destruct (truthy (bipartite self)); reflexivity.
Qed.

(** C8 at [graph_star] with the mapping [star_positions]. *)
Lemma explicit_layout_stored_witness :
  star_positions ≠ []
  ∧ ∃ self,
      init Ref.collaborators graph_star 800 600 true true false = Ok self
      ∧ layout Ref.collaborators (Some star_positions) 0.8%float 50 (VInt 1)
          None self
        = Ok (set_layout (Some star_positions) (set_edges None (set_nodes None self)))
      ∧ layout Ref.collaborators (Some []) 0.8%float 50 (VInt 1) None self
        = layout Ref.collaborators None 0.8%float 50 (VInt 1) None self.
Proof.
  assert (H : star_positions ≠ []) by discriminate.
  split; [exact H|].
  exists (value_of (init Ref.collaborators graph_star 800 600 true true false)).
  split; [returned|].
  exact (explicit_layout_stored Ref.collaborators star_positions _ _ _ _ _ H).
Defined.


(** ** C7: a graph without edges *)

Lemma sorted_empty : sorted ∅ = [].
Proof. unfold sorted. rewrite elements_empty. reflexivity. Qed.

Lemma zip_fst_snd {A B} (l : list (A * B)) : zip l.*1 l.*2 = l.
Proof. induction l as [|[a b] l IH]; [reflexivity|]. cbn. f_equal. exact IH. Qed.

Lemma resolve_color_nil E color palette mc (t : gmap string (list value)) :
  resolve_color E color palette mc [] t = Ok (t, color).
Proof.
  unfold resolve_color. rewrite bool_decide_eq_false_2; [reflexivity|].
  apply not_elem_of_nil.
Qed.

Lemma resolve_alpha_nil E ea mc (t : gmap string (list value)) :
  resolve_alpha E ea mc [] t = Ok (t, ea).
Proof.
  unfold resolve_alpha. destruct ea; reflexivity.
Qed.

(** The edge stage on a graph without edges, from a fresh instance: the
    layout is computed, the table has the two empty coordinate columns and
    nothing else. *)
Lemma render_edges_no_edges E g w h inl hn he self k pos fig ec ep es ea mc :
  edges_data g = [] →
  init E g w h inl hn he = Ok self →
  spring_k g 0.8%float = Ok k →
  nx_spring_layout E g k 50 (VInt 1) None = Ok pos →
  ∃ fig' self',
    _render_edges E fig ec ep es ea mc self = Ok (fig', self')
    ∧ config self' = config self
    ∧ _layout self' = Some pos
    ∧ _nodes self' = None
    ∧ edge_properties self' = Some (<["ys" := []]> (<["xs" := []]> ∅))
    ∧ renderers fig' =
        renderers fig
        ++ [MultiLine ec (<["ys" := []]> (<["xs" := []]> ∅)) ea es].
Proof.
  intros Hedges Hinit Hk Hpos.
  pose proof (init_Ok _ _ _ _ _ _ _ _ Hinit)
    as (Hg & Hb & Hhn & Hhe & _ & _ & Hea & Hl & Hn & He & _).
  assert (Hbz : truthy (bipartite self) = false).
  { rewrite Hb. unfold bipartite_flag, number_of_edges. rewrite Hedges.
    cbn. rewrite andb_false_r. reflexivity. }
  assert (Hcat : edge_attributes self = []).
  { rewrite Hea, Hedges. cbn. apply sorted_empty. }
  assert (Het : _edge_tooltips self = if he then Some (edge_tooltips []) else None).
  { unfold init in Hinit. ok_step Hinit as cats Hcats. injection Hinit as <-.
    cbn. rewrite Hedges. cbn. rewrite sorted_empty. reflexivity. }
  unfold _render_edges. rewrite He.
  unfold gen_edge_coordinates, ensure_layout. rewrite Hl. cbn [falsy].
  unfold layout_default, layout.
  cbn [falsy bipartite set_edges set_nodes graph andb].
  rewrite Hbz, Hg. cbn [negb]. rewrite Hk. cbn [rbind]. rewrite Hpos.
  cbn [rbind _layout set_layout fst snd graph set_edges set_nodes].
  rewrite Hg. unfold edges at 1. rewrite Hedges.
  cbn [fmap list_fmap comprehension rbind fst snd xs ys graph set_edges
       set_layout set_nodes].
  unfold edge_identity_columns, edges. rewrite Hg, Hedges.
  cbn [fmap list_fmap unpack_zip_star rbind edge_attributes set_edges
       set_layout set_nodes].
  rewrite Hcat.
  cbn [edge_attr_columns for_each rbind].
  rewrite resolve_color_nil. cbn [rbind fst snd].
  rewrite resolve_alpha_nil. cbn [rbind fst snd].
  unfold edge_hover_tool.
  cbn [hover_edges _edge_tooltips set_edge_properties set_edges set_layout
       set_nodes].
  rewrite Hhe, Het.
  destruct he; cbn [rbind]; do 2 eexists; (split; [reflexivity|]);
    repeat split.
Qed.

Lemma resolve_color_literal E color palette mc attrs (t : gmap string (list value)) :
  color ∉ attrs → resolve_color E color palette mc attrs t = Ok (t, color).
Proof.
  intros Hnin. unfold resolve_color.
  rewrite bool_decide_eq_false_2 by exact Hnin. reflexivity.
Qed.

Lemma node_attr_columns_total (g : Graph) hover color attrs members
    (t : gmap string (list value)) :
  (∀ attr n, attr ∈ attrs → materialised hover color attr → n ∈ members →
             ∃ data, getitem (nodes_data g) n = Ok data ∧ is_Some (data !! attr)) →
  ∃ t', node_attr_columns g hover color attrs members t = Ok t'.
Proof.
  intros Hall. rewrite node_attr_columns_loop. apply column_loop_total.
  intros attr Hin Hs. apply materialised_skip in Hs.
  apply comprehension_total. intros n Hn.
  destruct (Hall attr n Hin Hs Hn) as (data & Hd & [v Hv]).
  exists v. unfold node_attr. rewrite Hd. simpl. apply getattr_Ok, Hv.
Qed.

Lemma coords_names (rows : Layout) :
  name <$> ((λ z : node * (float * float),
               {| name := z.1; x := z.2.1; y := z.2.2 |}) <$> zip rows.*1 rows.*2)
  = rows.*1.
Proof.
  rewrite zip_fst_snd, <- list_fmap_compose. reflexivity.
Qed.

(** The node stage of a graph that is not bipartite succeeds once a layout
    that is not empty is stored, the nodes it places carry every attribute
    the loop materialises, and [node_color] names no attribute. *)
Lemma render_nodes_single_total E fig na ns nc np mc self pos :
  truthy (bipartite self) = false →
  _nodes self = None →
  _layout self = Some pos →
  pos ≠ [] →
  (hover_nodes self = true → is_Some (_node_tooltips_lv0 self)) →
  (∀ attr n, attr ∈ node_attributes_lv0 self →
             materialised (hover_nodes self) nc attr → n ∈ pos.*1 →
             ∃ data, getitem (nodes_data (graph self)) n = Ok data
                     ∧ is_Some (data !! attr)) →
  nc ∉ node_attributes_lv0 self →
  ∃ fig' self',
    _render_nodes E fig na ns nc np mc self = Ok (fig', self')
    ∧ edge_properties self' = edge_properties self.
Proof.
  intros Hbip Hn Hl Hpos Htips Hattrs Hnc.
  unfold _render_nodes, node_coordinates. rewrite Hn. cbn [falsy].
  unfold gen_node_coordinates, ensure_layout. rewrite Hl.
  destruct pos as [|p pos]; [contradiction|]. clear Hpos.
  cbn [falsy rbind]. rewrite Hl.
  cbn [rbind fst snd unpack_zip_star].
  unfold node_tables. cbn [bipartite set_nodes]. rewrite Hbip.
  cbn [rbind fst snd graph hover_nodes node_attributes_lv0 set_nodes].
  rewrite coords_names.
  destruct (node_attr_columns_total (graph self) (hover_nodes self) nc
              (node_attributes_lv0 self) (p :: pos).*1
              (single_table
                 ((λ z : node * (float * float),
                     {| name := z.1; x := z.2.1; y := z.2.2 |})
                    <$> zip (p :: pos).*1 (p :: pos).*2)) Hattrs) as [t0 Ht0].
  rewrite Ht0. cbn [rbind side1_attr_columns].
  rewrite resolve_color_literal by exact Hnc.
  cbn [rbind side1_color fst snd].
  unfold node_hover_tools.
  cbn [hover_nodes _node_tooltips_lv0 set_node_properties_lv0 set_nodes
       node_glyphs fst snd option_map fmap].
  destruct (hover_nodes self) eqn:Hhn.
  - destruct (Htips eq_refl) as [tips ->]. cbn. eauto.
  - cbn. eauto.
Qed.

(** C7, as stated, fails: [graph_isolated_uneven] has two nodes and no edge;
    [draw()] gets through the edge stage and raises [KeyError] in the node
    stage, where node 1 lacks the catalog attribute ["a"]. *)
Lemma draw_without_edges_raises :
  ∃ s,
    init Ref.collaborators graph_isolated_uneven 800 600 true true false = Ok s
    ∧ edges (graph s) = []
    ∧ length (nodes_data (graph s)) = 2%nat
    ∧ draw_default Ref.collaborators s = Raise KeyError.
Proof.
  exists (value_of (init Ref.collaborators graph_isolated_uneven
                      800 600 true true false)).
  split; [returned|]. repeat (split; [run|]). run.
Qed.

(** C7, amended: take a graph without edges and a fresh instance, and let
    the layout computation succeed (the optimal distance is defined and the
    spring solver answers).  Then the edge stage returns for every choice of
    edge options: the edge table is exactly the two coordinate columns
    ["xs"] and ["ys"] with no row, and no ["_u"] or ["_v"] column, the
    [ValueError] of the empty unpacking being caught.  [draw()] with default
    options returns as well when moreover the layout places at least one
    node, every placed node carries every catalog attribute the node loop
    materialises, and ["firebrick"] names no node attribute. *)
Theorem draw_without_edges E g w h inl hn he self k pos :
  edges_data g = [] →
  init E g w h inl hn he = Ok self →
  spring_k g 0.8%float = Ok k →
  nx_spring_layout E g k 50 (VInt 1) None = Ok pos →
  (∀ fig ec ep es ea mc,
     ∃ fig' self',
       _render_edges E fig ec ep es ea mc self = Ok (fig', self')
       ∧ edge_properties self' = Some (<["ys" := []]> (<["xs" := []]> ∅))
       ∧ renderers fig' =
           renderers fig
           ++ [MultiLine ec (<["ys" := []]> (<["xs" := []]> ∅)) ea es])
  ∧ (pos ≠ [] →
     (∀ attr n, attr ∈ node_attributes_lv0 self →
                materialised hn "firebrick" attr → n ∈ pos.*1 →
                ∃ data, getitem (nodes_data g) n = Ok data
                        ∧ is_Some (data !! attr)) →
     "firebrick" ∉ node_attributes_lv0 self →
     ∃ fig self',
       draw_default E self = Ok (fig, self')
       ∧ edge_properties self' = Some (<["ys" := []]> (<["xs" := []]> ∅))).
Proof.
  intros Hedges Hinit Hk Hpos. split.
  - intros fig ec ep es ea mc.
    destruct (render_edges_no_edges E g w h inl hn he self k pos fig ec ep es ea mc
                Hedges Hinit Hk Hpos)
      as (fig' & self' & Hr & _ & _ & _ & Ht & Hrend).
    eauto.
  - intros Hne Hattrs Hnc.
    unfold draw_default, draw, render.
    destruct (render_edges_no_edges E g w h inl hn he self k pos
                (prepare_figure self) "navy" "viridis" (VInt 1) (VFloat 0.3) (-1)
                Hedges Hinit Hk Hpos)
      as (fig1 & self1 & Hr & Hc & Hl & Hn & Ht & _).
    rewrite Hr. cbn [rbind fst snd].
    pose proof (init_Ok _ _ _ _ _ _ _ _ Hinit)
      as (Hg & Hb & Hhn & _ & Htt0 & _).
    apply config_eq in Hc as (Hg1 & Hb1 & Hhn1 & _ & Ha0 & _ & Htt1 & _).
    destruct (render_nodes_single_total E fig1 (VFloat 0.7) (VInt 9) "firebrick"
                "Category20" (-1) self1 pos) as (fig2 & self2 & Hr2 & He2).
    + rewrite Hb1, Hb. unfold bipartite_flag, number_of_edges.
      rewrite Hedges. cbn. rewrite andb_false_r. reflexivity.
    + exact Hn.
    + exact Hl.
    + exact Hne.
    + rewrite Htt1, Htt0, Hhn1, Hhn. intros ->. eauto.
    + rewrite Ha0, Hhn1, Hhn, Hg1, Hg. exact Hattrs.
    + rewrite Ha0. exact Hnc.
    + exists fig2, self2. split; [exact Hr2|]. rewrite He2. exact Ht.
Qed.

(** C7 at [graph_isolated]: two nodes, no edge, the same attribute on
    both. *)
Lemma draw_without_edges_witness :
  ∃ self k pos,
    edges_data graph_isolated = []
    ∧ init Ref.collaborators graph_isolated 800 600 true true false = Ok self
    ∧ spring_k graph_isolated 0.8%float = Ok k
    ∧ nx_spring_layout Ref.collaborators graph_isolated k 50 (VInt 1) None = Ok pos
    ∧ (∃ fig' self',
         _render_edges Ref.collaborators (prepare_figure self) "navy" "viridis"
           (VInt 1) (VFloat 0.3) (-1) self = Ok (fig', self')
         ∧ edge_properties self' = Some (<["ys" := []]> (<["xs" := []]> ∅))
         ∧ renderers fig' =
             renderers (prepare_figure self)
             ++ [MultiLine "navy" (<["ys" := []]> (<["xs" := []]> ∅))
                   (VFloat 0.3) (VInt 1)])
    ∧ ∃ fig self',
        draw_default Ref.collaborators self = Ok (fig, self')
        ∧ edge_properties self' = Some (<["ys" := []]> (<["xs" := []]> ∅)).
Proof.
  pose (self := value_of (init Ref.collaborators graph_isolated
                            800 600 true true false)).
  pose (k := value_of (spring_k graph_isolated 0.8%float)).
  pose (pos := value_of (nx_spring_layout Ref.collaborators graph_isolated k 50
                           (VInt 1) None)).
  exists self, k, pos.
  assert (H1 : edges_data graph_isolated = []) by reflexivity.
  assert (H2 : init Ref.collaborators graph_isolated 800 600 true true false
               = Ok self) by returned.
  assert (H3 : spring_k graph_isolated 0.8%float = Ok k) by returned.
  assert (H4 : nx_spring_layout Ref.collaborators graph_isolated k 50 (VInt 1)
                 None = Ok pos) by returned.
  repeat (split; [assumption|]).
  destruct (draw_without_edges Ref.collaborators _ _ _ _ _ _ _ _ _ H1 H2 H3 H4)
    as [Hedge Hdraw].
  split; [apply Hedge|]. apply Hdraw.
  - discriminate.
  - assert (Hcat : node_attributes_lv0 self = ["a"]) by run.
    assert (Hpos : pos.*1 = [0; 1]) by run.
    rewrite Hcat, Hpos. intros attr n Ha _ Hn.
    apply list_elem_of_singleton in Ha as ->.
    repeat (apply elem_of_cons in Hn as [->|Hn]);
      [eexists; split; [reflexivity | eexists; vm_compute; reflexivity]..|].
    apply elem_of_nil in Hn. destruct Hn.
  - decide_it.
Defined.


(** ** C2: rows of a bipartite partition table *)

(** C2 fails on the code.  On the star [graph_star] with the explicit
    layout [star_positions], the side-0 table lists node 2 before node 1 in
    ["names"], ["xs"] and ["ys"] (the order of the layout), while its
    attribute column ["w"] holds the weight of node 1 before the weight of
    node 2 (the iteration order of the set returned by
    [nx.bipartite.sets]): row 0 pairs node 2 with the weight of node 1. *)
Theorem bipartite_attribute_column_misaligned :
  ∃ s s1 fig s2 t,
    init Ref.collaborators graph_star 800 600 true true false = Ok s
    ∧ layout Ref.collaborators (Some star_positions) 0.8%float 50 (VInt 1) None s
      = Ok s1
    ∧ draw_default Ref.collaborators s1 = Ok (fig, s2)
    ∧ node_properties_lv0 s2 = Some t
    ∧ t !! "names" = Some [VInt 2; VInt 1]
    ∧ t !! "xs" = Some [VFloat 1%float; VFloat 1%float]
    ∧ t !! "ys" = Some [VFloat 0%float; VFloat 1%float]
    ∧ t !! "w" = Some [VInt 20; VInt 30]
    ∧ node_attr graph_star 2 "w" = Ok (VInt 30)
    ∧ node_attr graph_star 1 "w" = Ok (VInt 20).
Proof.
  pose (s := value_of (init Ref.collaborators graph_star 800 600 true true false)).
  pose (s1 := value_of (layout Ref.collaborators (Some star_positions)
                          0.8%float 50 (VInt 1) None s)).
  pose (r := value_of (draw_default Ref.collaborators s1)).
  exists s, s1, r.1, r.2, (default ∅ (node_properties_lv0 r.2)).
  split; [returned|]. split; [returned|]. split; [returned|].
  repeat (split; [run|]). run.
Qed.

(** * Further properties of the methods *)

(** ** The catalogs of [__init__] *)

Global Instance str_le_total : Total str_le.
Proof. intros s1 s2. apply String.leb_total. Qed.

Lemma sorted_Sorted (s : gset string) : Sorted str_le (sorted s).
Proof. apply Sorted_merge_sort. apply _. Qed.

Lemma sorted_NoDup (s : gset string) : NoDup (sorted s).
Proof.
  unfold sorted. rewrite (merge_sort_Permutation str_le (elements s)).
  apply NoDup_elements.
Qed.

Lemma sorted_nil_iff (s : gset string) : sorted s = [] ↔ s = ∅.
Proof.
  split.
  - intros H. apply set_eq. intros a. rewrite <- elem_of_sorted, H.
    rewrite elem_of_nil. set_solver.
  - intros ->. apply sorted_empty.
Qed.

(** What [side_data] returns, and when it raises. *)
Lemma side_data_Ok (k : Z) (nd l : list (node * gmap string value)) :
  side_data k nd = Ok l →
  (∀ p, p ∈ nd → is_Some (p.2 !! "bipartite"))
  ∧ ∀ p, p ∈ l ↔ p ∈ nd ∧ ∃ v, p.2 !! "bipartite" = Some v ∧ py_eq_int v k = true.
Proof.
  revert l. induction nd as [|[n data] nd IH]; intros l H; simpl in H.
  - injection H as <-. split; [intros p Hp; inversion Hp|].
    intros p. rewrite elem_of_nil. tauto.
  - ok_step H as v Hv. ok_step H as rest Hrest. injection H as <-.
    apply getattr_Ok in Hv. destruct (IH _ Hrest) as [IH1 IH2]. split.
    + intros p Hp. apply elem_of_cons in Hp as [->|Hp]; [eauto | auto].
    + intros p. destruct (py_eq_int v k) eqn:Hk.
      * rewrite !elem_of_cons, IH2. split.
        -- intros [->|[Hp Hv']]; [eauto | auto].
        -- intros [[->|Hp] Hv']; auto.
      * rewrite elem_of_cons, IH2. split.
        -- intros [Hp Hv']; auto.
        -- intros [[->|Hp] Hv']; [|auto].
           destruct Hv' as (v' & Hv' & Hk'). simpl in Hv'. congruence.
Qed.

Lemma side_data_total (k : Z) (nd : list (node * gmap string value)) :
  (∀ p, p ∈ nd → is_Some (p.2 !! "bipartite")) →
  ∃ l, side_data k nd = Ok l.
Proof.
  induction nd as [|[n data] nd IH]; intros H; simpl; [eauto|].
  destruct (H (n, data)) as [v Hv]; [left|]. simpl in Hv.
  unfold getattr. rewrite Hv. simpl.
  destruct IH as [l ->]; [intros p Hp; apply H; right; exact Hp|].
  simpl. eauto.
Qed.

Lemma side_data_Raise (k : Z) (nd : list (node * gmap string value)) p :
  p ∈ nd → p.2 !! "bipartite" = None → side_data k nd = Raise KeyError.
Proof.
  induction nd as [|[n data] nd IH]; intros Hin Hnone; [inversion Hin|].
  simpl. apply elem_of_cons in Hin as [->|Hin].
  - simpl in Hnone. unfold getattr. rewrite Hnone. reflexivity.
  - destruct (getattr_cases data "bipartite") as [->|[v ->]]; [reflexivity|].
    simpl. rewrite (IH Hin Hnone). reflexivity.
Qed.

(** X1.  The edge catalog and, in a graph that is not bipartite, the node
    catalog: increasing in the order of strings, without repetition, and
    holding exactly the keys some edge (some node) carries; so a catalog is
    empty exactly when no edge (no node) carries an attribute. *)
Theorem catalogs_sorted_union E g w h inl hn he self :
  init E g w h inl hn he = Ok self →
  Sorted str_le (edge_attributes self)
  ∧ NoDup (edge_attributes self)
  ∧ (∀ a, a ∈ edge_attributes self ↔
          ∃ e, e ∈ edges_data g ∧ is_Some (e.2 !! a))
  ∧ (edge_attributes self = [] ↔ ∀ e, e ∈ edges_data g → e.2 = ∅)
  ∧ Sorted str_le (node_attributes_lv0 self)
  ∧ NoDup (node_attributes_lv0 self)
  ∧ (truthy (bipartite self) = false →
     (∀ a, a ∈ node_attributes_lv0 self ↔
           ∃ p, p ∈ nodes_data g ∧ is_Some (p.2 !! a))
     ∧ (node_attributes_lv0 self = [] ↔ ∀ p, p ∈ nodes_data g → p.2 = ∅)).
Proof.
  intros Hinit.
  assert (Hkeys : ∀ {A} (l : list (A * gmap string value)) a,
            a ∈ sorted (attr_keys l.*2) ↔ ∃ p, p ∈ l ∧ is_Some (p.2 !! a)).
  { intros A l a. rewrite elem_of_sorted, elem_of_attr_keys. split.
    - intros (d & Hd & Ha). apply list_elem_of_fmap in Hd as (p & -> & Hp). eauto.
    - intros (p & Hp & Ha). exists p.2. split; [|exact Ha].
      apply list_elem_of_fmap. eauto. }
  assert (Hnil : ∀ {A} (l : list (A * gmap string value)),
            sorted (attr_keys l.*2) = [] ↔ ∀ p, p ∈ l → p.2 = ∅).
  { intros A l. split.
    - intros H p Hp. apply map_eq. intros a. rewrite lookup_empty.
      destruct (p.2 !! a) eqn:Ha; [|reflexivity].
      assert (Hin : a ∈ sorted (attr_keys l.*2)) by (apply Hkeys; eauto).
      rewrite H in Hin. inversion Hin.
    - intros H. apply sorted_nil_iff. apply set_eq. intros a.
      rewrite elem_of_attr_keys. split; [|set_solver].
      intros (d & Hd & [v Hv]). apply list_elem_of_fmap in Hd as (p & -> & Hp).
      rewrite (H p Hp), lookup_empty in Hv. discriminate. }
  pose proof (init_Ok _ _ _ _ _ _ _ _ Hinit)
    as (_ & _ & _ & _ & _ & _ & Hea & _ & _ & _ & Hna).
  rewrite Hea.
  split; [apply sorted_Sorted|]. split; [apply sorted_NoDup|].
  split; [apply Hkeys|]. split; [apply Hnil|].
  assert (Hs0 : ∃ s, node_attributes_lv0 self = sorted s).
  { unfold init in Hinit. ok_step Hinit as cats Hcats. injection Hinit as <-.
    cbn. destruct (truthy (bipartite_flag E g)).
    - ok_step Hcats as d0 Hd0. ok_step Hcats as d1 Hd1. injection Hcats as <-.
      eauto.
    - injection Hcats as <-. eauto. }
  destruct Hs0 as [s0 Hs0]. rewrite Hs0 at 1 2.
  split; [apply sorted_Sorted|]. split; [apply sorted_NoDup|].
  intros Hb. rewrite (Hna Hb). split; [apply Hkeys | apply Hnil].
Qed.

(** [catalogs_sorted_union] at [graph_uneven], whose catalogs are [["w"]]
    and [["a"]]. *)
Lemma catalogs_sorted_union_witness :
  ∃ self,
    init Ref.collaborators graph_uneven 800 600 true true false = Ok self
    ∧ Sorted str_le (edge_attributes self)
    ∧ NoDup (edge_attributes self)
    ∧ (∀ a, a ∈ edge_attributes self ↔
            ∃ e, e ∈ edges_data graph_uneven ∧ is_Some (e.2 !! a))
    ∧ (edge_attributes self = [] ↔ ∀ e, e ∈ edges_data graph_uneven → e.2 = ∅)
    ∧ Sorted str_le (node_attributes_lv0 self)
    ∧ NoDup (node_attributes_lv0 self)
    ∧ (truthy (bipartite self) = false →
       (∀ a, a ∈ node_attributes_lv0 self ↔
             ∃ p, p ∈ nodes_data graph_uneven ∧ is_Some (p.2 !! a))
       ∧ (node_attributes_lv0 self = [] ↔
          ∀ p, p ∈ nodes_data graph_uneven → p.2 = ∅)).
Proof.
  pose (self := value_of (init Ref.collaborators graph_uneven
                            800 600 true true false)).
  assert (H : init Ref.collaborators graph_uneven 800 600 true true false
              = Ok self) by returned.
  exists self. split; [exact H|].
  exact (catalogs_sorted_union _ _ _ _ _ _ _ _ H).
Defined.

(** X2.  In a graph flagged bipartite, [__init__] reads ["bipartite"] on every
    node: the side-0 catalog holds exactly the keys of the nodes whose value
    equals 0, the side-1 catalog those of the nodes whose value equals 1,
    equality being Python's ([False] and [0.0] equal 0).  A node with another
    value contributes to neither catalog. *)
Theorem side_catalogs E g w h inl hn he self :
  init E g w h inl hn he = Ok self →
  truthy (bipartite self) = true →
  (∀ p, p ∈ nodes_data g → is_Some (p.2 !! "bipartite"))
  ∧ (∀ a, a ∈ node_attributes_lv0 self ↔
          ∃ p v, p ∈ nodes_data g ∧ p.2 !! "bipartite" = Some v
                 ∧ py_eq_int v 0 = true ∧ is_Some (p.2 !! a))
  ∧ ∃ attrs1,
      node_attributes_lv1 self = Some attrs1
      ∧ Sorted str_le attrs1 ∧ NoDup attrs1
      ∧ ∀ a, a ∈ attrs1 ↔
             ∃ p v, p ∈ nodes_data g ∧ p.2 !! "bipartite" = Some v
                    ∧ py_eq_int v 1 = true ∧ is_Some (p.2 !! a).
Proof.
  intros Hinit Hb.
  pose proof (init_Ok _ _ _ _ _ _ _ _ Hinit) as (_ & Hflag & _).
  rewrite Hflag in Hb.
  unfold init in Hinit. ok_step Hinit as cats Hcats. injection Hinit as <-.
  cbn [node_attributes_lv0 node_attributes_lv1].
  rewrite Hb in Hcats. ok_step Hcats as d0 Hd0. ok_step Hcats as d1 Hd1.
  injection Hcats as <-. cbn [fst snd].
  apply side_data_Ok in Hd0 as [Hall H0]. apply side_data_Ok in Hd1 as [_ H1].
  assert (Hside : ∀ k d,
            (∀ p, p ∈ d ↔ p ∈ nodes_data g
                          ∧ ∃ v, p.2 !! "bipartite" = Some v ∧ py_eq_int v k = true) →
            ∀ a, a ∈ sorted (attr_keys d.*2) ↔
                 ∃ p v, p ∈ nodes_data g ∧ p.2 !! "bipartite" = Some v
                        ∧ py_eq_int v k = true ∧ is_Some (p.2 !! a)).
  { intros k d Hd a. rewrite elem_of_sorted, elem_of_attr_keys. split.
    - intros (data & Hin & Ha). apply list_elem_of_fmap in Hin as (p & -> & Hp).
      apply Hd in Hp as (Hp & v & Hv & Hk). eauto 10.
    - intros (p & v & Hp & Hv & Hk & Ha). exists p.2. split; [|exact Ha].
      apply list_elem_of_fmap. exists p. split; [reflexivity|].
      apply Hd. eauto. }
  split; [exact Hall|]. split; [apply Hside, H0|].
  eexists. split; [reflexivity|].
  split; [apply sorted_Sorted|]. split; [apply sorted_NoDup|]. apply Hside, H1.
Qed.

(** [side_catalogs] at [graph_star]. *)
Lemma side_catalogs_witness :
  ∃ self,
    init Ref.collaborators graph_star 800 600 true true false = Ok self
    ∧ truthy (bipartite self) = true
    ∧ (∀ p, p ∈ nodes_data graph_star → is_Some (p.2 !! "bipartite"))
    ∧ (∀ a, a ∈ node_attributes_lv0 self ↔
            ∃ p v, p ∈ nodes_data graph_star ∧ p.2 !! "bipartite" = Some v
                   ∧ py_eq_int v 0 = true ∧ is_Some (p.2 !! a))
    ∧ ∃ attrs1,
        node_attributes_lv1 self = Some attrs1
        ∧ Sorted str_le attrs1 ∧ NoDup attrs1
        ∧ ∀ a, a ∈ attrs1 ↔
               ∃ p v, p ∈ nodes_data graph_star ∧ p.2 !! "bipartite" = Some v
                      ∧ py_eq_int v 1 = true ∧ is_Some (p.2 !! a).
Proof.
  pose (self := value_of (init Ref.collaborators graph_star
                            800 600 true true false)).
  assert (H : init Ref.collaborators graph_star 800 600 true true false
              = Ok self) by returned.
  assert (Hb : truthy (bipartite self) = true) by run.
  exists self. split; [exact H|]. split; [exact Hb|].
  exact (side_catalogs _ _ _ _ _ _ _ _ H Hb).
Defined.

(** X3.  [__init__] returns for every graph not flagged bipartite; for a graph
    flagged bipartite it returns when every node carries the key
    ["bipartite"], and raises [KeyError] as soon as one node lacks it. *)
Theorem init_needs_side_key E g w h inl hn he :
  (truthy (bipartite_flag E g) = false → is_ok (init E g w h inl hn he) = true)
  ∧ (truthy (bipartite_flag E g) = true →
     (∀ p, p ∈ nodes_data g → is_Some (p.2 !! "bipartite")) →
     is_ok (init E g w h inl hn he) = true)
  ∧ (truthy (bipartite_flag E g) = true →
     ∀ p, p ∈ nodes_data g → p.2 !! "bipartite" = None →
     init E g w h inl hn he = Raise KeyError).
Proof.
  unfold init. split; [|split].
  - intros ->. reflexivity.
  - intros -> Hall.
    destruct (side_data_total 0 _ Hall) as [d0 ->].
    destruct (side_data_total 1 _ Hall) as [d1 ->]. reflexivity.
  - intros -> p Hp Hnone. rewrite (side_data_Raise 0 _ p Hp Hnone). reflexivity.
Qed.

(** ** [layout] and the coordinate caches *)

Lemma layout_tables E l sf it sc sd s s' :
  layout E l sf it sc sd s = Ok s' → tables s' = tables s.
Proof.
  unfold layout. cbn [bipartite graph set_edges set_nodes]. intros H.
  destruct (falsy l && negb (truthy (bipartite s)));
    [ok_step H as k Hk; ok_step H as pos Hpos; injection H as <-; reflexivity|].
  destruct (falsy l && truthy (bipartite s));
    [ok_step H as top Htop; ok_step H as pos Hpos; injection H as <-;
     reflexivity|].
  injection H as <-. reflexivity.
Qed.

(** X4.  Every successful [layout] call stores a layout, clears both coordinate
    caches and leaves the configuration and the stored tables alone.  With no
    explicit mapping, a graph that is not bipartite gets the spring solver's
    answer for [k = 1 / sqrt(n * shrink_factor)]; a bipartite graph gets the
    two-column solver's answer for the nodes whose ["bipartite"] equals 1,
    in node order, and the four numeric options play no part in it. *)
Theorem layout_effect E l sf it sc sd s s' :
  layout E l sf it sc sd s = Ok s' →
  _nodes s' = None ∧ _edges s' = None
  ∧ config s' = config s ∧ tables s' = tables s
  ∧ is_Some (_layout s')
  ∧ (falsy l = true → truthy (bipartite s) = false →
     ∃ k pos, spring_k (graph s) sf = Ok k
              ∧ nx_spring_layout E (graph s) k it sc sd = Ok pos
              ∧ _layout s' = Some pos)
  ∧ (falsy l = true → truthy (bipartite s) = true →
     (∃ top pos, side_data 1 (nodes_data (graph s)) = Ok top
                 ∧ nx_bipartite_layout E (graph s) top.*1 = Ok pos
                 ∧ _layout s' = Some pos)
     ∧ ∀ sf' it' sc' sd', layout E l sf' it' sc' sd' s = Ok s').
Proof.
  unfold layout. cbn [bipartite graph set_edges set_nodes]. intros H.
  destruct (falsy l) eqn:Hl; destruct (truthy (bipartite s)) eqn:Hb;
    cbn [andb negb] in H |- *.
  - ok_step H as top Htop. ok_step H as pos Hpos. injection H as <-.
    split_and!; try reflexivity; try discriminate; [cbn; eauto|].
    intros _ _. split; [exists top, pos; auto|].
    intros sf' it' sc' sd'. rewrite Htop. cbn [rbind]. rewrite Hpos. reflexivity.
  - ok_step H as k Hk. ok_step H as pos Hpos. injection H as <-.
    split_and!; try reflexivity; try discriminate; [cbn; eauto|].
    intros _ _. exists k, pos. auto.
  - injection H as <-. destruct l as [[|p l]|]; try discriminate.
    split_and!; try reflexivity; try discriminate. cbn; eauto.
  - injection H as <-. destruct l as [[|p l]|]; try discriminate.
    split_and!; try reflexivity; try discriminate. cbn; eauto.
Qed.

(** [layout_effect] at [graph_triangle], with no explicit mapping. *)
Lemma layout_effect_witness :
  ∃ s s',
    layout Ref.collaborators None 0.8%float 50 (VInt 1) None s = Ok s'
    ∧ _nodes s' = None ∧ _edges s' = None
    ∧ config s' = config s ∧ tables s' = tables s
    ∧ is_Some (_layout s')
    ∧ (falsy (None : option Layout) = true → truthy (bipartite s) = false →
       ∃ k pos, spring_k (graph s) 0.8%float = Ok k
                ∧ nx_spring_layout Ref.collaborators (graph s) k 50 (VInt 1) None
                  = Ok pos
                ∧ _layout s' = Some pos)
    ∧ (falsy (None : option Layout) = true → truthy (bipartite s) = true →
       (∃ top pos, side_data 1 (nodes_data (graph s)) = Ok top
                   ∧ nx_bipartite_layout Ref.collaborators (graph s) top.*1 = Ok pos
                   ∧ _layout s' = Some pos)
       ∧ ∀ sf' it' sc' sd',
           layout Ref.collaborators None sf' it' sc' sd' s = Ok s').
Proof.
  pose (s := value_of (init Ref.collaborators graph_triangle
                         800 600 true true false)).
  pose (s' := value_of (layout Ref.collaborators None 0.8%float 50 (VInt 1)
                          None s)).
  assert (H : layout Ref.collaborators None 0.8%float 50 (VInt 1) None s = Ok s')
    by returned.
  exists s, s'. split; [exact H|].
  exact (layout_effect _ _ _ _ _ _ _ _ H).
Defined.

Lemma ensure_layout_stored E s pos :
  _layout s = Some pos → pos ≠ [] → ensure_layout E s = Ok (pos, s).
Proof.
  intros Hl Hne. unfold ensure_layout. rewrite Hl.
  destruct pos; [contradiction|]. cbn. rewrite Hl. reflexivity.
Qed.

Lemma getitem_elem_of {V} (d : list (node * V)) (n : node) :
  getitem d n = Raise KeyError ↔ n ∉ d.*1.
Proof.
  induction d as [|[m v] d IH]; simpl.
  - split; [intros _; apply not_elem_of_nil | reflexivity].
  - rewrite not_elem_of_cons. destruct (decide (m = n)) as [->|Hne].
    + split; [discriminate | intros [? _]; congruence].
    + rewrite IH. split; [auto | tauto].
Qed.

Lemma gen_edge_coordinates_Ok E s e s' :
  gen_edge_coordinates E s = Ok (e, s') →
  ∃ pos,
    _layout s' = Some pos
    ∧ Forall2 (λ (edge : node * node) row,
                 ∃ pu pv, getitem pos edge.1 = Ok pu
                          ∧ getitem pos edge.2 = Ok pv
                          ∧ row = VList [VFloat pu.1; VFloat pv.1])
        (edges (graph s)) (xs e)
    ∧ Forall2 (λ (edge : node * node) row,
                 ∃ pu pv, getitem pos edge.1 = Ok pu
                          ∧ getitem pos edge.2 = Ok pv
                          ∧ row = VList [VFloat pu.2; VFloat pv.2])
        (edges (graph s)) (ys e).
Proof.
  intros H. unfold gen_edge_coordinates in H.
  ok_step H as p Hp. destruct p as [pos s1]. cbn [fst snd] in H.
  ok_step H as segs Hsegs. injection H as <- <-.
  pose proof (ensure_layout_config _ _ _ _ Hp) as [Hc Hl].
  apply config_eq in Hc as (Hg & _). rewrite Hg in Hsegs.
  exists pos. split; [exact Hl|].
  apply comprehension_Ok in Hsegs. cbn [xs ys].
  split; apply Forall2_fmap_r; (eapply Forall2_impl; [exact Hsegs|]);
    intros edge seg Hseg; cbn beta in Hseg;
    ok_step Hseg as pu Hpu; ok_step Hseg as pv Hpv; injection Hseg as <-;
    exists pu, pv; auto.
Qed.

(** X5.  [gen_edge_coordinates] gives one row per edge, in edge order: the row of
    an edge holds the coordinates its two endpoints have in the stored
    layout.  It raises [KeyError] when the stored layout misses an endpoint
    of some edge. *)
Theorem edge_coordinates_rows E s :
  (∀ e s',
     gen_edge_coordinates E s = Ok (e, s') →
     ∃ pos,
       _layout s' = Some pos
       ∧ Forall2 (λ (edge : node * node) row,
                    ∃ pu pv, getitem pos edge.1 = Ok pu
                             ∧ getitem pos edge.2 = Ok pv
                             ∧ row = VList [VFloat pu.1; VFloat pv.1])
           (edges (graph s)) (xs e)
       ∧ Forall2 (λ (edge : node * node) row,
                    ∃ pu pv, getitem pos edge.1 = Ok pu
                             ∧ getitem pos edge.2 = Ok pv
                             ∧ row = VList [VFloat pu.2; VFloat pv.2])
           (edges (graph s)) (ys e))
  ∧ (∀ pos edge,
       _layout s = Some pos → pos ≠ [] → edge ∈ edges (graph s) →
       edge.1 ∉ pos.*1 ∨ edge.2 ∉ pos.*1 →
       gen_edge_coordinates E s = Raise KeyError).
Proof.
  split.
  - intros e s' H. exact (gen_edge_coordinates_Ok _ _ _ _ H).
  - intros pos edge Hl Hne Hin Hmiss. unfold gen_edge_coordinates.
    rewrite (ensure_layout_stored E s pos Hl Hne). cbn [rbind fst snd].
    rewrite (comprehension_Raise _ _ KeyError); [reflexivity| |].
    + intros a _.
      destruct (getitem_cases pos a.1) as [->|[pu ->]]; [auto|]. cbn [rbind].
      destruct (getitem_cases pos a.2) as [->|[pv ->]]; [auto|]. cbn. eauto.
    + exists edge. split; [exact Hin|].
      destruct (getitem_cases pos edge.1) as [->|[pu Hpu]]; [reflexivity|].
      rewrite Hpu. cbn [rbind].
      destruct Hmiss as [Hm|Hm]; apply getitem_elem_of in Hm.
      * congruence.
      * rewrite Hm. reflexivity.
Qed.

Lemma stored_layout_coords E s pos :
  _layout s = Some pos → pos ≠ [] →
  ∃ coords,
    gen_node_coordinates E s = Ok (coords, s)
    ∧ name <$> coords = pos.*1
    ∧ x <$> coords = pos.*2.*1
    ∧ y <$> coords = pos.*2.*2.
Proof.
  intros Hl Hne. unfold gen_node_coordinates.
  rewrite (ensure_layout_stored E s pos Hl Hne). cbn [rbind fst snd].
  destruct pos as [|p pos]; [contradiction|]. cbn [unpack_zip_star rbind fst snd].
  eexists. split; [reflexivity|]. split; [apply coords_names|].
  rewrite zip_fst_snd, <- !list_fmap_compose. split; reflexivity.
Qed.

(** X6.  [gen_node_coordinates] on a stored layout that is not empty returns one
    entry per layout item, in the layout's order, with that item's name and
    position, and leaves the instance alone. *)
Theorem node_coordinates_follow_layout E s pos :
  _layout s = Some pos → pos ≠ [] →
  ∃ coords,
    gen_node_coordinates E s = Ok (coords, s)
    ∧ name <$> coords = pos.*1
    ∧ zip (x <$> coords) (y <$> coords) = pos.*2.
Proof.
  intros Hl Hne.
  destruct (stored_layout_coords E s pos Hl Hne) as (coords & H & Hn & Hx & Hy).
  exists coords. split; [exact H|]. split; [exact Hn|].
  rewrite Hx, Hy. apply zip_fst_snd.
Qed.

(** [node_coordinates_follow_layout] at [graph_star] with the mapping
    [star_positions] stored. *)
Lemma node_coordinates_follow_layout_witness :
  ∃ s,
    _layout s = Some star_positions
    ∧ star_positions ≠ []
    ∧ ∃ coords,
        gen_node_coordinates Ref.collaborators s = Ok (coords, s)
        ∧ name <$> coords = star_positions.*1
        ∧ zip (x <$> coords) (y <$> coords) = star_positions.*2.
Proof.
  pose (s := set_layout (Some star_positions)
               (value_of (init Ref.collaborators graph_star
                            800 600 true true false))).
  assert (H1 : _layout s = Some star_positions) by reflexivity.
  assert (H2 : star_positions ≠ []) by discriminate.
  exists s. split; [exact H1|]. split; [exact H2|].
  exact (node_coordinates_follow_layout Ref.collaborators s star_positions H1 H2).
Defined.

(** ** The edge table *)

Lemma own_rows_insert n key col (t : gmap string (list value)) :
  own_rows n t → length col = n → own_rows n (<[key := col]> t).
Proof.
  intros Ht Hcol k c Hk. destruct (decide (key = k)) as [->|Hne].
  - rewrite lookup_insert_eq in Hk. injection Hk as <-. auto.
  - rewrite lookup_insert_ne in Hk by exact Hne. apply Ht, Hk.
Qed.

Lemma own_rows_insert_output n key col (t : gmap string (list value)) :
  own_rows n t → key = "_colormap" ∨ key = "_edge_alpha" →
  own_rows n (<[key := col]> t).
Proof.
  intros Ht Hkey k c Hk Hn1 Hn2. destruct (decide (key = k)) as [->|Hne].
  - destruct Hkey; contradiction.
  - rewrite lookup_insert_ne in Hk by exact Hne. exact (Ht _ _ Hk Hn1 Hn2).
Qed.

Lemma own_rows_loop n skip mk attrs (t t' : gmap string (list value)) :
  (∀ attr col, mk attr = Ok col → length col = n) →
  own_rows n t →
  for_each (loop_body skip mk) attrs t = Ok t' →
  own_rows n t'.
Proof.
  intros Hmk Ht H. destruct (column_loop_Ok _ _ _ _ _ H) as [H1 H2].
  intros k c Hk Hn1 Hn2.
  destruct (decide (k ∈ attrs)) as [Hin|Hnin].
  - destruct (skip k) eqn:Hs.
    + rewrite H2 in Hk by auto. exact (Ht _ _ Hk Hn1 Hn2).
    + destruct (H1 k Hin Hs) as (col & Hcol & Hlook).
      rewrite Hlook in Hk. injection Hk as <-. eapply Hmk, Hcol.
  - rewrite H2 in Hk by auto. exact (Ht _ _ Hk Hn1 Hn2).
Qed.

Lemma resolve_color_rows E n color palette mc attrs t t' c :
  own_rows n t → resolve_color E color palette mc attrs t = Ok (t', c) →
  own_rows n t'.
Proof.
  intros Ht H. apply resolve_color_Ok in H as [H1 H2].
  destruct (decide (color ∈ attrs)) as [Hin|Hnin].
  - destruct (H1 Hin) as (_ & vals & cm & _ & _ & ->).
    apply own_rows_insert_output; auto.
  - destruct (H2 Hnin) as [_ ->]. exact Ht.
Qed.

Lemma resolve_alpha_rows E n ea mc attrs t t' alpha :
  own_rows n t → resolve_alpha E ea mc attrs t = Ok (t', alpha) →
  own_rows n t'.
Proof.
  intros Ht H. apply resolve_alpha_Ok in H as [->|[cm ->]]; [exact Ht|].
  apply own_rows_insert_output; auto.
Qed.

(** X7.  Starting from an empty coordinate cache, the edge table that
    [_render_edges] stores has one row per edge in every column other than
    the two colour map outputs (whose length is the colour map's business),
    and its identity columns, unless an attribute of the same name replaced
    them, list the first and the second endpoints in edge order. *)
Theorem edge_table_rows E fig ec ep es ea mc self fig' self' :
  _edges self = None →
  _render_edges E fig ec ep es ea mc self = Ok (fig', self') →
  ∃ t,
    edge_properties self' = Some t
    ∧ own_rows (length (edges_data (graph self))) t
    ∧ (edges_data (graph self) ≠ [] →
       ("_u" ∉ edge_attributes self →
        t !! "_u" = Some (VInt <$> (edges (graph self)).*1))
       ∧ ("_v" ∉ edge_attributes self →
          t !! "_v" = Some (VInt <$> (edges (graph self)).*2)))
    ∧ (edges_data (graph self) = [] →
       "_u" ∉ edge_attributes self → "_v" ∉ edge_attributes self →
       t !! "_u" = None ∧ t !! "_v" = None).
Proof.
  intros Hcache H. unfold _render_edges in H. rewrite Hcache in H.
  ok_step H as p Hp. ok_step Hp as r Hr. injection Hp as <-.
  destruct r as [e s1]. cbn [fst snd graph edge_attributes set_edges] in H.
  pose proof (gen_edge_coordinates_config _ _ _ _ Hr) as Hc.
  apply config_eq in Hc as (Hg & _ & _ & _ & _ & _ & _ & _ & Hea & _).
  destruct (gen_edge_coordinates_Ok _ _ _ _ Hr) as (pos & _ & Hxs & Hys).
  apply Forall2_length in Hxs, Hys.
  unfold edges in Hxs, Hys. rewrite length_fmap in Hxs, Hys.
  rewrite Hg, Hea in H. clear Hr Hg Hea.
  ok_step H as t1 Hid. ok_step H as t2 Hattrs. ok_step H as pc Hpc.
  ok_step H as pa Hpa. ok_step H as fig1 Hfig. injection H as <- <-.
  destruct pc as [t3 color], pa as [t4 alpha]. cbn [fst snd] in *.
  set (n := length (edges_data (graph self))) in *.
  assert (H0 : own_rows n (<["ys" := ys e]> (<["xs" := xs e]> ∅))).
  { apply own_rows_insert; [apply own_rows_insert|]; [|congruence..].
    intros k c Hk. rewrite lookup_empty in Hk. discriminate. }
  assert (Hrows1 : own_rows n t1).
  { apply edge_identity_columns_Ok in Hid as [[_ ->]|[_ ->]]; [exact H0|].
    apply own_rows_insert; [apply own_rows_insert|]; [exact H0|..];
      unfold edges; rewrite !length_fmap; reflexivity. }
  rewrite edge_attr_columns_loop in Hattrs.
  assert (Hrows2 : own_rows n t2).
  { eapply own_rows_loop; [|exact Hrows1|exact Hattrs].
    intros attr col Hcol. apply comprehension_length in Hcol. exact Hcol. }
  pose proof (resolve_color_rows _ _ _ _ _ _ _ _ _ Hrows2 Hpc) as Hrows3.
  pose proof (resolve_alpha_rows _ _ _ _ _ _ _ _ Hrows3 Hpa) as Hrows4.
  exists t4. split; [reflexivity|]. split; [exact Hrows4|].
  assert (Hkeep : ∀ key, key ∉ edge_attributes self → key ≠ "_colormap" →
                         key ≠ "_edge_alpha" → t4 !! key = t1 !! key).
  { intros key Hnin Hn1 Hn2.
    destruct (column_loop_Ok _ _ _ _ _ Hattrs) as [_ Hsame].
    transitivity (t3 !! key).
    { apply resolve_alpha_Ok in Hpa as [->|[cm ->]]; [reflexivity|].
      apply lookup_insert_ne. congruence. }
    transitivity (t2 !! key); [|apply Hsame; auto].
    apply resolve_color_Ok in Hpc as [Hpc1 Hpc2].
    destruct (decide (ec ∈ edge_attributes self)) as [Hin|Hnin'].
    - destruct (Hpc1 Hin) as (_ & vals & cm & _ & _ & ->).
      apply lookup_insert_ne. congruence.
    - destruct (Hpc2 Hnin') as [_ ->]. reflexivity. }
  apply edge_identity_columns_Ok in Hid as [[He ->]|[He ->]]; split.
  - intros Hne. exfalso. apply Hne. unfold edges in He.
    destruct (edges_data (graph self)); [reflexivity | discriminate].
  - intros _ Hu Hv. rewrite !Hkeep by (auto; discriminate).
    rewrite !lookup_insert_ne by discriminate. rewrite lookup_empty. auto.
  - intros _. split; intros Hk; rewrite Hkeep by (auto; discriminate).
    + rewrite lookup_insert_ne by discriminate. apply lookup_insert_eq.
    + apply lookup_insert_eq.
  - intros Hnil. exfalso. apply He. unfold edges. rewrite Hnil. reflexivity.
Qed.

(** [edge_table_rows] at [graph_triangle], drawn with the default edge
    options. *)
Lemma edge_table_rows_witness :
  ∃ self fig' self',
    _edges self = None
    ∧ _render_edges Ref.collaborators (prepare_figure self) "navy" "viridis"
        (VInt 1) (VFloat 0.3) (-1) self = Ok (fig', self')
    ∧ ∃ t,
        edge_properties self' = Some t
        ∧ own_rows (length (edges_data (graph self))) t
        ∧ (edges_data (graph self) ≠ [] →
           ("_u" ∉ edge_attributes self →
            t !! "_u" = Some (VInt <$> (edges (graph self)).*1))
           ∧ ("_v" ∉ edge_attributes self →
              t !! "_v" = Some (VInt <$> (edges (graph self)).*2)))
        ∧ (edges_data (graph self) = [] →
           "_u" ∉ edge_attributes self → "_v" ∉ edge_attributes self →
           t !! "_u" = None ∧ t !! "_v" = None).
Proof.
  pose (self := value_of (init Ref.collaborators graph_triangle
                            800 600 true true false)).
  pose (r := value_of (_render_edges Ref.collaborators (prepare_figure self)
                         "navy" "viridis" (VInt 1) (VFloat 0.3) (-1) self)).
  assert (H1 : _edges self = None) by run.
  assert (H2 : _render_edges Ref.collaborators (prepare_figure self) "navy"
                 "viridis" (VInt 1) (VFloat 0.3) (-1) self = Ok (r.1, r.2))
    by returned.
  exists self, r.1, r.2. split; [exact H1|]. split; [exact H2|].
  exact (edge_table_rows _ _ _ _ _ _ _ _ _ _ H1 H2).
Defined.

(** X8.  The colour and alpha keys of the edge glyph.  When [edge_color] names a
    catalog attribute, the line colour key is ["_colormap"] and that column
    is the colour map, for the requested palette, of a column of values,
    which are the edges' own values of the attribute; otherwise the key is
    [edge_color] itself.  When [edge_alpha] is the name of a catalog
    attribute, the alpha key is ["_edge_alpha"] and that column is the colour
    map for the palette ["numeric"], whatever [edge_palette] is; otherwise
    the alpha is passed through. *)
Theorem edge_color_alpha_keys E fig ec ep es ea mc self fig' self' :
  _render_edges E fig ec ep es ea mc self = Ok (fig', self') →
  ∃ t color alpha,
    edge_properties self' = Some t
    ∧ renderers fig' = renderers fig ++ [MultiLine color t alpha es]
    ∧ (ec ∈ edge_attributes self →
       color = "_colormap"
       ∧ ∃ vals cm,
           colormap_map E ep mc vals = Ok cm
           ∧ t !! "_colormap" = Some cm
           ∧ Forall2 (λ e v, e.2 !! ec = Some v) (edges_data (graph self)) vals)
    ∧ (ec ∉ edge_attributes self → color = ec)
    ∧ (∀ a, ea = VStr a → a ∈ edge_attributes self →
         alpha = VStr "_edge_alpha"
         ∧ ∃ vals cm,
             colormap_map E "numeric" mc vals = Ok cm
             ∧ t !! "_edge_alpha" = Some cm
             ∧ (a ≠ "_colormap" ∨ ec ∉ edge_attributes self →
                Forall2 (λ e v, e.2 !! a = Some v)
                  (edges_data (graph self)) vals))
    ∧ ((∀ a, ea = VStr a → a ∉ edge_attributes self) → alpha = ea).
Proof.
  unfold _render_edges. intros H.
  ok_step H as p Hp. destruct p as [e self1]. cbn [fst snd] in H.
  assert (Hc : config self1 = config self).
  { destruct (_edges self).
    - injection Hp as _ <-. reflexivity.
    - ok_step Hp as r Hr. injection Hp as _ <-. destruct r as [e' s1].
      apply gen_edge_coordinates_config in Hr. exact Hr. }
  clear Hp.
  apply config_eq in Hc as (Hg & _ & _ & _ & _ & _ & _ & _ & Hea & _).
  rewrite Hg, Hea in H. clear Hg Hea.
  ok_step H as t1 Hid. ok_step H as t2 Hattrs. ok_step H as pc Hpc.
  ok_step H as pa Hpa. ok_step H as fig1 Hfig. injection H as <- <-.
  destruct pc as [t3 color], pa as [t4 alpha]. cbn [fst snd] in *.
  apply edge_hover_tool_renderers in Hfig.
  rewrite edge_attr_columns_loop in Hattrs.
  destruct (column_loop_Ok _ _ _ _ _ Hattrs) as [Hcols _].
  assert (Hcol : ∀ a, a ∈ edge_attributes self →
            ∃ col, t2 !! a = Some col
                   ∧ Forall2 (λ e v, e.2 !! a = Some v)
                       (edges_data (graph self)) col).
  { intros a Hin. destruct (Hcols a Hin eq_refl) as (col & Hcol & Hlook).
    exists col. split; [exact Hlook|]. apply comprehension_Ok in Hcol.
    eapply Forall2_impl; [exact Hcol|]. intros e0 v. apply getattr_Ok. }
  pose proof (resolve_color_Ok _ _ _ _ _ _ _ _ Hpc) as [Hpc1 Hpc2].
  exists t4, color, alpha. split; [reflexivity|]. split; [exact Hfig|].
  split; [|split; [|split]].
  - intros Hin. destruct (Hpc1 Hin) as (-> & vals & cm & Hvals & Hcm & ->).
    split; [reflexivity|]. exists vals, cm. split; [exact Hcm|]. split.
    + apply resolve_alpha_Ok in Hpa as [->|[cm' ->]].
      * apply lookup_insert_eq.
      * rewrite lookup_insert_ne by discriminate. apply lookup_insert_eq.
    + destruct (Hcol ec Hin) as (col & Hlook & Hall). congruence.
  - intros Hnin. apply Hpc2, Hnin.
  - intros a -> Hin. unfold resolve_alpha in Hpa.
    rewrite bool_decide_eq_true_2 in Hpa by exact Hin.
    ok_step Hpa as vals Hvals. ok_step Hpa as cm Hcm. injection Hpa as <- <-.
    split; [reflexivity|]. exists vals, cm. split; [exact Hcm|].
    split; [apply lookup_insert_eq|]. intros Hcase.
    unfold table_getitem in Hvals.
    destruct (t3 !! a) as [col3|] eqn:H3; [|discriminate].
    injection Hvals as <-.
    destruct (Hcol a Hin) as (col & Hlook & Hall).
    destruct (decide (ec ∈ edge_attributes self)) as [Hec|Hec].
    + destruct (Hpc1 Hec) as (_ & vals' & cm' & _ & _ & ->).
      destruct Hcase as [Hne|Hne]; [|contradiction].
      rewrite lookup_insert_ne in H3 by congruence. congruence.
    + destruct (Hpc2 Hec) as [_ ->]. congruence.
  - intros Hno. unfold resolve_alpha in Hpa. destruct ea as [| |a| |];
      try (injection Hpa as _ <-; reflexivity).
    rewrite bool_decide_eq_false_2 in Hpa by (apply Hno; reflexivity).
    injection Hpa as _ <-. reflexivity.
Qed.

(** [edge_color_alpha_keys] at [graph_triangle], with the edge attribute
    ["w"] as colour and as alpha. *)
Lemma edge_color_alpha_keys_witness :
  ∃ self fig' self',
    _render_edges Ref.collaborators (prepare_figure self) "w" "viridis"
      (VInt 1) (VStr "w") (-1) self = Ok (fig', self')
    ∧ ∃ t color alpha,
        edge_properties self' = Some t
        ∧ renderers fig' =
            renderers (prepare_figure self) ++ [MultiLine color t alpha (VInt 1)]
        ∧ ("w" ∈ edge_attributes self →
           color = "_colormap"
           ∧ ∃ vals cm,
               colormap_map Ref.collaborators "viridis" (-1) vals = Ok cm
               ∧ t !! "_colormap" = Some cm
               ∧ Forall2 (λ e v, e.2 !! "w" = Some v)
                   (edges_data (graph self)) vals)
        ∧ ("w" ∉ edge_attributes self → color = "w")
        ∧ (∀ a, VStr "w" = VStr a → a ∈ edge_attributes self →
             alpha = VStr "_edge_alpha"
             ∧ ∃ vals cm,
                 colormap_map Ref.collaborators "numeric" (-1) vals = Ok cm
                 ∧ t !! "_edge_alpha" = Some cm
                 ∧ (a ≠ "_colormap" ∨ "w" ∉ edge_attributes self →
                    Forall2 (λ e v, e.2 !! a = Some v)
                      (edges_data (graph self)) vals))
        ∧ ((∀ a, VStr "w" = VStr a → a ∉ edge_attributes self) →
           alpha = VStr "w").
Proof.
  pose (self := value_of (init Ref.collaborators graph_triangle
                            800 600 true true false)).
  pose (r := value_of (_render_edges Ref.collaborators (prepare_figure self)
                         "w" "viridis" (VInt 1) (VStr "w") (-1) self)).
  assert (H : _render_edges Ref.collaborators (prepare_figure self) "w"
                "viridis" (VInt 1) (VStr "w") (-1) self = Ok (r.1, r.2))
    by returned.
  exists self, r.1, r.2. split; [exact H|].
  exact (edge_color_alpha_keys _ _ _ _ _ _ _ _ _ _ H).
Defined.

(** ** The node tables *)

(** X9.  The loop of lines 262-269 splits the coordinate entries by membership of
    their name in [nodes_lv0], keeping their order: the entries whose name is
    in the set fill the side-0 table, all the others the side-1 table, so
    every entry is in exactly one of the two. *)
Theorem partition_nodes_split (nodes_lv0 : list node) (coords : list node_coord) :
  partition_nodes nodes_lv0 coords
  = (partition_table (filter (λ nd, name nd ∈ nodes_lv0) coords),
     partition_table (filter (λ nd, name nd ∉ nodes_lv0) coords))
  ∧ filter (λ nd, name nd ∈ nodes_lv0) coords
    ++ filter (λ nd, name nd ∉ nodes_lv0) coords ≡ₚ coords.
Proof.
  split; [apply partition_nodes_tables|].
  induction coords as [|nd coords IH]; [reflexivity|].
  rewrite !filter_cons. destruct (decide (name nd ∈ nodes_lv0)) as [Hin|Hnin].
  - rewrite decide_False by (intros Hn; exact (Hn Hin)).
    cbn. constructor. exact IH.
  - rewrite decide_True by exact Hnin.
    rewrite <- Permutation_middle. constructor. exact IH.
Qed.


(** X10.  In a graph that is not bipartite the node table is consistent: every
    column other than ["_colormap"] has one row per coordinate entry, the
    identity column lists the entries' names in order, and the column of
    every materialised attribute holds, in each row, the value that row's
    own node has for the attribute. *)
Theorem single_table_aligned E fig na ns nc np mc self fig' self' :
  truthy (bipartite self) = false →
  _render_nodes E fig na ns nc np mc self = Ok (fig', self') →
  ∃ t coords,
    node_properties_lv0 self' = Some t
    ∧ _nodes self' = Some coords
    ∧ node_rows (length coords) t
    ∧ (¬ ("_node" ∈ node_attributes_lv0 self
          ∧ materialised (hover_nodes self) nc "_node") →
       t !! "_node" = Some (VInt <$> (name <$> coords)))
    ∧ ∀ attr, attr ∈ node_attributes_lv0 self →
        materialised (hover_nodes self) nc attr → attr ≠ "_colormap" →
        ∃ col, t !! attr = Some col
               ∧ Forall2 (λ c v, node_attr (graph self) (name c) attr = Ok v)
                   coords col.
Proof.
  intros Hb H.
  apply render_nodes_inv in H
    as (coords & members0 & base0 & side1 & t0a & t0 & c0
        & Hn & Hparts & Hloop & Hres & Ht0 & _).
  rewrite Hb in Hparts. destruct Hparts as (-> & -> & _).
  destruct (node_table_lookup _ _ _ _ _ _ _ _ _ _ _ _ Hloop Hres) as [Hattr Hbase].
  exists t0, coords. split; [exact Ht0|]. split; [exact Hn|]. split; [|split].
  - intros key col Hk Hne.
    destruct (decide (key ∈ node_attributes_lv0 self
                      ∧ materialised (hover_nodes self) nc key)) as [[Hin Hm]|Hnot].
    + destruct (Hattr key Hin Hm Hne) as (col' & Hk' & Hall).
      apply Forall2_length in Hall. rewrite length_fmap in Hall. congruence.
    + rewrite (Hbase key Hnot Hne) in Hk. unfold single_table in Hk.
      destruct (decide (key = "_node")) as [->|H1];
        [rewrite lookup_insert_eq in Hk; injection Hk as <-;
         rewrite !length_fmap; reflexivity|].
      rewrite lookup_insert_ne in Hk by congruence.
      destruct (decide (key = "ys")) as [->|H2];
        [rewrite lookup_insert_eq in Hk; injection Hk as <-;
         rewrite !length_fmap; reflexivity|].
      rewrite lookup_insert_ne in Hk by congruence.
      destruct (decide (key = "xs")) as [->|H3];
        [rewrite lookup_insert_eq in Hk; injection Hk as <-;
         rewrite !length_fmap; reflexivity|].
      rewrite lookup_insert_ne in Hk by congruence.
      rewrite lookup_empty in Hk. discriminate.
  - intros Hnot. rewrite (Hbase "_node" Hnot) by discriminate.
    apply lookup_insert_eq.
  - intros attr Hin Hm Hne. destruct (Hattr attr Hin Hm Hne) as (col & Hk & Hall).
    exists col. split; [exact Hk|]. apply Forall2_fmap_l in Hall. exact Hall.
Qed.

(** [single_table_aligned] at [graph_triangle], drawn with the default node
    options. *)
Lemma single_table_aligned_witness :
  ∃ self fig' self',
    truthy (bipartite self) = false
    ∧ _render_nodes Ref.collaborators (prepare_figure self) (VFloat 0.7)
        (VInt 9) "firebrick" "Category20" (-1) self = Ok (fig', self')
    ∧ ∃ t coords,
        node_properties_lv0 self' = Some t
        ∧ _nodes self' = Some coords
        ∧ node_rows (length coords) t
        ∧ (¬ ("_node" ∈ node_attributes_lv0 self
              ∧ materialised (hover_nodes self) "firebrick" "_node") →
           t !! "_node" = Some (VInt <$> (name <$> coords)))
        ∧ ∀ attr, attr ∈ node_attributes_lv0 self →
            materialised (hover_nodes self) "firebrick" attr →
            attr ≠ "_colormap" →
            ∃ col, t !! attr = Some col
                   ∧ Forall2 (λ c v, node_attr (graph self) (name c) attr = Ok v)
                       coords col.
Proof.
  pose (self := value_of (init Ref.collaborators graph_triangle
                            800 600 true true false)).
  pose (r := value_of (_render_nodes Ref.collaborators (prepare_figure self)
                         (VFloat 0.7) (VInt 9) "firebrick" "Category20" (-1)
                         self)).
  assert (H1 : truthy (bipartite self) = false) by run.
  assert (H2 : _render_nodes Ref.collaborators (prepare_figure self) (VFloat 0.7)
                 (VInt 9) "firebrick" "Category20" (-1) self = Ok (r.1, r.2))
    by returned.
  exists self, r.1, r.2. split; [exact H1|]. split; [exact H2|].
  exact (single_table_aligned _ _ _ _ _ _ _ _ _ _ H1 H2).
Defined.

(** X11.  In a bipartite graph the two kinds of column of a partition table follow
    two orders.  The coordinate and identity columns hold the coordinate
    entries in their own order, those whose name is in the second set of
    [nx.bipartite.sets] for side 0 and all the others for side 1.  An
    attribute column holds one value per element of the second set (of the
    first set, for side 1), in the iteration order of that set.  The rows of
    the two kinds belong to the same nodes when the names of the side's
    entries are the set in its iteration order. *)
Theorem bipartite_columns_order E fig na ns nc np mc self fig' self' :
  truthy (bipartite self) = true →
  _render_nodes E fig na ns nc np mc self = Ok (fig', self') →
  ∃ sets coords t0 t1 attrs1,
    nx_bipartite_sets E (graph self) = Ok sets
    ∧ _nodes self' = Some coords
    ∧ node_properties_lv0 self' = Some t0
    ∧ node_properties_lv1 self' = Some t1
    ∧ node_attributes_lv1 self = Some attrs1
    ∧ (∀ key, ¬ (key ∈ node_attributes_lv0 self
                 ∧ materialised (hover_nodes self) nc key) →
              key ≠ "_colormap" →
              t0 !! key
              = partition_table (filter (λ nd, name nd ∈ sets.2) coords) !! key)
    ∧ (∀ key, ¬ (key ∈ attrs1 ∧ materialised (hover_nodes self) nc key) →
              key ≠ "_colormap" →
              t1 !! key
              = partition_table (filter (λ nd, name nd ∉ sets.2) coords) !! key)
    ∧ (∀ attr, attr ∈ node_attributes_lv0 self →
               materialised (hover_nodes self) nc attr → attr ≠ "_colormap" →
               ∃ col, t0 !! attr = Some col
                      ∧ Forall2 (λ n v, node_attr (graph self) n attr = Ok v)
                          sets.2 col
                      ∧ (name <$> filter (λ nd, name nd ∈ sets.2) coords = sets.2 →
                         Forall2 (λ c v, node_attr (graph self) (name c) attr = Ok v)
                           (filter (λ nd, name nd ∈ sets.2) coords) col))
    ∧ (∀ attr, attr ∈ attrs1 →
               materialised (hover_nodes self) nc attr → attr ≠ "_colormap" →
               ∃ col, t1 !! attr = Some col
                      ∧ Forall2 (λ n v, node_attr (graph self) n attr = Ok v)
                          sets.1 col).
Proof.
  intros Hb H.
  apply render_nodes_inv in H
    as (coords & members0 & base0 & side1 & t0a & t0 & c0
        & Hn & Hparts & Hloop & Hres & Ht0 & Hside).
  rewrite Hb in Hparts. destruct Hparts as (sets & Hsets & -> & -> & ->).
  destruct Hside as (attrs1 & t1a & t1 & c1 & Ha1 & Hloop1 & Hres1 & Ht1).
  pose proof (partition_nodes_tables sets.2 coords) as Hsplit.
  rewrite Hsplit in Hloop, Hloop1. cbn [fst snd] in Hloop, Hloop1.
  destruct (node_table_lookup _ _ _ _ _ _ _ _ _ _ _ _ Hloop Hres) as [Hattr0 Hbase0].
  destruct (node_table_lookup _ _ _ _ _ _ _ _ _ _ _ _ Hloop1 Hres1) as [Hattr1 Hbase1].
  exists sets, coords, t0, t1, attrs1.
  split_and!; try assumption.
  intros attr Hin Hm Hne. destruct (Hattr0 attr Hin Hm Hne) as (col & Hk & Hall).
  exists col. split; [exact Hk|]. split; [exact Hall|].
  intros Hord. rewrite <- Hord in Hall. apply Forall2_fmap_l in Hall. exact Hall.
Qed.

(** [bipartite_columns_order] at [graph_star], drawn with the default node
    options. *)
Lemma bipartite_columns_order_witness :
  ∃ self fig' self',
    truthy (bipartite self) = true
    ∧ _render_nodes Ref.collaborators (prepare_figure self) (VFloat 0.7)
        (VInt 9) "firebrick" "Category20" (-1) self = Ok (fig', self')
    ∧ ∃ sets coords t0 t1 attrs1,
        nx_bipartite_sets Ref.collaborators (graph self) = Ok sets
        ∧ _nodes self' = Some coords
        ∧ node_properties_lv0 self' = Some t0
        ∧ node_properties_lv1 self' = Some t1
        ∧ node_attributes_lv1 self = Some attrs1
        ∧ (∀ key, ¬ (key ∈ node_attributes_lv0 self
                     ∧ materialised (hover_nodes self) "firebrick" key) →
                  key ≠ "_colormap" →
                  t0 !! key
                  = partition_table (filter (λ nd, name nd ∈ sets.2) coords)
                      !! key)
        ∧ (∀ key, ¬ (key ∈ attrs1
                     ∧ materialised (hover_nodes self) "firebrick" key) →
                  key ≠ "_colormap" →
                  t1 !! key
                  = partition_table (filter (λ nd, name nd ∉ sets.2) coords)
                      !! key)
        ∧ (∀ attr, attr ∈ node_attributes_lv0 self →
                   materialised (hover_nodes self) "firebrick" attr →
                   attr ≠ "_colormap" →
                   ∃ col, t0 !! attr = Some col
                          ∧ Forall2 (λ n v, node_attr (graph self) n attr = Ok v)
                              sets.2 col
                          ∧ (name <$> filter (λ nd, name nd ∈ sets.2) coords
                             = sets.2 →
                             Forall2 (λ c v, node_attr (graph self) (name c) attr
                                             = Ok v)
                               (filter (λ nd, name nd ∈ sets.2) coords) col))
        ∧ (∀ attr, attr ∈ attrs1 →
                   materialised (hover_nodes self) "firebrick" attr →
                   attr ≠ "_colormap" →
                   ∃ col, t1 !! attr = Some col
                          ∧ Forall2 (λ n v, node_attr (graph self) n attr = Ok v)
                              sets.1 col).
Proof.
  pose (self := value_of (init Ref.collaborators graph_star
                            800 600 true true false)).
  pose (r := value_of (_render_nodes Ref.collaborators (prepare_figure self)
                         (VFloat 0.7) (VInt 9) "firebrick" "Category20" (-1)
                         self)).
  assert (H1 : truthy (bipartite self) = true) by run.
  assert (H2 : _render_nodes Ref.collaborators (prepare_figure self) (VFloat 0.7)
                 (VInt 9) "firebrick" "Category20" (-1) self = Ok (r.1, r.2))
    by returned.
  exists self, r.1, r.2. split; [exact H1|]. split; [exact H2|].
  exact (bipartite_columns_order _ _ _ _ _ _ _ _ _ _ H1 H2).
Defined.

(** ** The figure *)

Lemma ensure_layout_tables E s pos s' :
  ensure_layout E s = Ok (pos, s') → tables s' = tables s.
Proof.
  unfold ensure_layout. intros H. ok_step H as s1 Hs1.
  destruct (_layout s1); [|discriminate]. injection H as _ <-.
  destruct (falsy (_layout s)).
  - apply layout_tables in Hs1. exact Hs1.
  - injection Hs1 as <-. reflexivity.
Qed.

Lemma node_hover_tools_chrome (s : BokehGraph) (g0 : renderer)
    (g1 : option renderer) (fig fig' : Figure) :
  node_hover_tools s g0 g1 fig = Ok fig' → chrome fig' = chrome fig.
Proof.
  unfold node_hover_tools. intros H.
  destruct (hover_nodes s); [|injection H as <-; reflexivity].
  destruct (_node_tooltips_lv0 s); [|discriminate].
  destruct g1; [|injection H as <-; reflexivity].
  destruct (_node_tooltips_lv1 s); [|discriminate].
  injection H as <-. reflexivity.
Qed.

Lemma render_nodes_frame E fig na ns nc np mc self fig' self' :
  _render_nodes E fig na ns nc np mc self = Ok (fig', self') →
  chrome fig' = chrome fig ∧ edge_properties self' = edge_properties self.
Proof.
  unfold _render_nodes. intros H.
  ok_step H as p Hp. destruct p as [coords self1].
  assert (Ht : tables self1 = tables self).
  { unfold node_coordinates in Hp. destruct (falsy (_nodes self)).
    - ok_step Hp as r Hr. injection Hp as _ <-. destruct r as [c s1].
      unfold gen_node_coordinates in Hr. ok_step Hr as q Hq.
      destruct q as [pos s2]. ok_step Hr as nc0 Hnc. injection Hr as _ <-.
      apply ensure_layout_tables in Hq. exact Hq.
    - injection Hp as _ <-. reflexivity. }
  clear Hp. cbn [fst snd] in H.
  ok_step H as parts Hparts. ok_step H as lv0a Hlv0.
  ok_step H as lv1a Hlv1. ok_step H as r0 Hr0. ok_step H as r1 Hr1.
  ok_step H as fig1 Hfig. injection H as <- <-.
  unfold tables in Ht. injection Ht as _ _ He.
  split.
  - apply node_hover_tools_chrome in Hfig. rewrite Hfig.
    unfold node_glyphs. cbn [fst snd]. destruct r1.1; reflexivity.
  - destruct r1.1; cbn; exact He.
Qed.

Lemma edge_hover_tool_Ok (s : BokehGraph) (r : renderer) (fig fig' : Figure) :
  edge_hover_tool s r fig = Ok fig' →
  chrome fig' = chrome fig
  ∧ ((hover_edges s = false ∧ hover_tools fig' = hover_tools fig)
     ∨ (hover_edges s = true
        ∧ ∃ tips, _edge_tooltips s = Some tips
                  ∧ hover_tools fig' =
                      hover_tools fig
                      ++ [{| tooltips := tips; formatters := printf_formatter tips;
                             hover_renderers := [r];
                             placement := ("line_policy", "interp") |}])).
Proof.
  unfold edge_hover_tool. intros H. destruct (hover_edges s).
  - destruct (_edge_tooltips s) as [tips|]; [|discriminate].
    injection H as <-. split; [reflexivity|]. right. eauto.
  - injection H as <-. split; [reflexivity|]. left. auto.
Qed.

Lemma render_edges_figure E fig ec ep es ea mc self fig' self' :
  _render_edges E fig ec ep es ea mc self = Ok (fig', self') →
  ∃ te color alpha tools,
    edge_properties self' = Some te
    ∧ config self' = config self
    ∧ chrome fig' = chrome fig
    ∧ renderers fig' = renderers fig ++ [MultiLine color te alpha es]
    ∧ hover_tools fig' = hover_tools fig ++ tools
    ∧ length tools = (if hover_edges self then 1 else 0)%nat
    ∧ ∀ tool, tool ∈ tools →
        hover_renderers tool = [MultiLine color te alpha es].
Proof.
  unfold _render_edges. intros H.
  ok_step H as p Hp. destruct p as [e self1]. cbn [fst snd] in H.
  assert (Hc : config self1 = config self).
  { destruct (_edges self).
    - injection Hp as _ <-. reflexivity.
    - ok_step Hp as r Hr. injection Hp as _ <-. destruct r as [e' s1].
      apply gen_edge_coordinates_config in Hr. exact Hr. }
  clear Hp.
  ok_step H as t1 Hid. ok_step H as t2 Hattrs. ok_step H as pc Hpc.
  ok_step H as pa Hpa. ok_step H as fig1 Hfig. injection H as <- <-.
  destruct pc as [t3 color], pa as [t4 alpha]. cbn [fst snd] in *.
  pose proof (edge_hover_tool_renderers _ _ _ _ Hfig) as Hrend.
  apply edge_hover_tool_Ok in Hfig as [Hch Htools].
  pose proof Hc as Hc'.
  apply config_eq in Hc as (_ & _ & _ & Hhe & _).
  cbn [hover_edges set_edge_properties] in Htools. rewrite Hhe in Htools.
  destruct Htools as [[Hf Ht]|[Ht (tips & _ & Htool)]].
  - exists t4, color, alpha, []. rewrite Hf, app_nil_r.
    split_and!; try done. intros tool Hin. inversion Hin.
  - exists t4, color, alpha,
      [{| tooltips := tips; formatters := printf_formatter tips;
          hover_renderers := [MultiLine color t4 alpha es];
          placement := ("line_policy", "interp") |}].
    rewrite Ht. split_and!; try done.
    intros tool Hin. apply list_elem_of_singleton in Hin as ->. reflexivity.
Qed.

Lemma node_tools_shape (s : BokehGraph) (g0 : renderer) (g1 : option renderer) :
  (hover_nodes s = true → is_Some (_node_tooltips_lv0 s)) →
  (hover_nodes s = true → is_Some g1 → is_Some (_node_tooltips_lv1 s)) →
  length (node_tools s g0 g1) =
    (if hover_nodes s then match g1 with Some _ => 2 | None => 1 end else 0)%nat
  ∧ ∀ tool, tool ∈ node_tools s g0 g1 →
      ∃ r, hover_renderers tool = [r] ∧ r ∈ g0 :: option_list g1.
Proof.
  unfold node_tools. intros H0 H1. destruct (hover_nodes s).
  2:{ split; [reflexivity|]. intros tool Hin. inversion Hin. }
  destruct (H0 eq_refl) as [tips0 ->].
  destruct g1 as [r1|].
  - destruct (H1 eq_refl (mk_is_Some _ _ eq_refl)) as [tips1 ->].
    split; [reflexivity|]. intros tool Hin.
    apply elem_of_cons in Hin as [->|Hin].
    + exists g0. split; [reflexivity|]. apply elem_of_cons. left. reflexivity.
    + apply list_elem_of_singleton in Hin as ->. exists r1.
      split; [reflexivity|]. cbn. apply elem_of_cons. right.
      apply elem_of_cons. left. reflexivity.
  - split; [destruct (_node_tooltips_lv1 s); reflexivity|]. intros tool Hin.
    assert (Hin' : tool ∈ [hover_tool_for tips0 g0]).
    { destruct (_node_tooltips_lv1 s); exact Hin. }
    apply list_elem_of_singleton in Hin' as ->. exists g0.
    split; [reflexivity|]. apply elem_of_cons. left. reflexivity.
Qed.

Lemma render_nodes_tooltips E fig na ns nc np mc self fig' self' :
  _render_nodes E fig na ns nc np mc self = Ok (fig', self') →
  hover_nodes self = true →
  is_Some (_node_tooltips_lv0 self)
  ∧ (truthy (bipartite self) = true → is_Some (_node_tooltips_lv1 self)).
Proof.
  unfold _render_nodes. intros H Hhover.
  ok_step H as p Hp. destruct p as [coords self1].
  pose proof (node_coordinates_config _ _ _ _ Hp) as Hc. clear Hp.
  cbn [fst snd] in H.
  ok_step H as parts Hparts. ok_step H as lv0a Hlv0.
  ok_step H as lv1a Hlv1. ok_step H as r0 Hr0. ok_step H as r1 Hr1.
  ok_step H as fig1 Hfig. injection H as _ _.
  destruct r0 as [t0 c0], r1 as [lv1 c1]. cbn [fst snd] in *.
  apply node_hover_tools_Ok in Hfig as (_ & H0 & H1).
  apply config_eq in Hc as (Hg & Hb & Hhn & _ & Ha0 & Ha1 & Ht0 & Ht1 & _).
  assert (H0' : is_Some (_node_tooltips_lv0 self)).
  { rewrite <- Ht0. destruct lv1; apply H0; cbn; congruence. }
  assert (H1' : is_Some (node_glyphs c1 na ns t0 lv1).2 →
                is_Some (_node_tooltips_lv1 self)).
  { intros Hs. rewrite <- Ht1. destruct lv1; apply H1; cbn; try congruence;
      exact Hs. }
  clear H0 H1.
  split; [exact H0'|]. intros Hbip. apply H1'.

  unfold node_tables in Hparts. unfold side1_attr_columns in Hlv1.
  unfold side1_color in Hr1. rewrite Hb, Hbip in Hparts.
  ok_step Hparts as sets Hsets. injection Hparts as <-. cbn [fst snd] in *.
  destruct (node_attributes_lv1 self1) as [attrs1|]; [|discriminate].
  ok_step Hlv1 as t1a Ht1a. injection Hlv1 as <-.
  ok_step Hr1 as r Hr. injection Hr1 as <- _.
  unfold node_glyphs. cbn. eauto.
Qed.

(** X12.  The figure [render] returns: the size of the instance and the four
    tools; the edge glyph first, then the circle glyph of the side-0 (or
    only) node table and, exactly in a bipartite graph, the square glyph of
    the side-1 table, each reading the table stored in the instance; and one
    hover tool per glyph whose hover flag is set, attached to that glyph. *)
Theorem render_figure E nc np ns na ec ep es ea mc self fig self' :
  render E nc np ns na ec ep es ea mc self = Ok (fig, self') →
  chrome fig = (width self, height self, ["box_zoom"; "reset"; "wheel_zoom"; "pan"])
  ∧ ∃ te t0 lv1 color alpha,
      edge_properties self' = Some te
      ∧ node_properties_lv0 self' = Some t0
      ∧ (∀ t1, lv1 = Some t1 → node_properties_lv1 self' = Some t1)
      ∧ (is_Some lv1 ↔ truthy (bipartite self) = true)
      ∧ renderers fig =
          MultiLine color te alpha es
          :: Scatter Circle (final_color self nc) (final_color self nc) t0 na ns
          :: option_list
               ((λ t1, Scatter Square (final_color self nc) (final_color self nc)
                         t1 na ns) <$> lv1)
      ∧ length (hover_tools fig) =
          ((if hover_edges self then 1 else 0)
           + (if hover_nodes self
              then (if truthy (bipartite self) then 2 else 1) else 0))%nat
      ∧ ∀ tool, tool ∈ hover_tools fig →
          ∃ r, hover_renderers tool = [r] ∧ r ∈ renderers fig.
Proof.
  unfold render. intros H.
  ok_step H as r Hedges. destruct r as [fig1 self1]. cbn [fst snd] in H.
  pose proof (render_nodes_frame _ _ _ _ _ _ _ _ _ _ H) as [Hchrome He].
  pose proof (render_edges_figure _ _ _ _ _ _ _ _ _ _ Hedges)
    as (te & color & alpha & etools & Hte & Hc & Hch1 & Hrend1 & Htools1
        & Hlen1 & Hetools).
  pose proof (render_nodes_tooltips _ _ _ _ _ _ _ _ _ _ H) as Htips.
  apply config_eq in Hc as (Hg & Hb & Hhn & Hhe & Ha0 & Ha1 & Htt0 & Htt1 & _).
  pose proof (render_nodes_spec _ _ _ _ _ _ _ _ _ _ H)
    as (t0 & lv1 & Ht0 & _ & _ & _ & Hrend & Htools & Hlv1).
  assert (Hfc : final_color self1 nc = final_color self nc).
  { unfold final_color. rewrite Hb, Ha0, Ha1. reflexivity. }
  rewrite Hfc in Hrend, Htools. rewrite Hb in Hlv1.
  assert (Hnt : ∀ g0 g1, node_tools self1 g0 g1 = node_tools self g0 g1).
  { intros g0 g1. unfold node_tools. rewrite Hhn, Htt0, Htt1. reflexivity. }
  rewrite Hnt in Htools. rewrite Hhn, Hb, Htt0, Htt1 in Htips.
  assert (Hsome : is_Some lv1 ↔ truthy (bipartite self) = true).
  { destruct (truthy (bipartite self)).
    - destruct Hlv1 as (attrs1 & t1' & -> & _). split; eauto.
    - subst lv1. split; [intros [? ?]; discriminate | discriminate]. }
  split; [rewrite Hchrome, Hch1; reflexivity|].
  exists te, t0, lv1, color, alpha.
  split; [rewrite He; exact Hte|]. split; [exact Ht0|].
  split.
  { intros t1 ->. destruct (truthy (bipartite self)).
    - destruct Hlv1 as (attrs1 & t1' & Heq & _ & Hp1 & _). congruence.
    - discriminate. }
  split; [exact Hsome|].
  rewrite Hrend1 in Hrend. cbn in Hrend. split; [exact Hrend|].
  set (g0 := Scatter Circle (final_color self nc) (final_color self nc) t0 na ns)
    in *.
  set (g1 := (λ t1, Scatter Square (final_color self nc) (final_color self nc)
                      t1 na ns) <$> lv1) in *.
  unfold node_glyphs in Htools. cbn [fst snd] in Htools. fold g0 g1 in Htools.
  destruct (node_tools_shape self g0 g1) as [Hlen Hattached].
  { intros Hh. apply Htips, Hh. }
  { intros Hh Hg1. apply Htips; [exact Hh|]. apply Hsome.
    unfold g1 in Hg1. destruct lv1; [eauto|]. destruct Hg1; discriminate. }
  split.
  - rewrite Htools, Htools1, !length_app, Hlen1, Hlen. cbn [length hover_tools prepare_figure].
    f_equal. destruct (hover_nodes self); [|reflexivity].
    destruct (truthy (bipartite self)).
    + destruct Hlv1 as (attrs1 & t1' & Heq & _). unfold g1. rewrite Heq.
      reflexivity.
    + unfold g1. rewrite Hlv1. reflexivity.
  - intros tool Hin. rewrite Htools, Htools1 in Hin. rewrite Hrend.
    apply elem_of_app in Hin as [Hin|Hin].
    + apply elem_of_app in Hin as [Hin|Hin]; [inversion Hin|].
      exists (MultiLine color te alpha es). split; [apply Hetools, Hin|].
      apply elem_of_cons. left. reflexivity.
    + destruct (Hattached tool Hin) as (r & Hr & Hrin). exists r.
      split; [exact Hr|]. apply elem_of_cons. right. exact Hrin.
Qed.

(** [render_figure] at [graph_star], drawn with the default options. *)
Lemma render_figure_witness :
  ∃ self fig self',
    render Ref.collaborators "firebrick" "Category20" (VInt 9) (VFloat 0.7)
      "navy" "viridis" (VInt 1) (VFloat 0.3) (-1) self = Ok (fig, self')
    ∧ chrome fig
      = (width self, height self, ["box_zoom"; "reset"; "wheel_zoom"; "pan"])
    ∧ ∃ te t0 lv1 color alpha,
        edge_properties self' = Some te
        ∧ node_properties_lv0 self' = Some t0
        ∧ (∀ t1, lv1 = Some t1 → node_properties_lv1 self' = Some t1)
        ∧ (is_Some lv1 ↔ truthy (bipartite self) = true)
        ∧ renderers fig =
            MultiLine color te alpha (VInt 1)
            :: Scatter Circle (final_color self "firebrick")
                 (final_color self "firebrick") t0 (VFloat 0.7) (VInt 9)
            :: option_list
                 ((λ t1, Scatter Square (final_color self "firebrick")
                           (final_color self "firebrick") t1 (VFloat 0.7)
                           (VInt 9)) <$> lv1)
        ∧ length (hover_tools fig) =
            ((if hover_edges self then 1 else 0)
             + (if hover_nodes self
                then (if truthy (bipartite self) then 2 else 1) else 0))%nat
        ∧ ∀ tool, tool ∈ hover_tools fig →
            ∃ r, hover_renderers tool = [r] ∧ r ∈ renderers fig.
Proof.
  pose (self := value_of (init Ref.collaborators graph_star
                            800 600 true true false)).
  pose (r := value_of (render Ref.collaborators "firebrick" "Category20"
                         (VInt 9) (VFloat 0.7) "navy" "viridis" (VInt 1)
                         (VFloat 0.3) (-1) self)).
  assert (H : render Ref.collaborators "firebrick" "Category20" (VInt 9)
                (VFloat 0.7) "navy" "viridis" (VInt 1) (VFloat 0.3) (-1) self
              = Ok (r.1, r.2)) by returned.
  exists self, r.1, r.2. split; [exact H|].
  exact (render_figure _ _ _ _ _ _ _ _ _ _ _ _ _ H).
Defined.

(** ** The columns of the edge table and the fields of the tooltips *)

Lemma resolve_alpha_dom E ea mc attrs (t t' : gmap string (list value)) alpha :
  resolve_alpha E ea mc attrs t = Ok (t', alpha) →
  ∀ key, key ∈ dom t' ↔
         key ∈ dom t ∨ (key = "_edge_alpha" ∧ ∃ a, ea = VStr a ∧ a ∈ attrs).
Proof.
  unfold resolve_alpha. intros H key.
  destruct ea as [n|f|a|b|l]; try (injection H as <- <-; split; [auto|];
    intros [?|(_ & a' & Ha & _)]; [assumption | discriminate]).
  case_bool_decide as Hin.
  - ok_step H as vals Hv. ok_step H as cm Hcm. injection H as <- <-.
    rewrite dom_insert, elem_of_union, elem_of_singleton. split.
    + intros [->|?]; [right; eauto | auto].
    + intros [?|[-> _]]; auto.
  - injection H as <- <-. split; [auto|].
    intros [?|(_ & a' & Ha & Hin')]; [assumption|].
    injection Ha as <-. contradiction.
Qed.

Lemma render_edges_dom E fig ec ep es ea mc self fig' self' :
  _render_edges E fig ec ep es ea mc self = Ok (fig', self') →
  ∃ t,
    edge_properties self' = Some t
    ∧ ∀ key, key ∈ dom t ↔
        key = "xs" ∨ key = "ys"
        ∨ (edges (graph self) ≠ [] ∧ (key = "_u" ∨ key = "_v"))
        ∨ key ∈ edge_attributes self
        ∨ (key = "_colormap" ∧ ec ∈ edge_attributes self)
        ∨ (key = "_edge_alpha" ∧ ∃ a, ea = VStr a ∧ a ∈ edge_attributes self).
Proof.
  unfold _render_edges. intros H.
  ok_step H as p Hp. destruct p as [e self1]. cbn [fst snd] in H.
  assert (Hc : config self1 = config self).
  { destruct (_edges self).
    - injection Hp as _ <-. reflexivity.
    - ok_step Hp as r Hr. injection Hp as _ <-. destruct r as [e' s1].
      apply gen_edge_coordinates_config in Hr. exact Hr. }
  clear Hp.
  ok_step H as t1 Hid. ok_step H as t2 Hattrs. ok_step H as pc Hpc.
  ok_step H as pa Hpa. ok_step H as fig1 Hfig. injection H as _ <-.
  destruct pc as [t3 color], pa as [t4 alpha]. cbn [fst snd] in *.
  apply config_eq in Hc as (Hg & _ & _ & _ & _ & _ & _ & _ & Hea & _).
  rewrite ?Hg, ?Hea in *. clear Hg Hea.
  exists t4. split; [reflexivity|]. intros key.
  rewrite (resolve_alpha_dom _ _ _ _ _ _ _ Hpa key).
  rewrite (resolve_color_dom _ _ _ _ _ _ _ _ Hpc).
  rewrite edge_attr_columns_loop in Hattrs.
  rewrite (column_loop_dom _ _ _ _ _ Hattrs).
  rewrite !elem_of_union, elem_of_kept.
  assert (Hbase : key ∈ dom t1 ↔
                  key = "xs" ∨ key = "ys"
                  ∨ (edges (graph self) ≠ [] ∧ (key = "_u" ∨ key = "_v"))).
  { apply edge_identity_columns_Ok in Hid as [[He ->]|[He ->]].
    - rewrite !dom_insert, dom_empty. set_solver.
    - rewrite !dom_insert, dom_empty. set_solver. }
  rewrite Hbase. case_decide as Hec.
  - rewrite elem_of_singleton. tauto.
  - rewrite elem_of_empty. tauto.
Qed.

(** X13.  The columns of the edge table that [_render_edges] stores are exactly:
    the two coordinate columns; the identity columns ["_u"] and ["_v"] when
    the graph has an edge; one column per edge attribute; ["_colormap"] when
    [edge_color] names an edge attribute; and ["_edge_alpha"] when
    [edge_alpha] is the name of an edge attribute. *)
Theorem edge_table_columns E fig ec ep es ea mc self fig' self' :
  _render_edges E fig ec ep es ea mc self = Ok (fig', self') →
  ∃ t,
    edge_properties self' = Some t
    ∧ ∀ key, is_Some (t !! key) ↔
        key = "xs" ∨ key = "ys"
        ∨ (edges_data (graph self) ≠ [] ∧ (key = "_u" ∨ key = "_v"))
        ∨ key ∈ edge_attributes self
        ∨ (key = "_colormap" ∧ ec ∈ edge_attributes self)
        ∨ (key = "_edge_alpha" ∧ ∃ a, ea = VStr a ∧ a ∈ edge_attributes self).
Proof.
  intros H. destruct (render_edges_dom _ _ _ _ _ _ _ _ _ _ H) as (t & Ht & Hdom).
  exists t. split; [exact Ht|]. intros key. rewrite <- elem_of_dom, Hdom.
  assert (He : edges (graph self) ≠ [] ↔ edges_data (graph self) ≠ []).
  { unfold edges. destruct (edges_data (graph self)); cbn; split; congruence. }
  rewrite He. reflexivity.
Qed.

(** [edge_table_columns] at [graph_triangle], with the edge attribute ["w"]
    as colour and as alpha. *)
Lemma edge_table_columns_witness :
  ∃ self fig' self',
    _render_edges Ref.collaborators (prepare_figure self) "w" "viridis"
      (VInt 1) (VStr "w") (-1) self = Ok (fig', self')
    ∧ ∃ t,
        edge_properties self' = Some t
        ∧ ∀ key, is_Some (t !! key) ↔
            key = "xs" ∨ key = "ys"
            ∨ (edges_data (graph self) ≠ [] ∧ (key = "_u" ∨ key = "_v"))
            ∨ key ∈ edge_attributes self
            ∨ (key = "_colormap" ∧ "w" ∈ edge_attributes self)
            ∨ (key = "_edge_alpha"
               ∧ ∃ a, VStr "w" = VStr a ∧ a ∈ edge_attributes self).
Proof.
  pose (self := value_of (init Ref.collaborators graph_triangle
                            800 600 true true false)).
  pose (r := value_of (_render_edges Ref.collaborators (prepare_figure self)
                         "w" "viridis" (VInt 1) (VStr "w") (-1) self)).
  assert (H : _render_edges Ref.collaborators (prepare_figure self) "w"
                "viridis" (VInt 1) (VStr "w") (-1) self = Ok (r.1, r.2))
    by returned.
  exists self, r.1, r.2. split; [exact H|].
  exact (edge_table_columns _ _ _ _ _ _ _ _ _ _ H).
Defined.

Lemma init_edge_tooltips E g w h inl hn he self :
  init E g w h inl hn he = Ok self →
  _edge_tooltips self
  = (if he then Some (edge_tooltips (edge_attributes self)) else None).
Proof.
  unfold init. intros H. ok_step H as cats Hcats. injection H as <-. reflexivity.
Qed.

Lemma elem_of_attr_tooltips (attrs : list string) (tip : string * string) :
  tip ∈ attr_tooltips attrs ↔ ∃ a, a ∈ attrs ∧ tip = (a, "@" +:+ a).
Proof.
  unfold attr_tooltips. rewrite list_elem_of_fmap. split.
  - intros (a & -> & Hin). eauto.
  - intros (a & Hin & ->). eauto.
Qed.

Lemma render_edges_tools E fig ec ep es ea mc self fig' self' :
  _render_edges E fig ec ep es ea mc self = Ok (fig', self') →
  ∃ te,
    edge_properties self' = Some te
    ∧ ∀ tool, tool ∈ hover_tools fig' →
        tool ∈ hover_tools fig
        ∨ (hover_edges self = true
           ∧ _edge_tooltips self = Some (tooltips tool)
           ∧ ∃ r, hover_renderers tool = [r] ∧ source_of r = te).
Proof.
  unfold _render_edges. intros H.
  ok_step H as p Hp. destruct p as [e self1]. cbn [fst snd] in H.
  assert (Hc : config self1 = config self).
  { destruct (_edges self).
    - injection Hp as _ <-. reflexivity.
    - ok_step Hp as r Hr. injection Hp as _ <-. destruct r as [e' s1].
      apply gen_edge_coordinates_config in Hr. exact Hr. }
  clear Hp.
  ok_step H as t1 Hid. ok_step H as t2 Hattrs. ok_step H as pc Hpc.
  ok_step H as pa Hpa. ok_step H as fig1 Hfig. injection H as <- <-.
  destruct pc as [t3 color], pa as [t4 alpha]. cbn [fst snd] in *.
  apply config_eq in Hc as (_ & _ & _ & Hhe & _ & _ & _ & _ & _ & Htips).
  exists t4. split; [reflexivity|]. intros tool Hin.
  apply edge_hover_tool_Ok in Hfig as [_ Htools].
  cbn [hover_edges _edge_tooltips set_edge_properties hover_tools add_renderer]
    in Htools.
  rewrite Hhe, Htips in Htools.
  destruct Htools as [[_ Ht]|[Hhe' (tips & Htips' & Ht)]]; rewrite Ht in Hin.
  - left. exact Hin.
  - apply elem_of_app in Hin as [Hin|Hin]; [left; exact Hin|].
    apply list_elem_of_singleton in Hin as ->. right. cbn.
    split; [exact Hhe'|]. split; [exact Htips'|]. eauto.
Qed.

(** X14.  In a graph that is not bipartite, every field a hover tool shows exists:
    each tooltip row of a tool is the literal type row or references, as
    ["@" + column], a column of the table that the tool's glyph reads.  For
    the edge tool this needs the graph to have an edge, since the identity
    columns are absent otherwise. *)
Theorem tooltip_fields_resolve E g w h inl hn he self0 self
    nc np ns na ec ep es ea mc fig self' :
  init E g w h inl hn he = Ok self0 →
  config self = config self0 →
  truthy (bipartite self) = false →
  (he = true → edges g ≠ []) →
  render E nc np ns na ec ep es ea mc self = Ok (fig, self') →
  ∀ tool tip,
    tool ∈ hover_tools fig → tip ∈ tooltips tool →
    ∃ r, hover_renderers tool = [r]
         ∧ (tip = ("type", "node") ∨ tip = ("type", "edge")
            ∨ ∃ col, tip.2 = "@" +:+ col ∧ is_Some (source_of r !! col)).
Proof.
  intros Hinit Hcfg Hbip Hedges H tool tip Htool Htip.
  pose proof (init_edge_tooltips _ _ _ _ _ _ _ _ Hinit) as Het.
  apply init_Ok in Hinit as (Hg0 & _ & Hhn0 & Hhe0 & Hnt0 & _).
  apply config_eq in Hcfg as (Hg & Hb & Hhn & Hhe & Ha0 & _ & Htt0 & _ & Hea & Hett).
  unfold render in H. ok_step H as r Hedge. destruct r as [fig1 self1].
  cbn [fst snd] in H.
  destruct (render_edges_dom _ _ _ _ _ _ _ _ _ _ Hedge) as (te & Hte & Hdom).
  destruct (render_edges_tools _ _ _ _ _ _ _ _ _ _ Hedge) as (te' & Hte' & Htools1).
  assert (te' = te) as -> by congruence. clear Hte'.
  pose proof (render_edges_spec _ _ _ _ _ _ _ _ _ _ Hedge) as (_ & _ & Hc1 & _).
  apply config_eq in Hc1 as (Hg1 & Hb1 & Hhn1 & _ & Ha1 & _ & Htt1 & _).
  pose proof (render_nodes_spec _ _ _ _ _ _ _ _ _ _ H)
    as (t0 & lv1 & _ & Hd0 & _ & _ & _ & Htools & Hlv1).
  rewrite Hb1, Hbip in Hlv1. subst lv1.
  rewrite Htools in Htool. apply elem_of_app in Htool as [Htool|Htool].
  - destruct (Htools1 tool Htool) as [Hnil|(Hhe1 & Htips & r & Hr & Hsrc)];
      [inversion Hnil|].
    exists r. split; [exact Hr|].
    rewrite Hhe, Hhe0 in Hhe1. subst he.
    rewrite Hett, Het, Hhe1 in Htips.
    injection Htips as Htips. rewrite <- Htips in Htip.
    rewrite Hea, Hg, Hg0 in Hdom.
    unfold edge_tooltips in Htip. rewrite elem_of_app in Htip.
    destruct Htip as [Htip|Htip].
    + rewrite !elem_of_cons in Htip.
      destruct Htip as [->|[->|[->|Hnil]]]; [auto | | | inversion Hnil];
        right; right; [exists "_u" | exists "_v"]; (split; [reflexivity|]);
        rewrite Hsrc; apply elem_of_dom, Hdom; auto 8.
    + apply elem_of_attr_tooltips in Htip as (a & Ha & ->).
      right. right. exists a. split; [reflexivity|].
      rewrite Hsrc. apply elem_of_dom, Hdom. auto 8.
  - unfold node_tools, node_glyphs in Htool. cbn [fst snd fmap option_fmap option_map]
      in Htool.
    rewrite Hhn1, Htt1, Hhn, Htt0, Hhn0, Hnt0 in Htool.
    destruct hn; [|inversion Htool].
    assert (Htool' : tool = hover_tool_for (node_tooltips (node_attributes_lv0 self0))
                              (Scatter Circle (final_color self1 nc)
                                 (final_color self1 nc) t0 na ns)).
    { destruct (_node_tooltips_lv1 self1);
        apply list_elem_of_singleton in Htool; exact Htool. }
    subst tool. cbn [hover_tool_for hover_renderers tooltips] in Htip |- *.
    eexists. split; [reflexivity|]. cbn [source_of].
    rewrite Hb1, Hhn1, Ha1, Hhn, Hhn0, Ha0 in Hd0.
    unfold node_tooltips in Htip. rewrite elem_of_app in Htip.
    destruct Htip as [Htip|Htip].
    + rewrite !elem_of_cons in Htip.
      destruct Htip as [->|[->|Hnil]]; [auto | | inversion Hnil].
      right. right. exists "_node". split; [reflexivity|].
      apply elem_of_dom. rewrite Hd0, elem_of_node_columns.
      left. unfold base_columns. rewrite Hbip. set_solver.
    + apply elem_of_attr_tooltips in Htip as (a & Ha & ->).
      right. right. exists a. split; [reflexivity|].
      apply elem_of_dom. rewrite Hd0, elem_of_node_columns.
      right. left. split; [exact Ha|]. left. reflexivity.
Qed.

(** [tooltip_fields_resolve] at [graph_triangle] with both hover flags set,
    drawn with the default options. *)
Lemma tooltip_fields_resolve_witness :
  ∃ self fig self',
    init Ref.collaborators graph_triangle 800 600 true true true = Ok self
    ∧ config self = config self
    ∧ truthy (bipartite self) = false
    ∧ (true = true → edges graph_triangle ≠ [])
    ∧ render Ref.collaborators "firebrick" "Category20" (VInt 9) (VFloat 0.7)
        "navy" "viridis" (VInt 1) (VFloat 0.3) (-1) self = Ok (fig, self')
    ∧ ∀ tool tip,
        tool ∈ hover_tools fig → tip ∈ tooltips tool →
        ∃ r, hover_renderers tool = [r]
             ∧ (tip = ("type", "node") ∨ tip = ("type", "edge")
                ∨ ∃ col, tip.2 = "@" +:+ col ∧ is_Some (source_of r !! col)).
Proof.
  pose (self := value_of (init Ref.collaborators graph_triangle
                            800 600 true true true)).
  pose (r := value_of (render Ref.collaborators "firebrick" "Category20"
                         (VInt 9) (VFloat 0.7) "navy" "viridis" (VInt 1)
                         (VFloat 0.3) (-1) self)).
  assert (H1 : init Ref.collaborators graph_triangle 800 600 true true true
               = Ok self) by returned.
  assert (H2 : config self = config self) by reflexivity.
  assert (H3 : truthy (bipartite self) = false) by run.
  assert (H4 : true = true → edges graph_triangle ≠ []) by (intros _; discriminate).
  assert (H5 : render Ref.collaborators "firebrick" "Category20" (VInt 9)
                 (VFloat 0.7) "navy" "viridis" (VInt 1) (VFloat 0.3) (-1) self
               = Ok (r.1, r.2)) by returned.
  exists self, r.1, r.2.
  split; [exact H1|]. split; [exact H2|]. split; [exact H3|]. split; [exact H4|].
  split; [exact H5|].
  exact (tooltip_fields_resolve _ _ _ _ _ _ _ _ _ _ _ _ _ _ _ _ _ _ _ _
           H1 H2 H3 H4 H5).
Defined.

(** ** Drawing again *)

Lemma config_size (s1 s : BokehGraph) :
  config s1 = config s → prepare_figure s1 = prepare_figure s.
Proof.
  unfold config, prepare_figure. intros H. injection H as _ _ _ _ _ _ _ _ _ _ Hw Hh _.
  rewrite Hw, Hh. reflexivity.
Qed.

(** [layout] reads the configuration only. *)
Lemma layout_congr E l sf it sc sd s s1 s2 :
  config s2 = config s →
  layout E l sf it sc sd s = Ok s1 →
  layout E l sf it sc sd s2
  = Ok (set_layout (_layout s1) (set_edges None (set_nodes None s2))).
Proof.
  unfold layout. cbn [bipartite graph set_edges set_nodes]. intros Hc H.
  apply config_eq in Hc as (Hg & Hb & _). rewrite Hg, Hb.
  destruct (falsy l && negb (truthy (bipartite s))).
  { ok_step H as k Hk. ok_step H as pos Hpos. injection H as <-.
    rewrite Hk. cbn [rbind]. rewrite Hpos. reflexivity. }
  destruct (falsy l && truthy (bipartite s)).
  { ok_step H as top Htop. ok_step H as pos Hpos. injection H as <-.
    rewrite Htop. cbn [rbind]. rewrite Hpos. reflexivity. }
  injection H as <-. reflexivity.
Qed.

Lemma ensure_layout_cases E s pos s1 :
  ensure_layout E s = Ok (pos, s1) →
  _layout s1 = Some pos
  ∧ ((falsy (_layout s) = false ∧ s1 = s)
     ∨ (falsy (_layout s) = true ∧ layout_default E s = Ok s1)).
Proof.
  unfold ensure_layout. intros H. ok_step H as s0 Hs0.
  destruct (_layout s0) as [pos'|] eqn:Hl; [|discriminate].
  injection H as <- <-. split; [exact Hl|].
  destruct (falsy (_layout s)); [right; auto|].
  injection Hs0 as <-. left. auto.
Qed.

(** Once [ensure_layout] has returned a layout, a later
    [gen_node_coordinates] on an instance holding that layout either finds it
    not empty, and leaves the instance alone, or raises. *)
Lemma gen_node_coordinates_after E s pos s1 s2 coords s2' :
  ensure_layout E s = Ok (pos, s1) →
  config s2 = config s →
  _layout s2 = Some pos →
  gen_node_coordinates E s2 = Ok (coords, s2') →
  s2' = s2 ∧ coords ≠ [].
Proof.
  intros H1 Hc Hl H.
  unfold gen_node_coordinates in H. ok_step H as p Hp. destruct p as [pos2 s3].
  cbn [fst snd] in H. ok_step H as nc Hnc. injection H as <- <-.
  apply unpack_zip_star_Ok in Hnc as [Hne ->].
  assert (Hcoords : (λ z : node * (float * float),
                       {| name := z.1; x := z.2.1; y := z.2.2 |})
                    <$> zip (pos2.*1, pos2.*2).1 (pos2.*1, pos2.*2).2 ≠ []).
  { cbn [fst snd]. rewrite zip_fst_snd. destruct pos2; [contradiction|discriminate]. }
  split; [|exact Hcoords].
  apply ensure_layout_cases in Hp as [Hl3 [[_ ->]|[Hf Hlay]]]; [reflexivity|].
  exfalso. rewrite Hl in Hf. destruct pos; [|discriminate].
  apply ensure_layout_cases in H1 as [Hl1 [[Hf1 ->]|[_ Hlay1]]].
  { rewrite Hl1 in Hf1. discriminate. }
  unfold layout_default in Hlay, Hlay1.
  rewrite (layout_congr _ _ _ _ _ _ _ _ _ Hc Hlay1) in Hlay.
  injection Hlay as <-. cbn in Hl3. rewrite Hl1 in Hl3. injection Hl3 as <-.
  contradiction.
Qed.

Lemma node_coordinates_Ok E s coords s' :
  node_coordinates E s = Ok (coords, s') →
  _nodes s' = Some coords ∧ coords ≠ []
  ∧ ((falsy (_nodes s) = false ∧ s' = s)
     ∨ (falsy (_nodes s) = true
        ∧ ∃ s1, gen_node_coordinates E s = Ok (coords, s1)
                ∧ s' = set_nodes (Some coords) s1)).
Proof.
  unfold node_coordinates. intros H.
  destruct (_nodes s) as [[|c cs]|] eqn:Hn; cbn [falsy] in H |- *.
  - ok_step H as r Hr. injection H as <- <-. destruct r as [c s1].
    split; [reflexivity|]. split.
    + unfold gen_node_coordinates in Hr. ok_step Hr as p Hp.
      ok_step Hr as nc Hnc. injection Hr as <- _.
      apply unpack_zip_star_Ok in Hnc as [Hne ->]. cbn [fst snd].
      rewrite zip_fst_snd. destruct p.1; [contradiction|discriminate].
    + right. eauto.
  - injection H as <- <-. split; [exact Hn|]. split; [discriminate|]. left. auto.
  - ok_step H as r Hr. injection H as <- <-. destruct r as [c s1].
    split; [reflexivity|]. split.
    + unfold gen_node_coordinates in Hr. ok_step Hr as p Hp.
      ok_step Hr as nc Hnc. injection Hr as <- _.
      apply unpack_zip_star_Ok in Hnc as [Hne ->]. cbn [fst snd].
      rewrite zip_fst_snd. destruct p.1; [contradiction|discriminate].
    + right. eauto.
Qed.

Lemma edge_hover_tool_congr (a b : BokehGraph) (r : renderer) (fig : Figure) :
  hover_edges a = hover_edges b → _edge_tooltips a = _edge_tooltips b →
  edge_hover_tool a r fig = edge_hover_tool b r fig.
Proof. unfold edge_hover_tool. intros -> ->. reflexivity. Qed.

Lemma node_hover_tools_congr (a b : BokehGraph) (g0 : renderer)
    (g1 : option renderer) (fig : Figure) :
  hover_nodes a = hover_nodes b →
  _node_tooltips_lv0 a = _node_tooltips_lv0 b →
  _node_tooltips_lv1 a = _node_tooltips_lv1 b →
  node_hover_tools a g0 g1 fig = node_hover_tools b g0 g1 fig.
Proof. unfold node_hover_tools. intros -> -> ->. reflexivity. Qed.

(** What the edge stage leaves, and what it does on any instance of the
    same configuration that holds the same edge coordinates. *)
Lemma render_edges_again E fig ec ep es ea mc s fig' s' :
  _render_edges E fig ec ep es ea mc s = Ok (fig', s') →
  ∃ e s0 te,
    s' = set_edge_properties (Some te) s0
    ∧ _edges s0 = Some e
    ∧ config s0 = config s
    ∧ tables s0 = tables s
    ∧ (_edges s = None → ∃ pos s1, ensure_layout E s = Ok (pos, s1)
                                   ∧ s0 = set_edges (Some e) s1)
    ∧ ∀ s2, config s2 = config s → _edges s2 = Some e →
        _render_edges E fig ec ep es ea mc s2
        = Ok (fig', set_edge_properties (Some te) s2).
Proof.
  unfold _render_edges. intros H.
  ok_step H as p Hp. destruct p as [e s0]. cbn [fst snd] in H.
  ok_step H as t1 Hid. ok_step H as t2 Hattrs. ok_step H as pc Hpc.
  ok_step H as pa Hpa. ok_step H as fig1 Hfig. injection H as <- <-.
  exists e, s0, pa.1.
  assert (Hs0 : _edges s0 = Some e ∧ config s0 = config s ∧ tables s0 = tables s
                ∧ (_edges s = None → ∃ pos s1, ensure_layout E s = Ok (pos, s1)
                                               ∧ s0 = set_edges (Some e) s1)).
  { destruct (_edges s) as [e0|] eqn:He.
    - injection Hp as <- <-. split_and!; try done.
    - ok_step Hp as r Hr. injection Hp as <- <-. destruct r as [e' s1].
      cbn [fst snd]. split; [reflexivity|].
      split; [apply gen_edge_coordinates_config in Hr; exact Hr|].
      unfold gen_edge_coordinates in Hr. ok_step Hr as q Hq.
      destruct q as [pos s2]. ok_step Hr as segs Hsegs. injection Hr as _ <-.
      split; [apply ensure_layout_tables in Hq; exact Hq|].
      intros _. exists pos, s2. auto. }
  destruct Hs0 as (He0 & Hc & Ht & Hcomputed).
  split; [reflexivity|]. split; [exact He0|]. split; [exact Hc|].
  split; [exact Ht|]. split; [exact Hcomputed|].
  intros s2 Hc2 He2. rewrite He2. cbn [rbind fst snd].
  rewrite <- Hc in Hc2.
  apply config_eq in Hc2 as (Hg & _ & _ & Hhe & _ & _ & _ & _ & Hea & Htips).
  rewrite Hg, Hea, Hid. cbn [rbind]. rewrite Hattrs. cbn [rbind].
  rewrite Hpc. cbn [rbind]. rewrite Hpa. cbn [rbind].
  rewrite (edge_hover_tool_congr _ (set_edge_properties (Some pa.1) s0))
    by (cbn; assumption).
  rewrite Hfig. reflexivity.
Qed.

(** The same for the node stage. *)
Lemma render_nodes_again E fig na ns nc np mc s fig' s' :
  _render_nodes E fig na ns nc np mc s = Ok (fig', s') →
  ∃ coords sN t0 lv1,
    s' = with_node_tables t0 lv1 sN
    ∧ node_coordinates E s = Ok (coords, sN)
    ∧ ∀ s2, config s2 = config s → _nodes s2 = Some coords →
        _render_nodes E fig na ns nc np mc s2
        = Ok (fig', with_node_tables t0 lv1 s2).
Proof.
  unfold _render_nodes. intros H.
  ok_step H as p Hp. destruct p as [coords sN]. cbn [fst snd] in H.
  ok_step H as parts Hparts. ok_step H as lv0a Hlv0.
  ok_step H as lv1a Hlv1. ok_step H as r0 Hr0. ok_step H as r1 Hr1.
  ok_step H as fig1 Hfig. injection H as <- <-.
  exists coords, sN, r0.1, r1.1. split; [reflexivity|]. split; [exact Hp|].
  intros s2 Hc2 Hn2.
  pose proof (node_coordinates_config _ _ _ _ Hp) as Hc.
  apply node_coordinates_Ok in Hp as (_ & Hne & _).
  unfold node_coordinates. rewrite Hn2.
  destruct coords as [|c cs]; [contradiction|]. cbn [falsy default from_option id rbind fst snd].
  rewrite <- Hc in Hc2.
  apply config_eq in Hc2 as (Hg & Hb & Hhn & _ & Ha0 & Ha1 & Ht0 & Ht1 & _).
  assert (Hparts2 : node_tables E s2 (c :: cs) = Ok parts).
  { unfold node_tables in Hparts |- *. rewrite Hb, Hg. exact Hparts. }
  rewrite Hparts2. cbn [rbind]. rewrite Hg, Hhn, Ha0, Hlv0. cbn [rbind].
  assert (Hlv12 : side1_attr_columns s2 nc parts.2 = Ok lv1a).
  { unfold side1_attr_columns in Hlv1 |- *. rewrite Ha1, Hg, Hhn. exact Hlv1. }
  rewrite Hlv12. cbn [rbind]. rewrite Hr0. cbn [rbind].
  assert (Hr12 : side1_color E s2 nc np mc r0.2 lv1a = Ok r1).
  { unfold side1_color in Hr1 |- *. rewrite Ha1. exact Hr1. }
  rewrite Hr12. cbn [rbind].
  rewrite (node_hover_tools_congr _
             (match r1.1 with
              | Some t => set_node_properties_lv1 (Some t)
                            (set_node_properties_lv0 (Some r0.1) sN)
              | None => set_node_properties_lv0 (Some r0.1) sN
              end)) by (destruct r1.1; cbn; assumption).
  rewrite Hfig. reflexivity.
Qed.

Lemma with_node_tables_fields t0 lv1 (s : BokehGraph) :
  config (with_node_tables t0 lv1 s) = config s
  ∧ _layout (with_node_tables t0 lv1 s) = _layout s
  ∧ _nodes (with_node_tables t0 lv1 s) = _nodes s
  ∧ _edges (with_node_tables t0 lv1 s) = _edges s
  ∧ edge_properties (with_node_tables t0 lv1 s) = edge_properties s.
Proof. destruct lv1; repeat split. Qed.

(** With both coordinate caches filled, [render] consults neither the stored
    layout nor a layout solver, and leaves the three of them as they are. *)
Lemma render_cached E nc np ns na ec ep es ea mc s e coords fig s' :
  _edges s = Some e → _nodes s = Some coords → coords ≠ [] →
  render E nc np ns na ec ep es ea mc s = Ok (fig, s') →
  _layout s' = _layout s ∧ _nodes s' = _nodes s ∧ _edges s' = _edges s.
Proof.
  intros He Hn Hne H. unfold render in H.
  ok_step H as r Hedge. destruct r as [fig1 s1]. cbn [fst snd] in H.
  unfold _render_edges in Hedge. rewrite He in Hedge. cbn [rbind fst snd] in Hedge.
  ok_step Hedge as t1 Hid. ok_step Hedge as t2 Hattrs. ok_step Hedge as pc Hpc.
  ok_step Hedge as pa Hpa. ok_step Hedge as fig2 Hfig. injection Hedge as _ <-.
  destruct (render_nodes_again _ _ _ _ _ _ _ _ _ _ H)
    as (coords' & sN & t0 & lv1 & -> & Hnc & _).
  destruct (with_node_tables_fields t0 lv1 sN) as (_ & -> & -> & -> & _).
  apply node_coordinates_Ok in Hnc as (_ & _ & [[_ ->]|[Hf _]]).
  - repeat split.
  - cbn in Hf. rewrite Hn in Hf. destruct coords; [contradiction|discriminate].
Qed.

(** X15.  A draw from an empty edge cache (a fresh instance, or one whose layout
    was just set) fills both coordinate caches; drawing again with the same
    options returns the same figure and leaves the instance as it is; and no
    later draw, whatever its options and whatever the layout solvers would
    answer, changes the stored layout or the cached coordinates. *)
Theorem render_again E nc np ns na ec ep es ea mc self fig self' :
  _edges self = None →
  render E nc np ns na ec ep es ea mc self = Ok (fig, self') →
  (∃ e coords, _edges self' = Some e ∧ _nodes self' = Some coords ∧ coords ≠ [])
  ∧ render E nc np ns na ec ep es ea mc self' = Ok (fig, self')
  ∧ ∀ E' nc' np' ns' na' ec' ep' es' ea' mc' fig2 self2,
      render E' nc' np' ns' na' ec' ep' es' ea' mc' self' = Ok (fig2, self2) →
      _layout self2 = _layout self' ∧ _nodes self2 = _nodes self'
      ∧ _edges self2 = _edges self'.
Proof.
  intros He H. unfold render in H.
  ok_step H as r Hedge. destruct r as [fig1 self1]. cbn [fst snd] in H.
  destruct (render_edges_again _ _ _ _ _ _ _ _ _ _ Hedge)
    as (e & s0 & te & -> & He0 & Hc0 & _ & Hcomp & Hagain_e).
  destruct (Hcomp He) as (pos & s1 & Hens & ->). clear Hcomp.
  destruct (render_nodes_again _ _ _ _ _ _ _ _ _ _ H)
    as (coords & sN & t0 & lv1 & -> & Hnc & Hagain_n).
  pose proof (ensure_layout_config _ _ _ _ Hens) as [Hc1 Hl1].
  set (S1 := set_edge_properties (Some te) (set_edges (Some e) s1)) in *.
  apply node_coordinates_Ok in Hnc as (HnN & Hne & Hcases).
  assert (HsN : sN = S1 ∨ sN = set_nodes (Some coords) S1).
  { destruct Hcases as [[_ ->]|(_ & s1' & Hgen & ->)]; [left; reflexivity|].
    right. f_equal.
    refine (proj1 (gen_node_coordinates_after _ _ _ _ _ _ _ Hens _ _ Hgen)).
    - exact Hc1.
    - exact Hl1. }
  assert (HeN : _edges sN = Some e) by (destruct HsN as [->| ->]; reflexivity).
  assert (HcN : config sN = config self)
    by (destruct HsN as [->| ->]; exact Hc1).
  destruct (with_node_tables_fields t0 lv1 sN) as (Hcw & Hlw & Hnw & Hew & _).
  assert (Hfilled : ∃ e coords, _edges (with_node_tables t0 lv1 sN) = Some e
                                ∧ _nodes (with_node_tables t0 lv1 sN) = Some coords
                                ∧ coords ≠ []).
  { exists e, coords. rewrite Hew, Hnw. auto. }
  split; [exact Hfilled|]. split.
  - unfold render. rewrite (config_size _ self) by (rewrite Hcw; exact HcN).
    rewrite (Hagain_e (with_node_tables t0 lv1 sN));
      [|rewrite Hcw; exact HcN | rewrite Hew; exact HeN].
    cbn [rbind fst snd].
    rewrite (Hagain_n (set_edge_properties (Some te) (with_node_tables t0 lv1 sN)));
      [|change (config (with_node_tables t0 lv1 sN) = config s1);
        rewrite Hcw, HcN, Hc1; reflexivity
       |change (_nodes (with_node_tables t0 lv1 sN) = Some coords);
        rewrite Hnw; exact HnN].
    f_equal. f_equal.
    destruct HsN as [->| ->]; subst S1; destruct lv1, s1; reflexivity.
  - intros E' nc' np' ns' na' ec' ep' es' ea' mc' fig2 self2 H2.
    destruct Hfilled as (e' & coords' & He' & Hn' & Hne').
    exact (render_cached _ _ _ _ _ _ _ _ _ _ _ _ _ _ _ He' Hn' Hne' H2).
Qed.

(** [render_again] at [graph_star], drawn with the default options from the
    fresh instance. *)
Lemma render_again_witness :
  ∃ self fig self',
    _edges self = None
    ∧ render Ref.collaborators "firebrick" "Category20" (VInt 9) (VFloat 0.7)
        "navy" "viridis" (VInt 1) (VFloat 0.3) (-1) self = Ok (fig, self')
    ∧ (∃ e coords,
         _edges self' = Some e ∧ _nodes self' = Some coords ∧ coords ≠ [])
    ∧ render Ref.collaborators "firebrick" "Category20" (VInt 9) (VFloat 0.7)
        "navy" "viridis" (VInt 1) (VFloat 0.3) (-1) self' = Ok (fig, self')
    ∧ ∀ E' nc' np' ns' na' ec' ep' es' ea' mc' fig2 self2,
        render E' nc' np' ns' na' ec' ep' es' ea' mc' self' = Ok (fig2, self2) →
        _layout self2 = _layout self' ∧ _nodes self2 = _nodes self'
        ∧ _edges self2 = _edges self'.
Proof.
  pose (self := value_of (init Ref.collaborators graph_star
                            800 600 true true false)).
  pose (r := value_of (render Ref.collaborators "firebrick" "Category20"
                         (VInt 9) (VFloat 0.7) "navy" "viridis" (VInt 1)
                         (VFloat 0.3) (-1) self)).
  assert (H1 : _edges self = None) by run.
  assert (H2 : render Ref.collaborators "firebrick" "Category20" (VInt 9)
                 (VFloat 0.7) "navy" "viridis" (VInt 1) (VFloat 0.3) (-1) self
               = Ok (r.1, r.2)) by returned.
  exists self, r.1, r.2. split; [exact H1|]. split; [exact H2|].
  exact (render_again _ _ _ _ _ _ _ _ _ _ _ _ _ H1 H2).
Defined.

(** ** From the layout to the tables *)

(** The columns of the edge table that no stage after the coordinates
    writes. *)
Lemma edge_table_lookup E fig ec ep es ea mc s fig' s' :
  _render_edges E fig ec ep es ea mc s = Ok (fig', s') →
  ∃ e te,
    _edges s' = Some e
    ∧ edge_properties s' = Some te
    ∧ (_edges s = None → ∃ s1, gen_edge_coordinates E s = Ok (e, s1))
    ∧ (∀ key, key ∉ edge_attributes s →
              key ∉ ["_u"; "_v"; "_colormap"; "_edge_alpha"] →
              te !! key
              = (<["ys" := ys e]> (<["xs" := xs e]> ∅) : gmap string (list value))
                  !! key).
Proof.
  unfold _render_edges. intros H.
  ok_step H as p Hp. destruct p as [e s0]. cbn [fst snd] in H.
  assert (Hs0 : config s0 = config s ∧ _edges s0 = Some e
                ∧ (_edges s = None → ∃ s1, gen_edge_coordinates E s = Ok (e, s1))).
  { destruct (_edges s) as [e0|] eqn:He.
    - injection Hp as <- <-. split_and!; try done.
    - ok_step Hp as r Hr. injection Hp as <- <-. destruct r as [e' s1].
      split; [apply gen_edge_coordinates_config in Hr; exact Hr|].
      split; [reflexivity|]. intros _. eauto. }
  destruct Hs0 as (Hc & He0 & Hcomp). clear Hp.
  ok_step H as t1 Hid. ok_step H as t2 Hattrs. ok_step H as pc Hpc.
  ok_step H as pa Hpa. ok_step H as fig1 Hfig. injection H as _ <-.
  destruct pc as [t3 color], pa as [t4 alpha]. cbn [fst snd] in *.
  apply config_eq in Hc as (_ & _ & _ & _ & _ & _ & _ & _ & Hea & _).
  rewrite Hea in *.
  exists e, t4. split; [exact He0|]. split; [reflexivity|].
  split; [exact Hcomp|]. intros key Hattr Hsyn.
  rewrite !not_elem_of_cons in Hsyn. destruct Hsyn as (Hu & Hv & Hcm & Hal & _).
  assert (H43 : t4 !! key = t3 !! key).
  { apply resolve_alpha_Ok in Hpa as [->|[cm ->]]; [reflexivity|].
    apply lookup_insert_ne. congruence. }
  assert (H32 : t3 !! key = t2 !! key).
  { apply resolve_color_Ok in Hpc as [H1 H2].
    destruct (decide (ec ∈ edge_attributes s)) as [Hin|Hnin].
    - destruct (H1 Hin) as (_ & vals & cm & _ & _ & ->).
      apply lookup_insert_ne. congruence.
    - destruct (H2 Hnin) as [_ ->]. reflexivity. }
  assert (H21 : t2 !! key = t1 !! key).
  { rewrite edge_attr_columns_loop in Hattrs.
    destruct (column_loop_Ok _ _ _ _ _ Hattrs) as [_ H2]. apply H2. auto. }
  rewrite H43, H32, H21.
  apply edge_identity_columns_Ok in Hid as [[_ ->]|[_ ->]]; [reflexivity|].
  rewrite !lookup_insert_ne by congruence. reflexivity.
Qed.

(** X16.  A layout passed to [layout] is the one drawn.  In a graph that is not
    bipartite, after [layout(layout=m)] with a mapping that is not empty,
    [render] keeps [m] stored; the identity and coordinate columns of the
    node table list the items of [m] in the order of [m], and every row of
    the coordinate columns of the edge table joins the positions [m] gives to
    the endpoints of that row's edge.  A column whose name is also the name
    of an attribute that gets a column holds the attribute instead. *)
Theorem explicit_layout_drawn E m sf it sc sd self s1
    nc np ns na ec ep es ea mc fig s' :
  m ≠ [] →
  truthy (bipartite self) = false →
  layout E (Some m) sf it sc sd self = Ok s1 →
  render E nc np ns na ec ep es ea mc s1 = Ok (fig, s') →
  _layout s' = Some m
  ∧ ∃ t te,
      node_properties_lv0 s' = Some t
      ∧ edge_properties s' = Some te
      ∧ (∀ key col,
           (key, col) ∈ [("_node", VInt <$> m.*1); ("xs", VFloat <$> m.*2.*1);
                         ("ys", VFloat <$> m.*2.*2)] →
           ¬ (key ∈ node_attributes_lv0 self
              ∧ materialised (hover_nodes self) nc key) →
           t !! key = Some col)
      ∧ ("xs" ∉ edge_attributes self →
         ∃ col, te !! "xs" = Some col
                ∧ Forall2 (λ (edge : node * node) row,
                             ∃ pu pv, getitem m edge.1 = Ok pu
                                      ∧ getitem m edge.2 = Ok pv
                                      ∧ row = VList [VFloat pu.1; VFloat pv.1])
                    (edges (graph self)) col)
      ∧ ("ys" ∉ edge_attributes self →
         ∃ col, te !! "ys" = Some col
                ∧ Forall2 (λ (edge : node * node) row,
                             ∃ pu pv, getitem m edge.1 = Ok pu
                                      ∧ getitem m edge.2 = Ok pv
                                      ∧ row = VList [VFloat pu.2; VFloat pv.2])
                    (edges (graph self)) col).
Proof.
  intros Hm Hbip Hlay H.
  assert (Hs1 : s1 = set_layout (Some m) (set_edges None (set_nodes None self))).
  { unfold layout in Hlay. destruct m as [|p m]; [contradiction|].
    cbn in Hlay. injection Hlay as <-. reflexivity. }
  assert (Hl1 : _layout s1 = Some m) by (subst s1; reflexivity).
  assert (He1 : _edges s1 = None) by (subst s1; reflexivity).
  assert (Hn1 : _nodes s1 = None) by (subst s1; reflexivity).
  assert (Hc1 : config s1 = config self) by (subst s1; reflexivity).
  clear Hlay Hs1.
  unfold render in H. ok_step H as r Hedge. destruct r as [fig1 self1].
  cbn [fst snd] in H.
  destruct (edge_table_lookup _ _ _ _ _ _ _ _ _ _ Hedge)
    as (e & te & _ & Hte & Hcomp & Hlook).
  destruct (Hcomp He1) as (s1' & Hgen). clear Hcomp.
  destruct (gen_edge_coordinates_Ok _ _ _ _ Hgen) as (pos & Hpos & Hxs & Hys).
  assert (s1' = s1 ∧ pos = m) as [-> ->].
  { unfold gen_edge_coordinates in Hgen.
    rewrite (ensure_layout_stored E s1 m Hl1 Hm) in Hgen. cbn [rbind fst snd] in Hgen.
    ok_step Hgen as segs Hsegs. injection Hgen as _ <-.
    split; [reflexivity|]. congruence. }
  destruct (render_edges_again _ _ _ _ _ _ _ _ _ _ Hedge)
    as (e' & s0 & te' & -> & _ & _ & _ & Hcomp & _).
  destruct (Hcomp He1) as (pos' & s1' & Hens & ->). clear Hcomp.
  rewrite (ensure_layout_stored E s1 m Hl1 Hm) in Hens. injection Hens as <- <-.
  cbn in Hte. injection Hte as ->.
  set (S1 := set_edge_properties (Some te) (set_edges (Some e') s1)) in *.
  assert (HlS : _layout S1 = Some m) by exact Hl1.
  assert (HnS : _nodes S1 = None) by exact Hn1.
  assert (HcS : config S1 = config self) by exact Hc1.
  destruct (render_nodes_again _ _ _ _ _ _ _ _ _ _ H)
    as (coords & sN & t0 & lv1 & Hs' & Hnc & _).
  destruct (stored_layout_coords E S1 m HlS Hm) as (coords0 & Hgen0 & Hnames & Hx & Hy).
  apply node_coordinates_Ok in Hnc as (_ & _ & [[Hf _]|(_ & s2 & Hgen2 & HsN)]).
  { rewrite HnS in Hf. discriminate. }
  rewrite Hgen0 in Hgen2. injection Hgen2 as -> <-.
  destruct (with_node_tables_fields t0 lv1 sN) as (_ & Hlw & _).
  split; [rewrite Hs', Hlw, HsN; exact HlS|].
  apply render_nodes_inv in H
    as (coords' & members0 & base0 & side1 & t0a & t0' & c0
        & Hn' & Hparts & Hloop & Hres & Ht0 & _).
  assert (coords' = coords) as ->.
  { rewrite Hs' in Hn'.
    destruct (with_node_tables_fields t0 lv1 sN) as (_ & _ & Hnw & _).
    rewrite Hnw, HsN in Hn'. cbn in Hn'. congruence. }
  apply config_eq in HcS as (Hg & Hb & Hhn & _ & Ha0 & _).
  rewrite Hb, Hbip in Hparts. destruct Hparts as (-> & -> & _).
  destruct (node_table_lookup _ _ _ _ _ _ _ _ _ _ _ _ Hloop Hres) as [_ Hbase].
  rewrite Hhn, Ha0 in Hbase.
  exists t0', te. split; [exact Ht0|]. split.
  { destruct (with_node_tables_fields t0 lv1 sN) as (_ & _ & _ & _ & Hep).
    rewrite Hs', Hep, HsN. reflexivity. }
  split; [|split].
  - intros key col Hin Hnot. rewrite !elem_of_cons in Hin.
    destruct Hin as [Hk|[Hk|[Hk|Hnil]]]; [| | |inversion Hnil];
      injection Hk as -> ->; rewrite (Hbase _ Hnot) by discriminate;
      unfold single_table; rewrite ?Hnames, ?Hx, ?Hy;
      repeat (rewrite lookup_insert_ne by discriminate);
      apply lookup_insert_eq.
  - intros Hnin. exists (xs e).
    assert (Hea : edge_attributes s1 = edge_attributes self).
    { apply config_eq in Hc1 as (_ & _ & _ & _ & _ & _ & _ & _ & Hea & _).
      exact Hea. }
    split.
    + rewrite Hlook; [|rewrite Hea; exact Hnin
                      |rewrite !not_elem_of_cons; split_and!; try discriminate;
                       apply not_elem_of_nil].
      rewrite lookup_insert_ne by discriminate. apply lookup_insert_eq.
    + assert (Hg1 : graph s1 = graph self).
      { apply config_eq in Hc1 as (Hg1 & _). exact Hg1. }
      rewrite <- Hg1. exact Hxs.
  - intros Hnin. exists (ys e).
    assert (Hea : edge_attributes s1 = edge_attributes self).
    { apply config_eq in Hc1 as (_ & _ & _ & _ & _ & _ & _ & _ & Hea & _).
      exact Hea. }
    split.
    + rewrite Hlook; [|rewrite Hea; exact Hnin
                      |rewrite !not_elem_of_cons; split_and!; try discriminate;
                       apply not_elem_of_nil].
      apply lookup_insert_eq.
    + assert (Hg1 : graph s1 = graph self).
      { apply config_eq in Hc1 as (Hg1 & _). exact Hg1. }
      rewrite <- Hg1. exact Hys.
Qed.

(** [explicit_layout_drawn] at [graph_triangle] with the mapping
    [star_positions], drawn with the default options. *)
Lemma explicit_layout_drawn_witness :
  ∃ self s1 fig s',
    star_positions ≠ []
    ∧ truthy (bipartite self) = false
    ∧ layout Ref.collaborators (Some star_positions) 0.8%float 50 (VInt 1) None
        self = Ok s1
    ∧ render Ref.collaborators "firebrick" "Category20" (VInt 9) (VFloat 0.7)
        "navy" "viridis" (VInt 1) (VFloat 0.3) (-1) s1 = Ok (fig, s')
    ∧ _layout s' = Some star_positions
    ∧ ∃ t te,
        node_properties_lv0 s' = Some t
        ∧ edge_properties s' = Some te
        ∧ (∀ key col,
             (key, col) ∈ [("_node", VInt <$> star_positions.*1);
                           ("xs", VFloat <$> star_positions.*2.*1);
                           ("ys", VFloat <$> star_positions.*2.*2)] →
             ¬ (key ∈ node_attributes_lv0 self
                ∧ materialised (hover_nodes self) "firebrick" key) →
             t !! key = Some col)
        ∧ ("xs" ∉ edge_attributes self →
           ∃ col, te !! "xs" = Some col
                  ∧ Forall2 (λ (edge : node * node) row,
                               ∃ pu pv, getitem star_positions edge.1 = Ok pu
                                        ∧ getitem star_positions edge.2 = Ok pv
                                        ∧ row = VList [VFloat pu.1; VFloat pv.1])
                      (edges (graph self)) col)
        ∧ ("ys" ∉ edge_attributes self →
           ∃ col, te !! "ys" = Some col
                  ∧ Forall2 (λ (edge : node * node) row,
                               ∃ pu pv, getitem star_positions edge.1 = Ok pu
                                        ∧ getitem star_positions edge.2 = Ok pv
                                        ∧ row = VList [VFloat pu.2; VFloat pv.2])
                      (edges (graph self)) col).
Proof.
  pose (self := value_of (init Ref.collaborators graph_triangle
                            800 600 true true false)).
  pose (s1 := value_of (layout Ref.collaborators (Some star_positions)
                          0.8%float 50 (VInt 1) None self)).
  pose (r := value_of (render Ref.collaborators "firebrick" "Category20"
                         (VInt 9) (VFloat 0.7) "navy" "viridis" (VInt 1)
                         (VFloat 0.3) (-1) s1)).
  assert (H1 : star_positions ≠ []) by discriminate.
  assert (H2 : truthy (bipartite self) = false) by run.
  assert (H3 : layout Ref.collaborators (Some star_positions) 0.8%float 50
                 (VInt 1) None self = Ok s1) by returned.
  assert (H4 : render Ref.collaborators "firebrick" "Category20" (VInt 9)
                 (VFloat 0.7) "navy" "viridis" (VInt 1) (VFloat 0.3) (-1) s1
               = Ok (r.1, r.2)) by returned.
  exists self, s1, r.1, r.2.
  split; [exact H1|]. split; [exact H2|]. split; [exact H3|]. split; [exact H4|].
  exact (explicit_layout_drawn _ _ _ _ _ _ _ _ _ _ _ _ _ _ _ _ _ _ _
           H1 H2 H3 H4).
Defined.

(** ** Nodes come from the layout *)

(** X17.  The node stage draws the items of the stored layout, whether or not
    they are nodes of the graph.  In a graph that is not bipartite, a layout
    key that is not a node of the graph makes the stage raise [KeyError] as
    soon as one attribute gets a column; with an empty attribute catalog the
    stage succeeds and the identity column lists the layout's keys. *)
Theorem layout_node_outside_graph E fig na ns nc np mc self pos :
  truthy (bipartite self) = false →
  _nodes self = None →
  _layout self = Some pos →
  pos ≠ [] →
  (∀ n attr,
     n ∈ pos.*1 → n ∉ (nodes_data (graph self)).*1 →
     attr ∈ node_attributes_lv0 self →
     materialised (hover_nodes self) nc attr →
     _render_nodes E fig na ns nc np mc self = Raise KeyError)
  ∧ (node_attributes_lv0 self = [] →
     (hover_nodes self = true → is_Some (_node_tooltips_lv0 self)) →
     ∃ fig' self' t,
       _render_nodes E fig na ns nc np mc self = Ok (fig', self')
       ∧ node_properties_lv0 self' = Some t
       ∧ t !! "_node" = Some (VInt <$> pos.*1)).
Proof.
  intros Hbip Hn Hl Hpos.
  destruct (stored_layout_coords E self pos Hl Hpos)
    as (coords & Hgen & Hnames & _ & _).
  split.
  - intros n attr Hin Hout Hattr Hm.
    unfold _render_nodes, node_coordinates. rewrite Hn. cbn [falsy].
    rewrite Hgen. cbn [rbind fst snd].
    unfold node_tables. cbn [bipartite set_nodes]. rewrite Hbip.
    cbn [rbind fst snd graph hover_nodes node_attributes_lv0 set_nodes].
    rewrite Hnames, node_attr_columns_loop.
    rewrite (column_loop_Raise _ _ _ _ KeyError); [reflexivity| |].
    + intros a _ _. apply node_column_cases.
    + exists attr. split; [exact Hattr|].
      split; [apply materialised_skip, Hm|].
      apply comprehension_Raise.
      * intros a _. apply node_attr_cases.
      * exists n. split; [exact Hin|]. unfold node_attr.
        apply getitem_elem_of in Hout. rewrite Hout. reflexivity.
  - intros Hnil Htips.
    destruct (render_nodes_single_total E fig na ns nc np mc self pos
                Hbip Hn Hl Hpos Htips) as (fig' & self' & H & _).
    { intros attr n Hin. rewrite Hnil in Hin. inversion Hin. }
    { rewrite Hnil. apply not_elem_of_nil. }
    destruct (render_nodes_again _ _ _ _ _ _ _ _ _ _ H)
      as (coords' & sN & t0 & lv1 & _ & Hnc & _).
    apply node_coordinates_Ok in Hnc as (_ & _ & [[Hf _]|(_ & s1 & Hgen' & _)]).
    { rewrite Hn in Hf. discriminate. }
    rewrite Hgen in Hgen'. injection Hgen' as <- _.
    pose proof H as H'.
    apply render_nodes_inv in H'
      as (coords' & members0 & base0 & side1 & t0a & t0' & c0
          & Hn' & Hparts & Hloop & Hres & Ht0 & _).
    rewrite Hbip in Hparts. destruct Hparts as (-> & -> & _).
    destruct (node_table_lookup _ _ _ _ _ _ _ _ _ _ _ _ Hloop Hres) as [_ Hbase].
    assert (coords' = coords) as ->.
    { unfold _render_nodes, node_coordinates in H. rewrite Hn in H.
      cbn [falsy] in H. rewrite Hgen in H. cbn [rbind fst snd] in H.
      ok_step H as parts Hp. ok_step H as lv0a Hlv0. ok_step H as lv1a Hlv1.
      ok_step H as r0 Hr0. ok_step H as r1 Hr1. ok_step H as fig1 Hfig.
      injection H as _ <-. destruct r1.1; cbn in Hn'; congruence. }
    exists fig', self', t0'. split; [exact H|]. split; [exact Ht0|].
    rewrite Hbase; [|rewrite Hnil; intros [Hin _]; inversion Hin | discriminate].
    unfold single_table. rewrite Hnames. apply lookup_insert_eq.
Qed.

(** [layout_node_outside_graph] at [graph_isolated] with the mapping
    [star_positions] stored, which places a node 2 the graph does not have. *)
Lemma layout_node_outside_graph_witness :
  ∃ self,
    truthy (bipartite self) = false
    ∧ _nodes self = None
    ∧ _layout self = Some star_positions
    ∧ star_positions ≠ []
    ∧ (∀ n attr,
         n ∈ star_positions.*1 → n ∉ (nodes_data (graph self)).*1 →
         attr ∈ node_attributes_lv0 self →
         materialised (hover_nodes self) "firebrick" attr →
         _render_nodes Ref.collaborators (prepare_figure self) (VFloat 0.7)
           (VInt 9) "firebrick" "Category20" (-1) self = Raise KeyError)
    ∧ (node_attributes_lv0 self = [] →
       (hover_nodes self = true → is_Some (_node_tooltips_lv0 self)) →
       ∃ fig' self' t,
         _render_nodes Ref.collaborators (prepare_figure self) (VFloat 0.7)
           (VInt 9) "firebrick" "Category20" (-1) self = Ok (fig', self')
         ∧ node_properties_lv0 self' = Some t
         ∧ t !! "_node" = Some (VInt <$> star_positions.*1)).
Proof.
  pose (self := set_layout (Some star_positions)
                  (value_of (init Ref.collaborators graph_isolated
                               800 600 true true false))).
  assert (H1 : truthy (bipartite self) = false) by run.
  assert (H2 : _nodes self = None) by run.
  assert (H3 : _layout self = Some star_positions) by reflexivity.
  assert (H4 : star_positions ≠ []) by discriminate.
  exists self.
  split; [exact H1|]. split; [exact H2|]. split; [exact H3|]. split; [exact H4|].
  exact (layout_node_outside_graph Ref.collaborators (prepare_figure self)
           (VFloat 0.7) (VInt 9) "firebrick" "Category20" (-1) self
           star_positions H1 H2 H3 H4).
Defined.
